(** * Website Change Radar: value extraction and change ledger

    A shallow embedding of [website_change_radar_discord.py] and the
    properties of its extraction strategies, difference analyser and
    change ledger.

    Conventions.  A Python [str] is a list of Unicode code points
    ([N]); ASCII literals of the source are written as Rocq strings and
    converted with [lit].  A Python [dict] is an association list in
    insertion order with unique keys.  Compiled regular expressions are
    values of a small regex syntax run by a backtracking matcher that
    follows CPython's [sre] engine on the constructs the three patterns
    of the source use. *)

From Stdlib Require Import String Ascii.
From Stdlib Require Import List NArith ZArith Lia Bool Arith.
From Stdlib Require Import Floats.SpecFloat DecimalString.
From Stdlib Require Import Sorting.Sorted Sorting.Permutation.
Import ListNotations.

Set Implicit Arguments.

(* ================================================================= *)
(** ** Python strings *)

Module PyStr.

Definition str := list N.

(** An ASCII literal of the source. *)
Definition lit (s : string) : str :=
  map N_of_ascii (list_ascii_of_string s).

Fixpoint eqb (a b : str) : bool :=
  match a, b with
  | [], [] => true
  | x :: a', y :: b' => N.eqb x y && eqb a' b'
  | _, _ => false
  end.

(** [a < b] on [str]: lexicographic on code points. *)
Fixpoint ltb (a b : str) : bool :=
  match a, b with
  | _, [] => false
  | [], _ :: _ => true
  | x :: a', y :: b' => N.ltb x y || (N.eqb x y && ltb a' b')
  end.

(** [s[:n]] *)
Definition slice_to (n : nat) (s : str) : str := firstn n s.

(** [s.replace(c, "")] for a one-character [c]. *)
Definition remove_char (c : N) (s : str) : str :=
  filter (fun x => negb (N.eqb x c)) s.

Definition in_range (lo hi c : N) : bool := N.leb lo c && N.leb c hi.

End PyStr.

Import PyStr.

(* ================================================================= *)
(** ** Character classes of the [re] module on [str] patterns *)

Module CharClass.

(** [[0-9]] *)
Definition ascii_digit (c : N) : bool := in_range 48 57 c.

(** [[0-9,]] *)
Definition digit_or_comma (c : N) : bool := ascii_digit c || N.eqb c 44.

(** [\.] *)
Definition dot (c : N) : bool := N.eqb c 46.

(** The class in [PRICE_PATTERN] as the source file spells it: the
    three characters U+00C2, U+00A3 (pound sign) and [$]. *)
Definition currency (c : N) : bool :=
  N.eqb c 194 || N.eqb c 163 || N.eqb c 36.

(** [\s] on a [str] pattern: the characters for which [str.isspace]
    holds. *)
Definition space (c : N) : bool :=
  in_range 9 13 c || in_range 28 32 c || N.eqb c 133 || N.eqb c 160
  || N.eqb c 5760 || in_range 8192 8202 c || in_range 8232 8233 c
  || N.eqb c 8239 || N.eqb c 8287 || N.eqb c 12288.

(** [\d] on a [str] pattern: the characters of Unicode category Nd
    (Unicode 14.0, the database of CPython 3.11). *)
Definition decimal_ranges : list (N * N) :=
  [ (48, 57); (1632, 1641); (1776, 1785); (1984, 1993); (2406, 2415);
    (2534, 2543); (2662, 2671); (2790, 2799); (2918, 2927); (3046, 3055);
    (3174, 3183); (3302, 3311); (3430, 3439); (3558, 3567); (3664, 3673);
    (3792, 3801); (3872, 3881); (4160, 4169); (4240, 4249); (6112, 6121);
    (6160, 6169); (6470, 6479); (6608, 6617); (6784, 6793); (6800, 6809);
    (6992, 7001); (7088, 7097); (7232, 7241); (7248, 7257); (42528, 42537);
    (43216, 43225); (43264, 43273); (43472, 43481); (43504, 43513);
    (43600, 43609); (44016, 44025); (65296, 65305); (66720, 66729);
    (68912, 68921); (69734, 69743); (69872, 69881); (69942, 69951);
    (70096, 70105); (70384, 70393); (70736, 70745); (70864, 70873);
    (71248, 71257); (71360, 71369); (71472, 71481); (71904, 71913);
    (72016, 72025); (72784, 72793); (73040, 73049); (73120, 73129);
    (92768, 92777); (92864, 92873); (93008, 93017); (120782, 120831);
    (123200, 123209); (123632, 123641); (125264, 125273); (130032, 130041) ]%N.

Definition decimal (c : N) : bool :=
  existsb (fun r => in_range (fst r) (snd r) c) decimal_ranges.

(** A literal character. *)
Definition exactly (a : N) (c : N) : bool := N.eqb c a.

(** A literal ASCII character under [re.IGNORECASE]: the characters
    whose simple lower case is the literal's, plus the engine's extra
    equivalents (dotless and dotted i, long s, Kelvin sign). *)
Definition ascii_lower (a : N) : N :=
  if in_range 65 90 a then (a + 32)%N else a.

Definition ignorecase (a : N) (c : N) : bool :=
  let l := ascii_lower a in
  if in_range 97 122 l then
    N.eqb c l || N.eqb c (l - 32)
    || (N.eqb l 105 && (N.eqb c 304 || N.eqb c 305))
    || (N.eqb l 115 && N.eqb c 383)
    || (N.eqb l 107 && N.eqb c 8490)
  else N.eqb c a.

End CharClass.

(* ================================================================= *)
(** ** Regular expressions and the backtracking matcher *)

Module Re.

(** The constructs used by the patterns of the source.  A repeat is
    always applied to a one-character item ([\s*], [[0-9,]*], [\s+],
    [\d+], [[0-9]{2}]), which is the engine's REPEAT_ONE case. *)
Inductive regex : Type :=
| Eps
| In (f : N -> bool)
| Cat (r1 r2 : regex)
| Repeat (lo : nat) (hi : option nat) (f : N -> bool)
| Opt (r : regex)
| Group (i : nat) (r : regex).

Definition captures := list (nat * str).

Fixpoint lookup (i : nat) (c : captures) : option str :=
  match c with
  | [] => None
  | (j, s) :: c' => if Nat.eqb i j then Some s else lookup i c'
  end.

Definition record (i : nat) (s : str) (c : captures) : captures :=
  (i, s) :: c.

(** Number of leading characters of [s] in class [f], at most [hi]. *)
Fixpoint count_class (f : N -> bool) (hi : option nat) (s : str) : nat :=
  match hi with
  | Some 0 => 0
  | _ =>
    match s with
    | c :: t =>
        if f c then S (count_class f (option_map pred hi) t) else 0
    | [] => 0
    end
  end.

Section Exec.
Variable A : Type.

(** Greedy repeat: try the continuation after [n] characters, then
    after [n-1], ..., down to [lo]. *)
Fixpoint give_back (n lo : nat) (s : str) (caps : captures)
         (k : str -> captures -> option A) : option A :=
  if Nat.ltb n lo then None
  else match k (skipn n s) caps with
       | Some a => Some a
       | None =>
           match n with
           | 0 => None
           | S n' => give_back n' lo s caps k
           end
       end.

Fixpoint exec (r : regex) (s : str) (caps : captures)
         (k : str -> captures -> option A) : option A :=
  match r with
  | Eps => k s caps
  | In f =>
      match s with
      | c :: t => if f c then k t caps else None
      | [] => None
      end
  | Cat r1 r2 => exec r1 s caps (fun s1 c1 => exec r2 s1 c1 k)
  | Repeat lo hi f => give_back (count_class f hi s) lo s caps k
  | Opt r1 =>
      match exec r1 s caps k with
      | Some a => Some a
      | None => k s caps
      end
  | Group i r1 =>
      exec r1 s caps
        (fun s1 c1 =>
           k s1 (record i (firstn (length s - length s1) s) c1))
  end.

End Exec.

(** A match object: [start()], [group(0)], and the numbered groups. *)
Record match_obj : Type := MkMatch {
  m_start : nat;
  m_group0 : str;
  m_caps : captures
}.

(** [m.group(i)] for a group that took part in the match. *)
Definition group (m : match_obj) (i : nat) : str :=
  match i with
  | 0 => m_group0 m
  | _ => match lookup i (m_caps m) with Some s => s | None => [] end
  end.

(** [pattern.match] at the head of [s]: the text matched and the
    groups. *)
Definition match_here (r : regex) (s : str) : option (str * captures) :=
  exec r s [] (fun rest caps =>
                 Some (firstn (length s - length rest) s, caps)).

(** [pattern.search(text)]: the match at the leftmost position that
    has one. *)
Fixpoint search_from (r : regex) (pos : nat) (s : str) : option match_obj :=
  match match_here r s with
  | Some (g0, caps) => Some (MkMatch pos g0 caps)
  | None =>
      match s with
      | [] => None
      | _ :: t => search_from r (S pos) t
      end
  end.

Definition search (r : regex) (text : str) : option match_obj :=
  search_from r 0 text.

(** A literal string, with or without [re.IGNORECASE]. *)
Fixpoint literal (ic : bool) (s : str) : regex :=
  match s with
  | [] => Eps
  | a :: s' =>
      Cat (In (if ic then CharClass.ignorecase a else CharClass.exactly a))
          (literal ic s')
  end.

(** What a pattern matches, independently of the matcher. *)
Inductive Matches : regex -> str -> Prop :=
| M_Eps : Matches Eps []
| M_In f c : f c = true -> Matches (In f) [c]
| M_Cat r1 r2 s1 s2 :
    Matches r1 s1 -> Matches r2 s2 -> Matches (Cat r1 r2) (s1 ++ s2)
| M_Repeat lo hi f s :
    Forall (fun c => f c = true) s ->
    lo <= length s ->
    (forall h, hi = Some h -> length s <= h) ->
    Matches (Repeat lo hi f) s
| M_Opt_skip r : Matches (Opt r) []
| M_Opt_take r s : Matches r s -> Matches (Opt r) s
| M_Group i r s : Matches r s -> Matches (Group i r) s.

(** [m] occurs in [text] at offset [j] as a match of [r]. *)
Definition occurs_at (r : regex) (text : str) (j : nat) (m : str) : Prop :=
  exists pre post,
    text = pre ++ m ++ post /\ length pre = j /\ Matches r m.

(** The first occurrence, and the longest one at that offset. *)
Definition first_longest (r : regex) (text : str) (j : nat) (m : str) : Prop :=
  occurs_at r text j m /\
  forall j' m', occurs_at r text j' m' ->
                j <= j' /\ (j' = j -> length m' <= length m).

Definition no_occurrence (r : regex) (text : str) : Prop :=
  forall j m, ~ occurs_at r text j m.

End Re.

Import Re.

Declare Scope re_scope.
Delimit Scope re_scope with re.
Infix "+++" := Cat (right associativity, at level 60) : re_scope.

(* ================================================================= *)
(** ** Site configuration *)

Record SiteConfig : Type := MkSite {
  id : str;
  url : str;
  description : str;
  css_selector : option str;
  normalize_whitespace : bool;
  value_type : str
}.

(* ================================================================= *)
(** ** Value extraction *)

(** [[0-9][0-9,]*(?:\.[0-9]{2})?], the number shared by the two price
    patterns and by [parse_number_from_value]. *)
Definition NUMBER : regex :=
  (In CharClass.ascii_digit
   +++ Repeat 0 None CharClass.digit_or_comma
   +++ Opt (In CharClass.dot +++ Repeat 2 (Some 2) CharClass.ascii_digit))%re.

Definition PRICE_PATTERN : regex :=
  (In CharClass.currency
   +++ Repeat 0 None CharClass.space
   +++ Group 1 NUMBER)%re.

Definition STOCK_PREV_CLOSE_PATTERN : regex :=
  (literal true (lit "Previous")
   +++ Repeat 1 None CharClass.space
   +++ literal true (lit "close")
   +++ Repeat 1 None CharClass.space
   +++ Group 1 NUMBER)%re.

Definition PYTHON_VERSION_PATTERN : regex :=
  (literal false (lit "Python")
   +++ Repeat 1 None CharClass.space
   +++ literal false (lit "3")
   +++ In CharClass.dot
   +++ Repeat 1 None CharClass.decimal
   +++ In CharClass.dot
   +++ Repeat 1 None CharClass.decimal)%re.

Definition SPACE : N := 32.
Definition COMMA : N := 44.
Definition DOLLAR : N := 36.

(** [text[i]] where the index is in range (it is a match start of a
    pattern that consumes at least one character). *)
Definition char_at (text : str) (i : nat) : N := nth i text 0%N.

Definition extract_stock_price_value (text : str) : str :=
  match search STOCK_PREV_CLOSE_PATTERN text with
  | Some m =>
      let number := remove_char SPACE (group m 1) in
      DOLLAR :: number
  | None =>
      match search PRICE_PATTERN text with
      | Some m2 =>
          let currency_symbol := char_at text (m_start m2) in
          let number_part := remove_char SPACE (group m2 1) in
          currency_symbol :: number_part
      | None => slice_to 160 text
      end
  end.

Definition extract_value (site : SiteConfig) (text : str) : str :=
  if PyStr.eqb (value_type site) (lit "stock_price") then
    extract_stock_price_value text
  else if PyStr.eqb (value_type site) (lit "price") then
    match search PRICE_PATTERN text with
    | Some m =>
        let currency_symbol := char_at text (m_start m) in
        let number_part := remove_char SPACE (group m 1) in
        currency_symbol :: number_part
    | None => slice_to 160 text
    end
  else if PyStr.eqb (value_type site) (lit "version") then
    match search PYTHON_VERSION_PATTERN text with
    | Some m => group m 0
    | None => slice_to 160 text
    end
  else
    slice_to 160 text.

Definition site_of_kind (k : string) : SiteConfig :=
  MkSite (lit "s") (lit "http://example.test/") (lit "s") None true (lit k).

Example ex_price :
  extract_value (site_of_kind "price") (lit "Price: $19.99 today") = lit "$19.99".
Proof. vm_compute. reflexivity. Qed.

Example ex_price_commas :
  extract_value (site_of_kind "price") (lit "Cost $ 1,234.567") = lit "$1,234.56".
Proof. vm_compute. reflexivity. Qed.

Example ex_stock :
  extract_value (site_of_kind "stock_price")
    (lit "MSFT pReVIOUS   Close 417.20 Open 1") = lit "$417.20".
Proof. vm_compute. reflexivity. Qed.

Example ex_version :
  extract_value (site_of_kind "version") (lit "Download Python 3.13.2 now")
  = lit "Python 3.13.2".
Proof. vm_compute. reflexivity. Qed.

(* ================================================================= *)
(** ** UTF-8 and SHA-256: [compute_hash] *)

Module Utf8.

Definition is_surrogate (c : N) : bool := in_range 55296 57343 c.

(** The bytes of one code point; [None] for a surrogate, which UTF-8
    cannot encode (and for values beyond U+10FFFF, which Python strings
    never hold). *)
Definition encode_char (c : N) : option (list N) :=
  if N.ltb c 128 then Some [c]
  else if N.ltb c 2048 then
    Some [N.lor 192 (N.shiftr c 6); N.lor 128 (N.land c 63)]
  else if N.ltb c 65536 then
    if is_surrogate c then None
    else Some [N.lor 224 (N.shiftr c 12);
               N.lor 128 (N.land (N.shiftr c 6) 63);
               N.lor 128 (N.land c 63)]
  else if N.ltb c 1114112 then
    Some [N.lor 240 (N.shiftr c 18);
          N.lor 128 (N.land (N.shiftr c 12) 63);
          N.lor 128 (N.land (N.shiftr c 6) 63);
          N.lor 128 (N.land c 63)]
  else None.

(** [s.encode("utf-8", errors="ignore")] *)
Fixpoint encode_ignore (s : str) : list N :=
  match s with
  | [] => []
  | c :: t =>
      match encode_char c with
      | Some bs => bs ++ encode_ignore t
      | None => encode_ignore t
      end
  end.

(** [s.encode("utf-8")]: fails on a surrogate. *)
Fixpoint encode (s : str) : option (list N) :=
  match s with
  | [] => Some []
  | c :: t =>
      match encode_char c, encode t with
      | Some bs, Some r => Some (bs ++ r)
      | _, _ => None
      end
  end.

Definition is_cont (b : N) : bool := in_range 128 191 b.

Definition cont_bits (b : N) : N := N.land b 63.

(** [bytes.decode("utf-8")]: fails on an ill-formed sequence (stray or
    missing continuation byte, overlong form, surrogate, value beyond
    U+10FFFF). *)
Fixpoint decode_fuel (fuel : nat) (bs : list N) : option str :=
  match fuel with
  | 0 => match bs with [] => Some [] | _ => None end
  | S fuel' =>
    match bs with
    | [] => Some []
    | b0 :: r0 =>
      if N.ltb b0 128 then option_map (cons b0) (decode_fuel fuel' r0)
      else if in_range 194 223 b0 then
        match r0 with
        | b1 :: r1 =>
            if is_cont b1 then
              option_map
                (cons (N.lor (N.shiftl (N.land b0 31) 6) (cont_bits b1)))
                (decode_fuel fuel' r1)
            else None
        | _ => None
        end
      else if in_range 224 239 b0 then
        match r0 with
        | b1 :: b2 :: r2 =>
            let c := N.lor (N.shiftl (N.land b0 15) 12)
                       (N.lor (N.shiftl (cont_bits b1) 6) (cont_bits b2)) in
            if is_cont b1 && is_cont b2 && N.leb 2048 c
               && negb (is_surrogate c)
            then option_map (cons c) (decode_fuel fuel' r2)
            else None
        | _ => None
        end
      else if in_range 240 244 b0 then
        match r0 with
        | b1 :: b2 :: b3 :: r3 =>
            let c := N.lor (N.shiftl (N.land b0 7) 18)
                       (N.lor (N.shiftl (cont_bits b1) 12)
                          (N.lor (N.shiftl (cont_bits b2) 6) (cont_bits b3))) in
            if is_cont b1 && is_cont b2 && is_cont b3
               && N.leb 65536 c && N.ltb c 1114112
            then option_map (cons c) (decode_fuel fuel' r3)
            else None
        | _ => None
        end
      else None
    end
  end.

Definition decode (bs : list N) : option str := decode_fuel (length bs) bs.

End Utf8.

Module Sha256.

Definition mask32 : N := 4294967295.

Definition add32 (a b : N) : N := N.land (a + b) mask32.

Definition rotr (n : N) (x : N) : N :=
  N.land (N.lor (N.shiftr x n) (N.shiftl x (32 - n))) mask32.

Definition shr (n : N) (x : N) : N := N.shiftr x n.

Definition Ch (x y z : N) : N :=
  N.lxor (N.land x y) (N.land (N.lxor x mask32) z).

Definition Maj (x y z : N) : N :=
  N.lxor (N.lxor (N.land x y) (N.land x z)) (N.land y z).

Definition Sigma0 (x : N) : N :=
  N.lxor (N.lxor (rotr 2 x) (rotr 13 x)) (rotr 22 x).

Definition Sigma1 (x : N) : N :=
  N.lxor (N.lxor (rotr 6 x) (rotr 11 x)) (rotr 25 x).

Definition sigma0 (x : N) : N :=
  N.lxor (N.lxor (rotr 7 x) (rotr 18 x)) (shr 3 x).

Definition sigma1 (x : N) : N :=
  N.lxor (N.lxor (rotr 17 x) (rotr 19 x)) (shr 10 x).

Definition K : list N :=
  [
    1116352408; 1899447441; 3049323471; 3921009573; 961987163; 1508970993;
    2453635748; 2870763221; 3624381080; 310598401; 607225278; 1426881987;
    1925078388; 2162078206; 2614888103; 3248222580; 3835390401; 4022224774;
    264347078; 604807628; 770255983; 1249150122; 1555081692; 1996064986;
    2554220882; 2821834349; 2952996808; 3210313671; 3336571891; 3584528711;
    113926993; 338241895; 666307205; 773529912; 1294757372; 1396182291;
    1695183700; 1986661051; 2177026350; 2456956037; 2730485921; 2820302411;
    3259730800; 3345764771; 3516065817; 3600352804; 4094571909; 275423344;
    430227734; 506948616; 659060556; 883997877; 958139571; 1322822218;
    1537002063; 1747873779; 1955562222; 2024104815; 2227730452; 2361852424;
    2428436474; 2756734187; 3204031479; 3329325298 ]%N.

Definition H0 : list N :=
  [
    1779033703; 3144134277; 1013904242; 2773480762; 1359893119; 2600822924;
    528734635; 1541459225 ]%N.

(** Big-endian bytes of [x], [n] of them. *)
Fixpoint be_bytes (n : nat) (x : N) : list N :=
  match n with
  | 0 => []
  | S n' => be_bytes n' (N.shiftr x 8) ++ [N.land x 255]
  end.

Definition pad (msg : list N) : list N :=
  let l := length msg in
  let zeros := (64 - ((l + 9) mod 64)) mod 64 in
  msg ++ [128%N] ++ repeat 0%N zeros ++ be_bytes 8 (N.of_nat l * 8).

Fixpoint words (n : nat) (bs : list N) : list N :=
  match n with
  | 0 => []
  | S n' =>
      match bs with
      | a :: b :: c :: d :: r =>
          (N.shiftl a 24 + N.shiftl b 16 + N.shiftl c 8 + d)%N :: words n' r
      | _ => []
      end
  end.

(** The message schedule, most recent word first. *)
Fixpoint schedule (n : nat) (w : list N) : list N :=
  match n with
  | 0 => w
  | S n' =>
      let x := add32 (add32 (sigma1 (nth 1 w 0%N)) (nth 6 w 0%N))
                     (add32 (sigma0 (nth 14 w 0%N)) (nth 15 w 0%N)) in
      schedule n' (x :: w)
  end.

Definition round (st : list N) (kw : N * N) : list N :=
  match st with
  | [a; b; c; d; e; f; g; h] =>
      let t1 := add32 (add32 (add32 h (Sigma1 e)) (Ch e f g))
                      (add32 (fst kw) (snd kw)) in
      let t2 := add32 (Sigma0 a) (Maj a b c) in
      [add32 t1 t2; a; b; c; add32 d t1; e; f; g]
  | _ => st
  end.

Definition compress (st : list N) (block : list N) : list N :=
  let w := rev (schedule 48 (rev (words 16 block))) in
  let st' := fold_left round (combine K w) st in
  map (fun p => add32 (fst p) (snd p)) (combine st st').

Fixpoint blocks (n : nat) (bs : list N) (st : list N) : list N :=
  match n with
  | 0 => st
  | S n' => blocks n' (skipn 64 bs) (compress st (firstn 64 bs))
  end.

Definition digest (msg : list N) : list N :=
  let p := pad msg in
  flat_map (be_bytes 4) (blocks (length p / 64) p H0).

Definition hex_digit (x : N) : N :=
  if N.ltb x 10 then (48 + x)%N else (87 + x)%N.

Definition hexdigest (msg : list N) : str :=
  flat_map (fun b => [hex_digit (N.shiftr b 4); hex_digit (N.land b 15)])
           (digest msg).

End Sha256.

Definition compute_hash (text : str) : str :=
  Sha256.hexdigest (Utf8.encode_ignore text).

Example sha256_abc :
  compute_hash (lit "abc")
  = lit "ba7816bf8f01cfea414140de5dae2223b00361a396177a9cb410ff61f20015ad".
Proof. vm_compute. reflexivity. Qed.

Example sha256_empty :
  compute_hash []
  = lit "e3b0c44298fc1c149afbf4c8996fb92427ae41e4649b934ca495991b7852b855".
Proof. vm_compute. reflexivity. Qed.

Example sha256_two_blocks :
  compute_hash (repeat 97%N 100)
  = lit "2816597888e4a0d3a36b82b83316ab32680eb8f00f8cd3b904d681246d285a0e".
Proof. vm_compute. reflexivity. Qed.

Example sha256_ignores_surrogates :
  compute_hash [120; 55296; 233; 128512]%N
  = lit "733cbdbc36b5b75975f641b7bbdba692835f573cee6ed1dff2f4359d07434c83".
Proof. vm_compute. reflexivity. Qed.

(* ================================================================= *)
(** ** Python dictionaries *)

Module PyDict.

Section Dict.
Variable V : Type.

(** Items in insertion order; the keys of a dictionary are distinct. *)
Definition dict := list (str * V).

Definition keys (d : dict) : list str := map fst d.

Definition is_dict (d : dict) : Prop := NoDup (keys d).

(** [d.get(k)] *)
Fixpoint get (k : str) (d : dict) : option V :=
  match d with
  | [] => None
  | (k', v) :: d' => if PyStr.eqb k k' then Some v else get k d'
  end.

(** [d[k] = v]: in place for a key already there, else at the end. *)
Fixpoint set (k : str) (v : V) (d : dict) : dict :=
  match d with
  | [] => [(k, v)]
  | (k', v') :: d' =>
      if PyStr.eqb k k' then (k', v) :: d' else (k', v') :: set k v d'
  end.

(** [sorted(d.items())]: a stable sort on the keys. *)
Fixpoint insert_item (kv : str * V) (l : list (str * V)) : list (str * V) :=
  match l with
  | [] => [kv]
  | kv' :: l' =>
      if PyStr.ltb (fst kv') (fst kv) then kv' :: insert_item kv l'
      else kv :: l
  end.

Definition sorted_items (d : dict) : list (str * V) :=
  fold_right insert_item [] d.

End Dict.

End PyDict.

(* ================================================================= *)
(** ** The [json] module on the ledger's type

    The ledger is a [Dict[str, Dict[str, str]]].  [dumps] is
    [json.dumps(data, indent=2, sort_keys=True)] on that type; [loads]
    is [json.loads] on the documents of that type (an object of objects
    of strings, with any JSON white space) and rejects every other
    text, ill-formed or of another shape. *)

Module Json.
Import PyDict.

Definition QUOTE : N := 34.
Definition BACKSLASH : N := 92.

Definition hex4 (n : N) : str :=
  [Sha256.hex_digit (N.land (N.shiftr n 12) 15);
   Sha256.hex_digit (N.land (N.shiftr n 8) 15);
   Sha256.hex_digit (N.land (N.shiftr n 4) 15);
   Sha256.hex_digit (N.land n 15)].

Definition u_escape (n : N) : str := BACKSLASH :: 117%N :: hex4 n.

(** One character under [ensure_ascii]. *)
Definition escape_char (c : N) : str :=
  if N.eqb c QUOTE then [BACKSLASH; QUOTE]
  else if N.eqb c BACKSLASH then [BACKSLASH; BACKSLASH]
  else if N.eqb c 10 then [BACKSLASH; 110%N]
  else if N.eqb c 13 then [BACKSLASH; 114%N]
  else if N.eqb c 9 then [BACKSLASH; 116%N]
  else if N.eqb c 8 then [BACKSLASH; 98%N]
  else if N.eqb c 12 then [BACKSLASH; 102%N]
  else if in_range 32 126 c then [c]
  else if N.ltb c 65536 then u_escape c
  else
    let v := (c - 65536)%N in
    u_escape (N.lor 55296 (N.land (N.shiftr v 10) 1023))
    ++ u_escape (N.lor 56320 (N.land v 1023)).

(** [encode_basestring_ascii] *)
Definition encode_string (s : str) : str :=
  QUOTE :: flat_map escape_char s ++ [QUOTE].

Definition newline_indent (level : nat) : str :=
  10%N :: repeat 32%N (2 * level).

Fixpoint join (sep : str) (l : list str) : str :=
  match l with
  | [] => []
  | [x] => x
  | x :: l' => x ++ sep ++ join sep l'
  end.

(** A dictionary whose braces stand at indentation [level]. *)
Definition dumps_dict (V : Type) (level : nat) (dumps_value : V -> str)
           (d : dict V) : str :=
  match d with
  | [] => lit "{}"
  | _ =>
      lit "{" ++ newline_indent (S level)
      ++ join (lit "," ++ newline_indent (S level))
              (map (fun kv => encode_string (fst kv) ++ lit ": "
                              ++ dumps_value (snd kv))
                   (sorted_items d))
      ++ newline_indent level ++ lit "}"
  end.

Definition dumps (data : dict (dict str)) : str :=
  dumps_dict 0 (dumps_dict 1 encode_string) data.

(** *** Reading *)

Definition is_ws (c : N) : bool :=
  N.eqb c 32 || N.eqb c 9 || N.eqb c 10 || N.eqb c 13.

Fixpoint skip_ws (s : str) : str :=
  match s with
  | c :: t => if is_ws c then skip_ws t else s
  | [] => []
  end.

Definition hex_value (c : N) : option N :=
  if in_range 48 57 c then Some (c - 48)%N
  else if in_range 97 102 c then Some (c - 87)%N
  else if in_range 65 70 c then Some (c - 55)%N
  else None.

(** Four hexadecimal digits at the head of [s]. *)
Definition read_hex4 (s : str) : option (N * str) :=
  match s with
  | a :: b :: c :: d :: r =>
      match hex_value a, hex_value b, hex_value c, hex_value d with
      | Some x, Some y, Some z, Some w =>
          Some ((x * 4096 + y * 256 + z * 16 + w)%N, r)
      | _, _, _, _ => None
      end
  | _ => None
  end.

Definition is_high (c : N) : bool := in_range 55296 56319 c.
Definition is_low (c : N) : bool := in_range 56320 57343 c.

Definition join_surrogates (hi lo : N) : N :=
  (65536 + (hi - 55296) * 1024 + (lo - 56320))%N.

Definition simple_escape (e : N) : option N :=
  if N.eqb e QUOTE then Some QUOTE
  else if N.eqb e BACKSLASH then Some BACKSLASH
  else if N.eqb e 47 then Some 47%N
  else if N.eqb e 98 then Some 8%N
  else if N.eqb e 102 then Some 12%N
  else if N.eqb e 110 then Some 10%N
  else if N.eqb e 114 then Some 13%N
  else if N.eqb e 116 then Some 9%N
  else None.

(** [scanstring] in strict mode, from just after the opening quote:
    the string and the text after the closing quote. *)
Fixpoint scan_fuel (fuel : nat) (s : str) (acc : str) : option (str * str) :=
  match fuel with
  | 0 => None
  | S fuel' =>
    match s with
    | [] => None
    | c :: t =>
      if N.eqb c QUOTE then Some (rev acc, t)
      else if N.eqb c BACKSLASH then
        match t with
        | [] => None
        | e :: t' =>
          if N.eqb e 117 then
            match read_hex4 t' with
            | None => None
            | Some (n, r) =>
              if is_high n then
                match r with
                | b :: u :: r' =>
                  if N.eqb b BACKSLASH && N.eqb u 117 then
                    match read_hex4 r' with
                    | None => None
                    | Some (n2, r2) =>
                        if is_low n2
                        then scan_fuel fuel' r2 (join_surrogates n n2 :: acc)
                        else scan_fuel fuel' r (n :: acc)
                    end
                  else scan_fuel fuel' r (n :: acc)
                | _ => scan_fuel fuel' r (n :: acc)
                end
              else scan_fuel fuel' r (n :: acc)
            end
          else
            match simple_escape e with
            | Some x => scan_fuel fuel' t' (x :: acc)
            | None => None
            end
        end
      else if N.leb c 31 then None
      else scan_fuel fuel' t (c :: acc)
    end
  end.

Definition scanstring (s : str) : option (str * str) :=
  scan_fuel (length s) s [].

(** A JSON string as a value. *)
Definition parse_string (s : str) : option (str * str) :=
  match s with
  | c :: t => if N.eqb c QUOTE then scanstring t else None
  | [] => None
  end.

Section Object.
Variable V : Type.
Variable parse_value : str -> option (V * str).

(** The members of an object, from the first character of a key. *)
Fixpoint members (fuel : nat) (s : str) (acc : dict V)
  : option (dict V * str) :=
  match fuel with
  | 0 => None
  | S fuel' =>
    match parse_string s with
    | None => None
    | Some (key, r1) =>
      match skip_ws r1 with
      | c :: r2 =>
        if N.eqb c 58 then
          match parse_value (skip_ws r2) with
          | None => None
          | Some (v, r3) =>
            let acc' := set key v acc in
            match skip_ws r3 with
            | d :: r4 =>
                if N.eqb d 125 then Some (acc', r4)
                else if N.eqb d 44 then members fuel' (skip_ws r4) acc'
                else None
            | [] => None
            end
          end
        else None
      | [] => None
      end
    end
  end.

Definition parse_object (s : str) : option (dict V * str) :=
  match s with
  | c :: t =>
      if N.eqb c 123 then
        match skip_ws t with
        | d :: r =>
            if N.eqb d 125 then Some ([], r)
            else members (length t) (d :: r) []
        | [] => None
        end
      else None
  | [] => None
  end.

End Object.

Definition loads (s : str) : option (dict (dict str)) :=
  match parse_object (parse_object parse_string) (skip_ws s) with
  | Some (data, rest) =>
      match skip_ws rest with
      | [] => Some data
      | _ => None
      end
  | None => None
  end.

End Json.

(* ================================================================= *)
(** ** State helpers *)

(** The ledger in memory. *)
Definition state := PyDict.dict (PyDict.dict str).

(** The state file: absent, or its bytes. *)
Definition file := option (list N).

(** Text mode on reading: every line end becomes a line feed. *)
Fixpoint universal_newlines (s : str) : str :=
  match s with
  | [] => []
  | c :: t =>
      if N.eqb c 13 then
        match t with
        | d :: t' =>
            if N.eqb d 10 then 10%N :: universal_newlines t'
            else 10%N :: universal_newlines t
        | [] => [10%N]
        end
      else c :: universal_newlines t
  end.

(** [load_state] on a state file that holds a ledger, a
    [Dict[str, Dict[str, str]]], or nothing [json.load] accepts: the
    ledger, and whether the warning was printed.  Bytes that are not
    UTF-8 and text that is not JSON make the read raise; the code warns
    and goes on with the empty ledger, as here.  A JSON document of
    another shape (a list, a number, an object with a value that is not
    an object of strings) is returned by [json.load] as it is, with no
    warning: such a file is outside the type of the ledger and outside
    this model, which gives the second component for it too.  What is
    proved of a pass is proved for files read with the second component
    unset. *)
Definition load_state (f : file) : state * bool :=
  match f with
  | None => ([], false)
  | Some bytes =>
      match Utf8.decode bytes with
      | Some text =>
          match Json.loads (universal_newlines text) with
          | Some data => (data, false)
          | None => ([], true)
          end
      | None => ([], true)
      end
  end.

(** [save_state]: the file afterwards (line ends are written as line
    feeds), and whether the error was printed. *)
Definition save_state (data : state) : file * bool :=
  match Utf8.encode (Json.dumps data) with
  | Some bytes => (Some bytes, false)
  | None => (Some [], true)
  end.

Definition demo_state : state :=
  [ ([55357; 56832]%N, []);
    ([57344]%N, [(lit "a", [127; 233; 10; 9; 47; 92; 34]%N)]) ].

Example dumps_demo :
  Json.dumps demo_state
  = [123; 10; 32; 32; 34; 92; 117; 100; 56; 51; 100; 92; 117; 100; 101; 48;
     48; 34; 58; 32; 123; 125; 44; 10; 32; 32; 34; 92; 117; 101; 48; 48; 48;
     34; 58; 32; 123; 10; 32; 32; 32; 32; 34; 97; 34; 58; 32; 34; 92; 117;
     48; 48; 55; 102; 92; 117; 48; 48; 101; 57; 92; 110; 92; 116; 47; 92;
     92; 92; 34; 34; 10; 32; 32; 125; 10; 125]%N.
Proof. vm_compute. reflexivity. Qed.

Example loads_demo :
  Json.loads (Json.dumps demo_state)
  = Some [ ([128512]%N, []);
           ([57344]%N, [(lit "a", [127; 233; 10; 9; 47; 92; 34]%N)]) ].
Proof. vm_compute. reflexivity. Qed.

Example loads_duplicate_keys :
  Json.loads [123; 34; 97; 34; 58; 123; 34; 98; 34; 58; 34; 49; 34; 125; 44;
              34; 97; 34; 58; 123; 34; 99; 34; 58; 34; 50; 34; 125; 44; 34;
              48; 34; 58; 123; 125; 125]%N
  = Some [ (lit "a", [(lit "c", lit "2")]); (lit "0", []) ].
Proof. vm_compute. reflexivity. Qed.

(* ================================================================= *)
(** ** Python floats on decimal tokens

    A Python [float] is an IEEE 754 binary64 number, here a
    [spec_float] with 53 bits of precision.  [of_string] is [float(s)]
    on the strings [parse_number_from_value] can pass to it: decimal
    digits with an optional fraction.  The conversion, the subtraction
    and the formatting round to nearest, ties to even, as CPython
    does. *)

Module PyFloat.

Definition prec : Z := 53.
Definition emax : Z := 1024.

Definition float := spec_float.

Definition zero : float := S754_zero false.

Fixpoint pow10 (k : nat) : positive :=
  match k with
  | 0 => 1%positive
  | S k' => (10 * pow10 k')%positive
  end.

(** The double nearest to [n / 10^k]. *)
Definition of_decimal (n : N) (k : nat) : float :=
  match n with
  | N0 => zero
  | Npos p =>
      SFdiv prec emax (S754_finite false p 0) (S754_finite false (pow10 k) 0)
  end.

Fixpoint digits_value (acc : N) (s : str) : option N :=
  match s with
  | [] => Some acc
  | c :: t =>
      if CharClass.ascii_digit c
      then digits_value (acc * 10 + (c - 48))%N t
      else None
  end.

(** The text before the first [.], and the text after it if any. *)
Fixpoint split_dot (s : str) : str * option str :=
  match s with
  | [] => ([], None)
  | c :: t =>
      if N.eqb c 46 then ([], Some t)
      else let (a, b) := split_dot t in (c :: a, b)
  end.

(** [float(s)]; [None] stands for [ValueError]. *)
Definition of_string (s : str) : option float :=
  match split_dot s with
  | ([], _) => None
  | (ip, None) =>
      match digits_value 0 ip with
      | Some n => Some (of_decimal n 0)
      | None => None
      end
  | (ip, Some fp) =>
      match digits_value 0 (ip ++ fp) with
      | Some n => Some (of_decimal n (length fp))
      | None => None
      end
  end.

Definition sub (a b : float) : float := SFsub prec emax a b.

(** [a < b] *)
Definition ltb (a b : float) : bool := SFltb a b.

Definition decimal (n : N) : str :=
  lit (NilZero.string_of_uint (N.to_uint n)).

(** The integer nearest to [m * 2^e * 100], ties to even. *)
Definition hundredths (m : positive) (e : Z) : N :=
  match e with
  | Zneg p =>
      let num := (Npos m * 100)%N in
      let den := N.shiftl 1 (Npos p) in
      let q := (num / den)%N in
      let r := (num mod den)%N in
      match N.compare (2 * r) den with
      | Lt => q
      | Gt => (q + 1)%N
      | Eq => if N.even q then q else (q + 1)%N
      end
  | _ => (N.shiftl (Npos m) (Z.to_N e) * 100)%N
  end.

(** [f"{d:+.2f}"] *)
Definition format_plus_2f (d : float) : str :=
  match d with
  | S754_nan => lit "+nan"
  | S754_infinity s => lit (if s then "-inf" else "+inf")
  | S754_zero s => lit (if s then "-0.00" else "+0.00")
  | S754_finite s m e =>
      let q := hundredths m e in
      let cents := (q mod 100)%N in
      lit (if s then "-" else "+")
      ++ decimal (q / 100) ++ lit "."
      ++ (if N.ltb cents 10 then lit "0" else []) ++ decimal cents
  end.

End PyFloat.

(* ================================================================= *)
(** ** The difference of two values *)

Definition parse_number_from_value (value : str) : option PyFloat.float :=
  match search (Group 1 NUMBER) value with
  | None => None
  | Some m =>
      let number_str := remove_char COMMA (group m 1) in
      match PyFloat.of_string number_str with
      | Some x => Some x
      | None => None
      end
  end.

(** The three arrows as the source file spells them. *)
Definition ARROW_UP : str := [226; 8211; 178]%N.
Definition ARROW_DOWN : str := [226; 8211; 188]%N.
Definition ARROW_FLAT : str := [226; 8211; 182]%N.

Definition describe_difference (old_value new_value : str) : str :=
  let old_num := parse_number_from_value old_value in
  let new_num := parse_number_from_value new_value in
  match old_num, new_num with
  | Some old_num, Some new_num =>
      let diff := PyFloat.sub new_num old_num in
      let arrow :=
        if PyFloat.ltb PyFloat.zero diff then ARROW_UP
        else if PyFloat.ltb diff PyFloat.zero then ARROW_DOWN
        else ARROW_FLAT in
      arrow ++ lit " " ++ PyFloat.format_plus_2f diff
  | _, _ => []
  end.

Example diff_example_up :
  describe_difference (lit "$10.00") (lit "$12.50")
  = ARROW_UP ++ lit " +2.50".
Proof. vm_compute. reflexivity. Qed.

Example diff_example_none :
  describe_difference (lit "Operational") (lit "Degraded") = [].
Proof. vm_compute. reflexivity. Qed.

(* ================================================================= *)
(** ** The site list *)

(** An entry of the raw site list: a dictionary read at six keys.  Each
    field tells whether the key is there and, if so, its value, at the
    type the field of [SiteConfig] declares ([css_selector] may hold
    [None]). *)
Record RawSite : Type := MkRaw {
  raw_id : option str;
  raw_url : option str;
  raw_description : option str;
  raw_css_selector : option (option str);
  raw_normalize_whitespace : option bool;
  raw_value_type : option str
}.

Definition site_entry (i u d : string) (sel : option string) (kind : string)
  : RawSite :=
  MkRaw (Some (lit i)) (Some (lit u)) (Some (lit d))
        (Some (option_map lit sel)) (Some true) (Some (lit kind)).

Definition SITES : list RawSite :=
  [ site_entry "local_test" "LOCAL_TEST"
      "Built in test that always changes so you can see Discord alerts"
      None "text";
    site_entry "stock_msft" "https://finance.yahoo.com/quote/MSFT"
      "Microsoft stock quote page on Yahoo Finance (previous close price)"
      None "stock_price";
    site_entry "book_demo"
      "https://books.toscrape.com/catalogue/a-light-in-the-attic_1000/index.html"
      "Demo book price from Books to Scrape"
      (Some ".product_main .price_color"%string) "price";
    site_entry "blog_python" "https://blog.python.org/"
      "Latest post title from Python blog front page"
      (Some ".post-title a, .post-title, .entry-title a, .entry-title"%string)
      "text";
    site_entry "status_github" "https://www.githubstatus.com/"
      "Overall status from GitHub status page"
      (Some ".page-status .status, .page-status .status-text, .status.font-large"%string)
      "text";
    site_entry "nasa_apod" "https://apod.nasa.gov/apod/astropix.html"
      "Title from NASA Astronomy Picture of the Day"
      None "title";
    site_entry "python_release" "https://www.python.org/downloads/"
      "First release version from Python downloads page"
      None "version" ].

(** [entry[key]] *)
Inductive KeyError : Type := MissingKey (key : str).

Definition getitem (A : Type) (field : option A) (key : string)
  : KeyError + A :=
  match field with
  | Some v => inr v
  | None => inl (MissingKey (lit key))
  end.

(** [entry.get(key, default)] *)
Definition get_default (A : Type) (field : option A) (default : A) : A :=
  match field with
  | Some v => v
  | None => default
  end.

(** The call [SiteConfig(id=entry["id"], ...)], its arguments evaluated
    from left to right. *)
Definition make_site (entry : RawSite) : KeyError + SiteConfig :=
  match getitem (raw_id entry) "id" with
  | inl e => inl e
  | inr i =>
    match getitem (raw_url entry) "url" with
    | inl e => inl e
    | inr u =>
      match getitem (raw_id entry) "id" with
      | inl e => inl e
      | inr i' =>
          inr (MkSite i u
                 (get_default (raw_description entry) i')
                 (get_default (raw_css_selector entry) None)
                 (get_default (raw_normalize_whitespace entry) true)
                 (get_default (raw_value_type entry) (lit "text")))
      end
    end
  end.

Definition decimal_nat (n : nat) : str :=
  lit (NilZero.string_of_uint (Nat.to_uint n)).

(** The line printed for a skipped entry. *)
Definition skip_warning (idx : nat) (e : KeyError) : str :=
  match e with
  | MissingKey key =>
      lit "[WARN] Skipping site entry " ++ decimal_nat idx
      ++ lit ": missing key '" ++ key ++ lit "'"
  end.

(** The loop of [to_site_configs]: the sites so far and the lines
    printed so far. *)
Fixpoint to_site_configs_from (idx : nat) (raw_sites : list RawSite)
         (sites : list SiteConfig) (printed : list str)
  : list SiteConfig * list str :=
  match raw_sites with
  | [] => (sites, printed)
  | entry :: rest =>
      match make_site entry with
      | inr site =>
          to_site_configs_from (S idx) rest (sites ++ [site]) printed
      | inl exc =>
          to_site_configs_from (S idx) rest sites
                               (printed ++ [skip_warning idx exc])
      end
  end.

Definition to_site_configs (raw_sites : list RawSite)
  : list SiteConfig * list str :=
  to_site_configs_from 0 raw_sites [] [].

(* ================================================================= *)
(** ** One pass over the sites *)

(** What a pass prints and sends: a line on standard output, the
    warning of [load_state], the error of [save_state], the line for a
    site that could not be fetched, the two alerts (each with what
    [alert_baseline] or [alert_change] prints and sends) and the line
    for a site without change. *)
Inductive event : Type :=
| Printed (line : str)
| ReadWarning
| WriteError
| FetchFailed (site : SiteConfig)
| BaselineAlert (site : SiteConfig) (value : str)
| ChangeAlert (site : SiteConfig) (old_value new_value diff_str : str)
| NoChange (site : SiteConfig) (value : str).

(** The exceptions a pass does not catch: the [KeyError] of an entry
    without a hash, the [TypeError] of an entry without a value, the
    [UnicodeEncodeError] of a line that standard output cannot encode,
    and whatever comes out of [get_nasa_image_url] after its request. *)
Inductive exn : Type :=
| KeyErrorExn (key : str)
| TypeErrorExn
| UnicodeEncodeErrorExn
| LibraryExn.

Definition HASH : str := lit "hash".
Definition VALUE : str := lit "value".

(** Truth value of [previous]: neither [None] nor an empty dict. *)
Definition truthy (previous : option (PyDict.dict str)) : bool :=
  match previous with
  | Some (_ :: _) => true
  | _ => false
  end.

(** The body of the loop of [check_sites] for a site whose text was
    fetched, from the extracted value on: the ledger afterwards,
    whether [any_changes] is set, and the alert or the line that
    follows. *)
Definition observe (st : state) (site : SiteConfig) (value : str)
  : exn + (state * bool * event) :=
  let new_hash := compute_hash value in
  let previous := PyDict.get (id site) st in
  let previous_hash : exn + option str :=
    match previous with
    | Some (p :: ps) =>
        match PyDict.get HASH (p :: ps) with
        | Some h => inr (Some h)
        | None => inl (KeyErrorExn HASH)
        end
    | _ => inr None
    end in
  let previous_value : option str :=
    match previous with
    | Some (p :: ps) => PyDict.get VALUE (p :: ps)
    | _ => None
    end in
  match previous_hash with
  | inl e => inl e
  | inr None =>
      inr (PyDict.set (id site) [(HASH, new_hash); (VALUE, value)] st,
           false, BaselineAlert site value)
  | inr (Some previous_hash) =>
      if negb (PyStr.eqb new_hash previous_hash) then
        match previous_value, previous with
        | Some old_value, Some entry =>
            inr (PyDict.set (id site)
                   (PyDict.set VALUE value (PyDict.set HASH new_hash entry))
                   st,
                 true,
                 ChangeAlert site old_value value
                             (describe_difference old_value value))
        | _, _ => inl TypeErrorExn
        end
      else inr (st, false, NoChange site value)
  end.

(** [print(line)]: standard output encodes as UTF-8 with strict errors,
    the default of Python 3 under a UTF-8 locale, so that a line prints
    unless it holds a lone surrogate. *)
Definition stdout_ok (line : str) : bool :=
  forallb (fun c => match Utf8.encode_char c with
                    | Some _ => true
                    | None => false
                    end) line.

Definition LOCAL_TEST : str := lit "LOCAL_TEST".
Definition NASA_APOD : str := lit "nasa_apod".

(** The lines of [fetch_content], of [check_sites] and of the two
    alerts. *)
Definition local_test_line (text : str) : str :=
  lit "[INFO] Using LOCAL_TEST content: " ++ text.

Definition fetching_line (site : SiteConfig) : str :=
  lit "[INFO] Fetching " ++ id site ++ lit " from " ++ url site.

Definition failed_line (site : SiteConfig) (exc : str) : str :=
  lit "[ERROR] Failed to fetch " ++ id site ++ lit ": " ++ exc.

Definition baseline_line (site : SiteConfig) (value : str) : str :=
  lit "[INFO] Baseline set for " ++ id site ++ lit ": " ++ value.

Definition change_line (site : SiteConfig) (old_value new_value : str)
  : str :=
  lit "[ALERT] " ++ id site ++ lit " changed from " ++ old_value
  ++ lit " to " ++ new_value.

Definition no_change_line (site : SiteConfig) (value : str) : str :=
  lit "[OK] No change for " ++ id site ++ lit " (value still " ++ value
  ++ lit ")".

(** What the outside world does during a pass, besides the texts it
    serves: the text of the exception [fetch_content] raises at the
    [i]-th site, and whether [get_nasa_image_url] raises there (its
    parsing of the page and [urljoin] stand outside its [try]). *)
Record environment : Type := MkEnv {
  failure_text : nat -> SiteConfig -> str;
  image_raises : nat -> SiteConfig -> bool
}.

(** The line [fetch_content] printed at a site, by what it then did:
    [Some text] when it returned [text], [None] when it raised.  The
    line comes first, so it was printed whenever it can be; the test
    page raises nowhere else. *)
Definition fetch_prints (site : SiteConfig) (fetched : option str)
  : list event :=
  if PyStr.eqb (url site) LOCAL_TEST then
    match fetched with
    | Some text => [Printed (local_test_line text)]
    | None => []
    end
  else
    match fetched with
    | Some _ => [Printed (fetching_line site)]
    | None =>
        if stdout_ok (fetching_line site)
        then [Printed (fetching_line site)] else []
    end.

(** What [alert_baseline] and [alert_change] raise after the message is
    built: the image lookup comes first, for the one site that has it,
    then the line on standard output; [send_discord_message] catches
    what its request raises. *)
Definition alert_raises (env : environment) (i : nat) (site : SiteConfig)
           (line : str) : option exn :=
  if PyStr.eqb (id site) NASA_APOD && image_raises env i site
  then Some LibraryExn
  else if stdout_ok line then None else Some UnicodeEncodeErrorExn.

(** What carrying out the outcome of [observe] raises, if anything. *)
Definition perform (env : environment) (i : nat) (ev : event)
  : option exn :=
  match ev with
  | BaselineAlert site value =>
      alert_raises env i site (baseline_line site value)
  | ChangeAlert site old_value new_value _ =>
      alert_raises env i site (change_line site old_value new_value)
  | NoChange site value =>
      if stdout_ok (no_change_line site value) then None
      else Some UnicodeEncodeErrorExn
  | _ => None
  end.

(** The loop of [check_sites].  [fetch i site] is what [fetch_content]
    does at the [i]-th site of the pass: the text, or [None] when it
    raises.  An exception ends the pass where it is raised. *)
Fixpoint check_loop (env : environment)
         (fetch : nat -> SiteConfig -> option str) (i : nat)
         (sites : list SiteConfig) (st : state) (any_changes : bool)
  : list event * (exn + (state * bool)) :=
  match sites with
  | [] => ([], inr (st, any_changes))
  | site :: rest =>
      match fetch i site with
      | None =>
          if stdout_ok (failed_line site (failure_text env i site)) then
            let (evs, r) := check_loop env fetch (S i) rest st any_changes in
            (fetch_prints site None ++ FetchFailed site :: evs, r)
          else (fetch_prints site None, inl UnicodeEncodeErrorExn)
      | Some raw_text =>
          let value := extract_value site raw_text in
          match observe st site value with
          | inl e => (fetch_prints site (Some raw_text), inl e)
          | inr (st', changed, ev) =>
              match perform env i ev with
              | Some e => (fetch_prints site (Some raw_text), inl e)
              | None =>
                  let (evs, r) :=
                    check_loop env fetch (S i) rest st'
                               (any_changes || changed) in
                  (fetch_prints site (Some raw_text) ++ ev :: evs, r)
              end
          end
      end
  end.

Definition NO_SITES : str := lit "[INFO] No sites configured in SITES list.".
Definition CHANGES : str := lit "[INFO] Changes detected and state saved.".
Definition NO_CHANGES : str := lit "[INFO] No changes detected, state saved.".

(** What a pass leaves behind. *)
Record pass : Type := MkPass {
  pass_file : file;              (* the state file afterwards *)
  pass_events : list event;      (* what was printed and sent *)
  pass_saved : option state;     (* the ledger given to [save_state] *)
  pass_raised : option exn       (* the exception that ended the pass *)
}.

(** [check_sites].  The state file is taken to hold a ledger, a
    [Dict[str, Dict[str, str]]], or nothing that [json.load] accepts:
    a JSON document of another shape is returned by [json.load] as it
    is, where [load_state] here gives the warning, and what the pass
    then does is outside this model. *)
Definition check_sites (raw_sites : list RawSite) (f : file)
           (fetch : nat -> SiteConfig -> option str) (env : environment)
  : pass :=
  let (sites, warnings) := to_site_configs raw_sites in
  let printed := map Printed warnings in
  match sites with
  | [] => MkPass f (printed ++ [Printed NO_SITES]) None None
  | _ =>
      let (st, warned) := load_state f in
      let read_events := if warned then [ReadWarning] else [] in
      match check_loop env fetch 0 sites st false with
      | (evs, inl e) =>
          MkPass f (printed ++ read_events ++ evs) None (Some e)
      | (evs, inr (st', any_changes)) =>
          let (f', failed) := save_state st' in
          let write_events := if failed then [WriteError] else [] in
          MkPass f'
                 (printed ++ read_events ++ evs ++ write_events
                  ++ [Printed (if any_changes then CHANGES else NO_CHANGES)])
                 (Some st') None
      end
  end.

(* ================================================================= *)
(** ** The matcher against the declarative semantics *)

Module ReFacts.

Lemma count_class_le (f : N -> bool) hi s h :
  hi = Some h -> count_class f hi s <= h.
Proof.
  revert hi h; induction s as [|c t IH]; intros hi h ->.
  - destruct h; simpl; lia.
  - destruct h; simpl; [lia|].
    destruct (f c); [|lia].
    specialize (IH (Some h) h eq_refl). simpl in *. lia.
Qed.

Lemma count_class_length (f : N -> bool) hi s :
  count_class f hi s <= length s.
Proof.
  revert hi; induction s as [|c t IH]; intros hi.
  - destruct hi as [[|h]|]; simpl; lia.
  - destruct hi as [[|h]|]; simpl; try lia;
      destruct (f c); try lia.
    + specialize (IH (Some h)). simpl in IH. lia.
    + specialize (IH None). simpl in IH. lia.
Qed.

Lemma count_class_Forall (f : N -> bool) hi s :
  Forall (fun c => f c = true) (firstn (count_class f hi s) s).
Proof.
  revert hi; induction s as [|c t IH]; intros hi.
  - destruct hi as [[|h]|]; simpl; constructor.
  - destruct hi as [[|h]|]; simpl; try constructor;
      destruct (f c) eqn:E; simpl; constructor; auto.
Qed.

Lemma count_class_app_ge (f : N -> bool) hi a r :
  Forall (fun c => f c = true) a ->
  (forall h, hi = Some h -> length a <= h) ->
  length a <= count_class f hi (a ++ r).
Proof.
  revert hi; induction a as [|c a IH]; intros hi Hf Hh; simpl; [lia|].
  inversion Hf as [|? ? Hc Ha]; subst.
  destruct hi as [[|h]|]; simpl.
  - specialize (Hh 0 eq_refl). simpl in Hh. lia.
  - rewrite Hc. apply le_n_S. apply (IH (Some h)); auto.
    intros h' [= <-]. specialize (Hh (S h) eq_refl). simpl in Hh. lia.
  - rewrite Hc. apply le_n_S. apply (IH None); auto. discriminate.
Qed.

(** Below the count every position still holds a class character. *)
Lemma count_class_next (f : N -> bool) hi s i :
  i < count_class f hi s ->
  exists c t, skipn i s = c :: t /\ f c = true.
Proof.
  revert hi i; induction s as [|c t IH]; intros hi i Hi.
  - destruct hi as [[|h]|]; simpl in Hi; lia.
  - assert (Hc : f c = true /\
                 count_class f hi (c :: t)
                 = S (count_class f (option_map pred hi) t)).
    { destruct hi as [[|h]|]; simpl in *; try lia;
        destruct (f c); try lia; auto. }
    destruct Hc as [Hc Hn]. destruct i as [|i].
    + exists c, t; auto.
    + simpl. apply (IH (option_map pred hi)). lia.
Qed.

(** An unbounded count stops at the end or at a character outside the
    class. *)
Lemma count_class_stop (f : N -> bool) s :
  match skipn (count_class f None s) s with
  | [] => True
  | c :: _ => f c = false
  end.
Proof.
  induction s as [|c t IH]; simpl; auto.
  destruct (f c) eqn:E; simpl; auto.
Qed.

Lemma firstn_plus (T : Type) a b : forall l : list T,
  firstn (a + b) l = firstn a l ++ firstn b (skipn a l).
Proof.
  induction a as [|a IH]; intros l; [reflexivity|].
  destruct l as [|x l]; simpl; [now rewrite firstn_nil|].
  f_equal. apply IH.
Qed.

Lemma firstn_skipn_length (s : str) n :
  n <= length s -> length s - length (skipn n s) = n.
Proof. intros H. rewrite length_skipn. lia. Qed.

Ltac case_ltb lo :=
  match goal with
  | |- context [Nat.ltb ?x lo] => destruct (Nat.ltb_spec0 x lo)
  end.

Ltac case_k k :=
  match goal with
  | |- context [k (skipn ?n ?s) ?c] => destruct (k (skipn n s) c) eqn:E
  end.

Section GiveBack.
Variable A : Type.
Implicit Types (k : str -> captures -> option A).

Lemma give_back_unfold n lo s caps k :
  give_back n lo s caps k
  = if Nat.ltb n lo then None
    else match k (skipn n s) caps with
         | Some a => Some a
         | None => match n with
                   | 0 => None
                   | S n' => give_back n' lo s caps k
                   end
         end.
Proof. destruct n; reflexivity. Qed.

Lemma give_back_Some n lo s caps k a :
  give_back n lo s caps k = Some a ->
  exists i, lo <= i <= n /\ k (skipn i s) caps = Some a.
Proof.
  induction n as [|n IH]; rewrite give_back_unfold;
    case_ltb lo; try discriminate;
    case_k k; try discriminate.
  - intros [= <-]. exists 0; split; [lia|exact E].
  - intros [= <-]. exists (S n); split; [lia|exact E].
  - intros H1. destruct (IH H1) as (i & Hi & Hk).
    exists i; split; [lia|exact Hk].
Qed.

Lemma give_back_None n lo s caps k :
  give_back n lo s caps k = None ->
  forall i, lo <= i <= n -> k (skipn i s) caps = None.
Proof.
  induction n as [|n IH]; rewrite give_back_unfold;
    case_ltb lo; intros H i Hi; try lia;
    revert H; case_k k; intros H; try discriminate.
  - assert (i = 0) by lia; subst. exact E.
  - destruct (Nat.eq_dec i (S n)) as [->|Hne]; [exact E|].
    apply IH; [exact H|lia].
Qed.

(** When no shorter repeat can succeed, only the longest one counts. *)
Lemma give_back_longest_only n lo s caps k :
  (forall i, i < n -> k (skipn i s) caps = None) ->
  give_back n lo s caps k
  = if Nat.ltb n lo then None else k (skipn n s) caps.
Proof.
  intros Hlt. rewrite give_back_unfold.
  destruct (Nat.ltb n lo); auto.
  destruct (k (skipn n s) caps) eqn:E; auto.
  destruct n as [|n]; auto.
  destruct (give_back n lo s caps k) eqn:G; auto.
  apply give_back_Some in G. destruct G as (i & Hi & Hk).
  rewrite Hlt in Hk by lia. discriminate.
Qed.

Lemma exec_sound r : forall s caps k a,
  exec r s caps k = Some a ->
  exists m rest caps',
    s = m ++ rest /\ Matches r m /\ k rest caps' = Some a.
Proof.
  induction r as [|f|r1 IH1 r2 IH2|lo hi f|r1 IH1|i r1 IH1];
    intros s caps k a H; simpl in H.
  - exists [], s, caps. repeat split; auto. constructor.
  - destruct s as [|c t]; [discriminate|].
    destruct (f c) eqn:E; [|discriminate].
    exists [c], t, caps. repeat split; auto. constructor; auto.
  - apply IH1 in H. destruct H as (m1 & s1 & c1 & -> & M1 & H).
    apply IH2 in H. destruct H as (m2 & s2 & c2 & -> & M2 & H).
    exists (m1 ++ m2), s2, c2. rewrite <- app_assoc.
    repeat split; auto. constructor; auto.
  - apply give_back_Some in H. destruct H as (j & Hj & Hk).
    pose proof (count_class_length f hi s) as Hlen.
    exists (firstn j s), (skipn j s), caps.
    rewrite firstn_skipn. repeat split; auto.
    constructor.
    + pose proof (count_class_Forall f hi s) as Hf.
      rewrite Forall_forall in *. intros x Hx. apply Hf.
      rewrite <- (firstn_skipn j (firstn _ s)).
      apply in_or_app. left. rewrite firstn_firstn.
      replace (Nat.min j (count_class f hi s)) with j by lia. exact Hx.
    + rewrite length_firstn. lia.
    + intros h ->. rewrite length_firstn.
      pose proof (@count_class_le f (Some h) s h eq_refl). lia.
  - destruct (exec r1 s caps k) eqn:E.
    + injection H as <-. apply IH1 in E.
      destruct E as (m & rest & c' & -> & M & Hk).
      exists m, rest, c'. repeat split; auto. constructor; auto.
    + exists [], s, caps. repeat split; auto. constructor.
  - apply IH1 in H. destruct H as (m & rest & c' & -> & M & Hk).
    eexists m, rest, _. repeat split; [constructor; auto|exact Hk].
Qed.

Lemma exec_complete r m :
  Matches r m ->
  forall rest caps k,
    (forall caps', k rest caps' <> None) ->
    exec r (m ++ rest) caps k <> None.
Proof.
  induction 1 as [|f c Hc|r1 r2 s1 s2 M1 IH1 M2 IH2|lo hi f s Hf Hlo Hhi
                  |r|r s M IH|i r s M IH];
    intros rest caps k Hk; simpl.
  - apply Hk.
  - rewrite Hc. apply Hk.
  - rewrite <- app_assoc. apply IH1. intros caps'. apply IH2. exact Hk.
  - intros Hnone.
    pose proof (@count_class_app_ge f hi s rest Hf Hhi) as Hge.
    apply give_back_None with (i := length s) in Hnone; [|lia].
    rewrite skipn_app, skipn_all, Nat.sub_diag in Hnone. simpl in Hnone.
    exact (Hk caps Hnone).
  - destruct (exec r rest caps k); [discriminate|apply Hk].
  - destruct (exec r (s ++ rest) caps k) eqn:E; [discriminate|].
    exfalso. exact (IH rest caps k Hk E).
  - apply IH. intros caps'. apply Hk.
Qed.

End GiveBack.

Lemma match_here_sound r s g0 caps :
  match_here r s = Some (g0, caps) ->
  exists rest, s = g0 ++ rest /\ Matches r g0.
Proof.
  unfold match_here. intros H. apply exec_sound in H.
  destruct H as (m & rest & c' & -> & M & Hk).
  injection Hk as <- <-. exists rest.
  rewrite length_app, Nat.add_sub, firstn_app, Nat.sub_diag, firstn_all.
  simpl. rewrite app_nil_r. auto.
Qed.

Lemma match_here_complete r m rest :
  Matches r m -> match_here r (m ++ rest) <> None.
Proof.
  intros M. unfold match_here. apply exec_complete; auto. discriminate.
Qed.

Lemma search_from_sound r : forall s pos mo,
  search_from r pos s = Some mo ->
  exists pre post,
    s = pre ++ m_group0 mo ++ post /\
    m_start mo = pos + length pre /\
    Matches r (m_group0 mo) /\
    match_here r (m_group0 mo ++ post) = Some (m_group0 mo, m_caps mo) /\
    (forall j m', j < length pre -> ~ occurs_at r s j m').
Proof.
  induction s as [|c t IH]; intros pos mo H; simpl in H.
  - destruct (match_here r []) as [[g0 caps]|] eqn:E; [|discriminate].
    injection H as <-. simpl.
    destruct (match_here_sound _ _ E) as (rest & Hs & M).
    exists [], rest. simpl. rewrite <- Hs.
    repeat split; auto; simpl; intros; lia.
  - destruct (match_here r (c :: t)) as [[g0 caps]|] eqn:E.
    + injection H as <-. simpl.
      destruct (match_here_sound _ _ E) as (rest & Hs & M).
      exists [], rest. simpl. rewrite <- Hs.
      repeat split; auto; simpl; intros; lia.
    + apply IH in H.
      destruct H as (pre & post & -> & Hst & M & Hm & Hleft).
      exists (c :: pre), post. simpl.
      repeat split; auto; [lia|].
      intros j m' Hj (pre' & post' & Heq & Hlen & M').
      destruct pre' as [|c' pre'].
      * simpl in Heq. rewrite Heq in E.
        exact (match_here_complete post' M' E).
      * simpl in Heq, Hlen. injection Heq as -> Heq.
        apply (Hleft (length pre') m'); [lia|].
        exists pre', post'. auto.
Qed.

Lemma search_from_None r : forall s pos,
  search_from r pos s = None -> no_occurrence r s.
Proof.
  induction s as [|c t IH]; intros pos H j m (pre & post & Heq & Hlen & M);
    simpl in H.
  - destruct (match_here r []) as [[g0 caps]|] eqn:E; [discriminate|].
    destruct pre; [|discriminate]. simpl in Heq. rewrite Heq in E.
    exact (match_here_complete post M E).
  - destruct (match_here r (c :: t)) as [[g0 caps]|] eqn:E; [discriminate|].
    destruct pre as [|c' pre].
    + simpl in Heq. rewrite Heq in E. exact (match_here_complete post M E).
    + injection Heq as -> Heq.
      apply (IH _ H (length pre) m). exists pre, post. auto.
Qed.

End ReFacts.

(* ================================================================= *)
(** ** What the patterns of the source match *)

Module PatternFacts.
Import ReFacts CharClass.

Ltac bool_to_prop :=
  repeat match goal with
  | H : _ && _ = true |- _ => apply andb_true_iff in H; destruct H
  | H : _ || _ = true |- _ => apply orb_true_iff in H
  | H : N.leb _ _ = true |- _ => apply N.leb_le in H
  | H : N.eqb _ _ = true |- _ => apply N.eqb_eq in H
  | H : N.leb _ _ = false |- _ => apply N.leb_gt in H
  | H : N.eqb _ _ = false |- _ => apply N.eqb_neq in H
  end.

Lemma in_range_spec lo hi c :
  in_range lo hi c = true <-> (lo <= c /\ c <= hi)%N.
Proof.
  unfold in_range. rewrite andb_true_iff, !N.leb_le. tauto.
Qed.

Lemma ascii_digit_spec c : ascii_digit c = true <-> (48 <= c <= 57)%N.
Proof. apply in_range_spec. Qed.

Lemma space_spec c :
  space c = true <->
  ((9 <= c <= 13) \/ (28 <= c <= 32) \/ c = 133 \/ c = 160 \/ c = 5760
   \/ (8192 <= c <= 8202) \/ (8232 <= c <= 8233) \/ c = 8239 \/ c = 8287
   \/ c = 12288)%N.
Proof.
  unfold space. rewrite !orb_true_iff, !in_range_spec, !N.eqb_eq. tauto.
Qed.

Lemma digit_not_space c : space c = true -> ascii_digit c = false.
Proof.
  rewrite space_spec. intros H.
  destruct (ascii_digit c) eqn:E; auto.
  apply ascii_digit_spec in E. lia.
Qed.

Lemma dot_not_digit_or_comma c : dot c = true -> digit_or_comma c = false.
Proof. unfold dot. intros H. apply N.eqb_eq in H. subst. reflexivity. Qed.

Lemma dot_not_decimal c : decimal c = true -> dot c = false.
Proof.
  unfold dot. intros H. destruct (N.eqb_spec c 46); auto. subst. discriminate.
Qed.

Lemma three_not_space c : space c = true -> exactly 51 c = false.
Proof.
  unfold exactly. intros H. destruct (N.eqb_spec c 51); auto.
  subst. discriminate.
Qed.

Lemma c_not_space c : space c = true -> ignorecase 99 c = false.
Proof.
  rewrite space_spec. intros H.
  destruct (ignorecase 99 c) eqn:E; auto. exfalso.
  change (ignorecase 99 c) with
    (N.eqb c 99 || N.eqb c 67 || (false && (N.eqb c 304 || N.eqb c 305))
     || (false && N.eqb c 383) || (false && N.eqb c 8490)) in E.
  simpl in E. rewrite !orb_false_r in E.
  apply orb_true_iff in E. rewrite !N.eqb_eq in E. lia.
Qed.

(** *** Unfolding the matcher *)

Lemma exec_Cat A r1 r2 s caps (k : str -> captures -> option A) :
  exec (Cat r1 r2) s caps k = exec r1 s caps (fun s1 c1 => exec r2 s1 c1 k).
Proof. reflexivity. Qed.

Lemma exec_In_Cat A f r s caps (k : str -> captures -> option A) :
  exec (Cat (In f) r) s caps k
  = match s with
    | c :: t => if f c then exec r t caps k else None
    | [] => None
    end.
Proof. reflexivity. Qed.

Lemma exec_Group A i r s caps (k : str -> captures -> option A) :
  exec (Group i r) s caps k
  = exec r s caps
      (fun s1 c1 => k s1 (record i (firstn (length s - length s1) s) c1)).
Proof. reflexivity. Qed.

(** *** Class repeats *)

Definition span_len (f : N -> bool) (s : str) : nat := count_class f None s.

Lemma span_len_exact f a x r :
  Forall (fun c => f c = true) a -> f x = false ->
  span_len f (a ++ x :: r) = length a.
Proof.
  unfold span_len. induction 1 as [|c a Hc Ha IH]; intros Hx; simpl.
  - rewrite Hx. reflexivity.
  - rewrite Hc. f_equal. auto.
Qed.

Lemma span_len_all f a :
  Forall (fun c => f c = true) a -> span_len f a = length a.
Proof.
  unfold span_len. induction 1 as [|c a Hc Ha IH]; simpl; auto.
  rewrite Hc. f_equal. auto.
Qed.

(** A pattern that cannot start with a character of class [f]. *)
Definition rejects (r : regex) (f : N -> bool) : Prop :=
  forall A c t caps (k : str -> captures -> option A),
    f c = true -> exec r (c :: t) caps k = None.

Lemma rejects_In f g :
  (forall c, f c = true -> g c = false) -> rejects (In g) f.
Proof. intros H A c t caps k Hc. simpl. rewrite (H c Hc). reflexivity. Qed.

Lemma rejects_Cat r1 r2 f : rejects r1 f -> rejects (Cat r1 r2) f.
Proof. intros H A c t caps k Hc. simpl. apply H. exact Hc. Qed.

Lemma rejects_Group i r f : rejects r f -> rejects (Group i r) f.
Proof. intros H A c t caps k Hc. simpl. apply H. exact Hc. Qed.

(** Greedy repeat before a pattern that rejects the class: only the
    whole run can be followed by a match. *)
Lemma exec_repeat_rejects A lo f r s caps (k : str -> captures -> option A) :
  rejects r f ->
  exec (Cat (Repeat lo None f) r) s caps k
  = if Nat.ltb (span_len f s) lo then None
    else exec r (skipn (span_len f s) s) caps k.
Proof.
  intros Hr. simpl. apply give_back_longest_only.
  intros i Hi. destruct (count_class_next _ _ _ Hi) as (c & t & -> & Hc).
  apply Hr. exact Hc.
Qed.

(** Greedy repeat before a continuation that accepts the whole run. *)
Lemma exec_repeat_first A lo hi f s caps (k : str -> captures -> option A) :
  lo <= count_class f hi s ->
  k (skipn (count_class f hi s) s) caps <> None ->
  exec (Repeat lo hi f) s caps k = k (skipn (count_class f hi s) s) caps.
Proof.
  intros Hlo Hk. simpl. rewrite give_back_unfold.
  destruct (Nat.ltb_spec0 (count_class f hi s) lo); [lia|].
  destruct (k (skipn (count_class f hi s) s) caps); congruence.
Qed.

(** *** Literals *)

Definition lit_class (ic : bool) (a : N) : N -> bool :=
  if ic then ignorecase a else exactly a.

(** The rest of [s] after the literal [p], when [s] starts with it. *)
Fixpoint strip (ic : bool) (p s : str) : option str :=
  match p with
  | [] => Some s
  | a :: p' =>
      match s with
      | c :: t => if lit_class ic a c then strip ic p' t else None
      | [] => None
      end
  end.

Lemma exec_literal A ic p r : forall s caps (k : str -> captures -> option A),
  exec (Cat (literal ic p) r) s caps k
  = match strip ic p s with
    | Some s1 => exec r s1 caps k
    | None => None
    end.
Proof.
  induction p as [|a p IH]; intros s caps k; [reflexivity|].
  simpl. destruct s as [|c t]; [reflexivity|].
  unfold lit_class. destruct ic.
  - destruct (ignorecase a c); [|reflexivity]. apply (IH t caps k).
  - destruct (exactly a c); [|reflexivity]. apply (IH t caps k).
Qed.

Lemma rejects_literal ic a p r f :
  (forall c, f c = true -> lit_class ic a c = false) ->
  rejects (Cat (literal ic (a :: p)) r) f.
Proof.
  intros H A c t caps k Hc. rewrite exec_literal. simpl.
  rewrite (H c Hc). reflexivity.
Qed.

Lemma strip_split ic p : forall s s1,
  strip ic p s = Some s1 ->
  exists m, s = m ++ s1 /\ length m = length p /\ Matches (literal ic p) m.
Proof.
  induction p as [|a p IH]; intros s s1 H; simpl in H.
  - injection H as <-. exists []. repeat split. constructor.
  - destruct s as [|c t]; [discriminate|].
    destruct (lit_class ic a c) eqn:E; [|discriminate].
    destruct (IH _ _ H) as (m & -> & Hl & M).
    exists (c :: m). simpl. repeat split; [lia|].
    change (c :: m) with ([c] ++ m). constructor; auto.
    constructor. exact E.
Qed.

Lemma Matches_literal ic p : forall m,
  Matches (literal ic p) m ->
  length m = length p /\ forall rest, strip ic p (m ++ rest) = Some rest.
Proof.
  induction p as [|a p IH]; intros m M; simpl in M.
  - inversion M; subst. auto.
  - inversion M as [| |r1 r2 s1 s2 M1 M2| | | |]; subst.
    inversion M1 as [|f c Hc| | | | |]; subst.
    destruct (IH _ M2) as [Hl Hs]. simpl. split; [lia|].
    intros rest. fold (lit_class ic a) in Hc. rewrite Hc. apply Hs.
Qed.

(** *** The number [[0-9][0-9,]*(?:\.[0-9]{2})?] *)

(** Length of a fraction [\.[0-9]{2}] at the head of [s], or 0. *)
Definition frac_len (s : str) : nat :=
  match s with
  | d :: a :: b :: _ =>
      if dot d && ascii_digit a && ascii_digit b then 3 else 0
  | _ => 0
  end.

(** Length of the number the matcher takes at the head of [s]. *)
Definition number_len (s : str) : option nat :=
  match s with
  | c :: t =>
      if ascii_digit c then
        let n := span_len digit_or_comma t in
        Some (1 + (n + frac_len (skipn n t)))
      else None
  | [] => None
  end.

Section Number.
Variable A : Type.
Variable k : str -> captures -> option A.
Hypothesis k_total : forall s caps, k s caps <> None.

Lemma exec_opt_fraction s caps :
  exec (Opt (In dot +++ Repeat 2 (Some 2) ascii_digit)%re) s caps k
  = k (skipn (frac_len s) s) caps.
Proof.
  assert (Hk : forall s', match k s' caps with
                          | Some a => Some a
                          | None => k s caps
                          end = k s' caps).
  { intros s'. destruct (k s' caps) eqn:E; auto.
    exfalso. exact (k_total E). }
  destruct s as [|d [|a [|b r]]]; simpl.
  - reflexivity.
  - destruct (dot d); reflexivity.
  - destruct (dot d); [|reflexivity]. destruct (ascii_digit a); reflexivity.
  - destruct (dot d); [|reflexivity]. simpl.
    destruct (ascii_digit a); [|reflexivity]. simpl.
    destruct (ascii_digit b); [|reflexivity].
    replace (count_class ascii_digit (Some 0) r) with 0
      by (destruct r; reflexivity).
    simpl. destruct (k r caps) eqn:E; auto.
    exfalso. exact (k_total E).
Qed.

Lemma exec_NUMBER s caps :
  exec NUMBER s caps k
  = match number_len s with
    | Some n => k (skipn n s) caps
    | None => None
    end.
Proof.
  unfold NUMBER, number_len. destruct s as [|c t]; [reflexivity|].
  rewrite exec_In_Cat. destruct (ascii_digit c); [|reflexivity].
  cbv zeta. rewrite exec_Cat, exec_repeat_first.
  - rewrite exec_opt_fraction. cbn [Nat.add skipn].
    rewrite skipn_skipn. f_equal. f_equal. unfold span_len. lia.
  - lia.
  - rewrite exec_opt_fraction. apply k_total.
Qed.

End Number.

Lemma frac_len_cases s :
  (frac_len s = 0) \/
  (frac_len s = 3 /\
   exists d a b r, s = d :: a :: b :: r /\ dot d = true /\
                   ascii_digit a = true /\ ascii_digit b = true).
Proof.
  destruct s as [|d [|a [|b r]]]; simpl; auto.
  destruct (dot d) eqn:Ed; auto. destruct (ascii_digit a) eqn:Ea; auto.
  destruct (ascii_digit b) eqn:Eb; auto.
  right. split; auto. exists d, a, b, r. auto.
Qed.

Lemma Matches_fraction_opt m :
  Matches (Opt (In dot +++ Repeat 2 (Some 2) ascii_digit)%re) m ->
  m = [] \/
  exists d a b, m = [d; a; b] /\ dot d = true /\
                ascii_digit a = true /\ ascii_digit b = true.
Proof.
  intros M. inversion M as [| | | |r|r s M1|]; subst; auto.
  right. inversion M1 as [| |r1 r2 s1 s2 Ma Mb| | | |]; subst.
  inversion Ma as [|f c Hc| | | | |]; subst.
  inversion Mb as [| | |lo hi f s Hf Hlo Hhi| | |]; subst.
  specialize (Hhi 2 eq_refl).
  destruct s2 as [|a [|b [|x s2]]]; simpl in *; try lia.
  inversion Hf as [|? ? Ha Hf']; subst. inversion Hf' as [|? ? Hb _]; subst.
  exists c, a, b. auto.
Qed.

Lemma Matches_NUMBER_inv m :
  Matches NUMBER m ->
  exists d body frac,
    m = d :: body ++ frac /\ ascii_digit d = true /\
    Forall (fun c => digit_or_comma c = true) body /\
    Matches (Opt (In dot +++ Repeat 2 (Some 2) ascii_digit)%re) frac.
Proof.
  unfold NUMBER. intros M.
  inversion M as [| |r1 r2 s1 s2 Ma Mb| | | |]; subst.
  inversion Ma as [|f c Hc| | | | |]; subst.
  inversion Mb as [| |r1 r2 s1 s3 Mc Md| | | |]; subst.
  inversion Mc as [| | |lo hi f s Hf Hlo Hhi| | |]; subst.
  exists c, s1, s3. auto.
Qed.

Lemma Matches_NUMBER_intro d body frac :
  ascii_digit d = true ->
  Forall (fun c => digit_or_comma c = true) body ->
  Matches (Opt (In dot +++ Repeat 2 (Some 2) ascii_digit)%re) frac ->
  Matches NUMBER (d :: body ++ frac).
Proof.
  intros Hd Hb Hf. unfold NUMBER.
  change (d :: body ++ frac) with ([d] ++ body ++ frac).
  constructor; [constructor; exact Hd|].
  constructor; [|exact Hf].
  constructor; [exact Hb|lia|discriminate].
Qed.

(** The number taken is a match, and no longer match starts there. *)
Lemma number_len_longest s n :
  number_len s = Some n ->
  n <= length s /\ Matches NUMBER (firstn n s) /\
  forall m post, s = m ++ post -> Matches NUMBER m -> length m <= n.
Proof.
  unfold number_len. destruct s as [|c t]; [discriminate|].
  destruct (ascii_digit c) eqn:Ec; [|discriminate].
  cbv zeta. intros [= <-].
  set (w := span_len digit_or_comma t).
  assert (Hw : w <= length t) by apply count_class_length.
  assert (Hbody : Forall (fun c => digit_or_comma c = true) (firstn w t))
    by apply count_class_Forall.
  assert (Hfl : frac_len (skipn w t) <= length (skipn w t)).
  { destruct (frac_len_cases (skipn w t)) as [->|[-> (d & a & b & r & -> & _)]];
      simpl; lia. }
  rewrite length_skipn in Hfl.
  split; [simpl; lia|]. split.
  - cbn [Nat.add firstn].
    replace (firstn (w + frac_len (skipn w t)) t)
      with (firstn w t ++ firstn (frac_len (skipn w t)) (skipn w t)).
    2:{ symmetry. apply firstn_plus. }
    apply Matches_NUMBER_intro; auto.
    destruct (frac_len_cases (skipn w t))
      as [->|[-> (d & a & b & r & -> & Hd & Ha & Hb)]].
    + constructor.
    + simpl. apply M_Opt_take.
      change [d; a; b] with ([d] ++ [a; b]).
      constructor; [constructor; exact Hd|].
      constructor; [repeat constructor; auto|simpl; lia|].
      intros h [= <-]. simpl. lia.
  - intros m post Hs M.
    destruct (Matches_NUMBER_inv M) as (d & body & frac & -> & Hd & Hb & Hf).
    simpl in Hs. injection Hs as -> Ht.
    rewrite <- app_assoc in Ht.
    assert (Hle : length body <= w).
    { unfold w, span_len. rewrite Ht. apply count_class_app_ge; auto.
      discriminate. }
    simpl. rewrite length_app.
    destruct (Matches_fraction_opt Hf)
      as [->|(d' & a & b & -> & Hd' & Ha & Hb')]; [simpl; lia|].
    destruct (Nat.eq_dec (length body) w) as [Heq|Hne].
    + rewrite Ht, <- Heq, skipn_app, skipn_all, Nat.sub_diag. simpl.
      rewrite Hd', Ha, Hb'. simpl. lia.
    + assert (Hlt : length body < count_class digit_or_comma None t)
        by (unfold w, span_len in *; lia).
      destruct (count_class_next _ _ _ Hlt) as (x & r & Hx & Hxc).
      rewrite Ht, skipn_app, skipn_all, Nat.sub_diag in Hx. simpl in Hx.
      injection Hx as <- _.
      rewrite (dot_not_digit_or_comma _ Hd') in Hxc. discriminate.
Qed.

Lemma number_len_none s :
  number_len s = None ->
  forall m post, s = m ++ post -> ~ Matches NUMBER m.
Proof.
  intros H m post -> M.
  destruct (Matches_NUMBER_inv M) as (d & body & frac & -> & Hd & _).
  simpl in H. rewrite Hd in H. discriminate.
Qed.

(** *** From one position to the whole text *)

(** The matcher takes, at a position, a match at least as long as any
    other match there. *)
Definition greedy_longest (r : regex) : Prop :=
  forall s g0 caps,
    match_here r s = Some (g0, caps) ->
    forall m post, s = m ++ post -> Matches r m -> length m <= length g0.

Lemma app_eq_len (T : Type) (a a' r r' : list T) :
  a ++ r = a' ++ r' -> length a = length a' -> a = a' /\ r = r'.
Proof.
  revert a'; induction a as [|x a IH]; intros [|y a'] H Hl;
    simpl in *; try discriminate; auto.
  injection H as -> H. injection Hl as Hl.
  destruct (IH _ H Hl) as [-> ->]. auto.
Qed.

Lemma search_found r text mo :
  search r text = Some mo ->
  exists pre post,
    text = pre ++ m_group0 mo ++ post /\
    length pre = m_start mo /\
    match_here r (m_group0 mo ++ post) = Some (m_group0 mo, m_caps mo) /\
    occurs_at r text (m_start mo) (m_group0 mo) /\
    (forall j m', occurs_at r text j m' -> m_start mo <= j).
Proof.
  unfold search. intros H. apply search_from_sound in H.
  destruct H as (pre & post & Ht & Hst & M & Hm & Hleft).
  simpl in Hst. exists pre, post. repeat split; auto.
  - exists pre, post. auto.
  - intros j m' Hocc. rewrite Hst.
    destruct (Nat.le_gt_cases (length pre) j) as [Hle|Hgt]; auto.
    exfalso. exact (Hleft j m' Hgt Hocc).
Qed.

Lemma search_first_longest r text mo :
  greedy_longest r ->
  search r text = Some mo ->
  first_longest r text (m_start mo) (m_group0 mo).
Proof.
  intros Hg H. destruct (search_found _ _ H)
    as (pre & post & Ht & Hst & Hm & Hocc & Hleft).
  split; auto. intros j' m' Hocc'. split; [eauto|].
  intros ->. destruct Hocc' as (pre' & post' & Ht' & Hl' & M').
  rewrite Ht in Ht'.
  destruct (app_eq_len _ _ _ _ Ht' ltac:(lia)) as [_ Heq].
  exact (Hg _ _ _ Hm _ _ Heq M').
Qed.

Lemma search_none r text :
  search r text = None -> no_occurrence r text.
Proof. apply search_from_None. Qed.

(** *** [PRICE_PATTERN] *)

Definition final (s : str) : str -> captures -> option (str * captures) :=
  fun rest caps => Some (firstn (length s - length rest) s, caps).

Lemma NUMBER_rejects_space : rejects NUMBER space.
Proof. apply rejects_Cat, rejects_In, digit_not_space. Qed.

Lemma firstn_app_length (T : Type) (a b : list T) :
  firstn (length (a ++ b) - length b) (a ++ b) = a.
Proof.
  rewrite length_app, Nat.add_sub, firstn_app, Nat.sub_diag, firstn_all.
  simpl. apply app_nil_r.
Qed.

(** A group around the number, as the last item of a pattern: what is
    taken from [s1], where [s = done ++ s1] is the text at the match
    start. *)
Lemma exec_number_group done s1 caps :
  exec (Group 1 NUMBER) s1 caps (final (done ++ s1))
  = match number_len s1 with
    | Some n => Some (done ++ firstn n s1, record 1 (firstn n s1) caps)
    | None => None
    end.
Proof.
  rewrite exec_Group, exec_NUMBER by discriminate.
  destruct (number_len s1) as [n|] eqn:E; [|reflexivity].
  destruct (number_len_longest _ E) as (Hn & _ & _).
  unfold final. f_equal. f_equal.
  - rewrite <- (firstn_skipn n s1) at 1 3.
    rewrite app_assoc. apply firstn_app_length.
  - f_equal. rewrite length_skipn. f_equal. lia.
Qed.

Lemma match_here_PRICE s g0 caps :
  match_here PRICE_PATTERN s = Some (g0, caps) ->
  exists sym ws num post,
    s = sym :: ws ++ num ++ post /\ g0 = sym :: ws ++ num /\
    caps = [(1, num)] /\ currency sym = true /\
    Forall (fun c => space c = true) ws /\
    span_len space (ws ++ num ++ post) = length ws /\
    number_len (num ++ post) = Some (length num).
Proof.
  unfold match_here, PRICE_PATTERN. rewrite exec_In_Cat.
  destruct s as [|c t]; [discriminate|].
  destruct (currency c) eqn:Ec; [|discriminate].
  rewrite exec_repeat_rejects by (apply rejects_Group, NUMBER_rejects_space).
  simpl Nat.ltb. cbv iota.
  set (w := span_len space t).
  assert (Hw : w <= length t) by apply count_class_length.
  change (fun rest caps0 =>
            Some (firstn (length (c :: t) - length rest) (c :: t), caps0))
    with (final (c :: t)).
  rewrite <- (firstn_skipn w t) at 2.
  change (c :: firstn w t ++ skipn w t)
    with ((c :: firstn w t) ++ skipn w t).
  rewrite exec_number_group.
  destruct (number_len (skipn w t)) as [n|] eqn:En; [|discriminate].
  intros [= <- <-].
  destruct (number_len_longest _ En) as (Hn & _ & _).
  exists c, (firstn w t), (firstn n (skipn w t)), (skipn n (skipn w t)).
  rewrite !firstn_skipn. repeat split; auto.
  - apply count_class_Forall.
  - rewrite length_firstn. fold w. lia.
  - rewrite length_firstn. rewrite En. f_equal. lia.
Qed.

Lemma Matches_PRICE_inv m :
  Matches PRICE_PATTERN m ->
  exists sym ws num,
    m = sym :: ws ++ num /\ currency sym = true /\
    Forall (fun c => space c = true) ws /\ Matches NUMBER num.
Proof.
  unfold PRICE_PATTERN. intros M.
  inversion M as [| |r1 r2 s1 s2 Ma Mb| | | |]; subst.
  inversion Ma as [|f c Hc| | | | |]; subst.
  inversion Mb as [| |r1 r2 s1 s3 Mc Md| | | |]; subst.
  inversion Mc as [| | |lo hi f s Hf Hlo Hhi| | |]; subst.
  inversion Md as [| | | | | |i r s Mn]; subst.
  exists c, s1, s3. auto.
Qed.

Lemma NUMBER_head m :
  Matches NUMBER m -> exists d r, m = d :: r /\ ascii_digit d = true.
Proof.
  intros M. destruct (Matches_NUMBER_inv M) as (d & body & frac & -> & Hd & _).
  eauto.
Qed.

Lemma number_space_false d : ascii_digit d = true -> space d = false.
Proof.
  intros Hd. destruct (space d) eqn:E; auto.
  rewrite (digit_not_space _ E) in Hd. discriminate.
Qed.

Lemma PRICE_greedy_longest : greedy_longest PRICE_PATTERN.
Proof.
  intros s g0 caps H m post Hs M.
  destruct (match_here_PRICE _ H)
    as (sym & ws & num & post0 & Hs0 & -> & _ & _ & Hws & Hspan & Hnum).
  destruct (Matches_PRICE_inv M) as (sym' & ws' & num' & -> & _ & Hws' & Mn').
  rewrite Hs0 in Hs. simpl in Hs. injection Hs as <- Hs.
  rewrite <- !app_assoc in Hs.
  destruct (NUMBER_head Mn') as (d' & r' & -> & Hd').
  assert (Hl : length ws = length ws').
  { rewrite <- Hspan, Hs. simpl.
    apply span_len_exact; auto using number_space_false. }
  destruct (app_eq_len _ _ _ _ Hs Hl) as [_ Hrest].
  destruct (number_len_longest _ Hnum) as (_ & _ & Hlong).
  specialize (Hlong _ _ Hrest Mn').
  simpl in *. rewrite !length_app. simpl. lia.
Qed.

(** *** Patterns read from left to right

    The patterns of the source are sequences whose items leave the
    matcher no choice until the last one: a literal, a class, or a
    class repeat followed by an item that starts outside the class.
    The lemmas below follow the matcher item by item; [done] is the
    part of the match already consumed. *)

Definition starts_outside (r : regex) (f : N -> bool) : Prop :=
  forall m, Matches r m -> exists x t, m = x :: t /\ f x = false.

Lemma starts_outside_rejects r f : starts_outside r f -> rejects r f.
Proof.
  intros Hso A c t caps k Hc.
  destruct (exec r (c :: t) caps k) eqn:E; auto.
  apply exec_sound in E. destruct E as (m & rest & caps' & Hs & M & _).
  destruct (Hso _ M) as (x & t' & -> & Hx).
  simpl in Hs. injection Hs as <- _. congruence.
Qed.

Lemma starts_outside_In g r f :
  (forall c, g c = true -> f c = false) -> starts_outside (In g +++ r)%re f.
Proof.
  intros H m M. inversion M as [| |r1 r2 s1 s2 Ma Mb| | | |]; subst.
  inversion Ma as [|f' c Hc| | | | |]; subst. simpl. eauto.
Qed.

Lemma starts_outside_literal ic a p r f :
  (forall c, lit_class ic a c = true -> f c = false) ->
  starts_outside (literal ic (a :: p) +++ r)%re f.
Proof.
  intros H m M. inversion M as [| |r1 r2 s1 s2 Ma Mb| | | |]; subst.
  simpl in Ma. inversion Ma as [| |r1 r2 s3 s4 Mc Md| | | |]; subst.
  inversion Mc as [|f' c Hc| | | | |]; subst. simpl.
  exists c, (s4 ++ s2). split; auto.
Qed.

Lemma starts_outside_Group i r f :
  starts_outside r f -> starts_outside (Group i r) f.
Proof. intros H m M. inversion M; subst. auto. Qed.

Lemma flip_disjoint (f g : N -> bool) :
  (forall c, f c = true -> g c = false) ->
  (forall c, g c = true -> f c = false).
Proof.
  intros H c Hg. destruct (f c) eqn:E; auto.
  rewrite (H c E) in Hg. discriminate.
Qed.

Definition tail_longest (r : regex) : Prop :=
  forall done s c g0 caps m post,
    exec r s c (final (done ++ s)) = Some (g0, caps) ->
    s = m ++ post -> Matches r m ->
    length done + length m <= length g0.

Lemma tail_longest_greedy r : tail_longest r -> greedy_longest r.
Proof.
  intros H s g0 caps Hm m post Hs M.
  exact (H [] s [] g0 caps m post Hm Hs M).
Qed.

Lemma tail_longest_In f r :
  tail_longest r -> tail_longest (In f +++ r)%re.
Proof.
  intros IH done s c g0 caps m post H Hs M.
  rewrite exec_In_Cat in H. destruct s as [|x t]; [discriminate|].
  destruct (f x); [|discriminate].
  inversion M as [| |r1 r2 s1 s2 Ma Mb| | | |]; subst.
  inversion Ma as [|f' y Hy| | | | |]; subst.
  simpl in Hs. injection Hs as -> ->.
  change (done ++ y :: s2 ++ post) with (done ++ [y] ++ s2 ++ post) in H.
  rewrite app_assoc in H.
  specialize (IH _ _ _ _ _ _ _ H eq_refl Mb).
  rewrite length_app in IH. simpl in *. lia.
Qed.

Lemma tail_longest_literal ic p r :
  tail_longest r -> tail_longest (literal ic p +++ r)%re.
Proof.
  intros IH done s c g0 caps m post H Hs M.
  rewrite exec_literal in H.
  destruct (strip ic p s) as [s1|] eqn:E; [|discriminate].
  destruct (strip_split _ _ _ E) as (m0 & -> & Hl & _).
  inversion M as [| |r1 r2 a b Ma Mb| | | |]; subst.
  destruct (Matches_literal _ _ Ma) as [Hla _].
  rewrite <- app_assoc in Hs.
  destruct (app_eq_len _ _ _ _ Hs ltac:(lia)) as [-> ->].
  rewrite app_assoc in H.
  specialize (IH _ _ _ _ _ _ _ H eq_refl Mb).
  rewrite !length_app in *. lia.
Qed.

Lemma tail_longest_repeat lo f r :
  starts_outside r f ->
  tail_longest r -> tail_longest (Repeat lo None f +++ r)%re.
Proof.
  intros Hso IH done s c g0 caps m post H Hs M.
  rewrite exec_repeat_rejects in H by (apply starts_outside_rejects, Hso).
  destruct (Nat.ltb (span_len f s) lo); [discriminate|].
  inversion M as [| |r1 r2 a b Ma Mb| | | |]; subst.
  inversion Ma as [| | |lo' hi' f' a' Hf Hlo Hhi| | |]; subst.
  destruct (Hso _ Mb) as (x & t & -> & Hx).
  rewrite <- app_assoc in H. simpl in H.
  rewrite (@span_len_exact f a x (t ++ post) Hf Hx) in H.
  rewrite skipn_app, skipn_all, Nat.sub_diag in H. simpl in H.
  change (done ++ a ++ x :: t ++ post)
    with (done ++ a ++ (x :: t) ++ post) in H.
  rewrite app_assoc in H.
  specialize (IH _ _ _ _ _ (x :: t) post H eq_refl Mb).
  rewrite !length_app in *. lia.
Qed.

Lemma tail_longest_repeat_end lo f : tail_longest (Repeat lo None f).
Proof.
  intros done s c g0 caps m post H Hs M.
  inversion M as [| | |lo' hi' f' a' Hf Hlo Hhi| | |]; subst.
  pose proof (@count_class_app_ge f None m post Hf ltac:(discriminate)) as Hge.
  rewrite exec_repeat_first in H by (try discriminate; lia).
  unfold final in H. injection H as <- _.
  pose proof (count_class_length f None (m ++ post)) as Hlen.
  rewrite length_firstn, length_skipn, !length_app in *. lia.
Qed.

Lemma tail_longest_number_group : tail_longest (Group 1 NUMBER).
Proof.
  intros done s c g0 caps m post H Hs M.
  rewrite exec_number_group in H.
  destruct (number_len s) as [n|] eqn:E; [|discriminate].
  injection H as <- _.
  inversion M as [| | | | | |i r s' Mn]; subst.
  destruct (number_len_longest _ E) as (Hn & _ & Hlong).
  specialize (Hlong _ _ eq_refl Mn).
  rewrite length_app, length_firstn. lia.
Qed.

(** The captured number. *)
Definition tail_group (r front : regex) : Prop :=
  forall done s c g0 caps,
    exec r s c (final (done ++ s)) = Some (g0, caps) ->
    exists fr num,
      g0 = done ++ fr ++ num /\ caps = record 1 num c /\
      Matches front fr /\ Matches NUMBER num.

Lemma tail_group_number : tail_group (Group 1 NUMBER) Eps.
Proof.
  intros done s c g0 caps H. rewrite exec_number_group in H.
  destruct (number_len s) as [n|] eqn:E; [|discriminate].
  injection H as <- <-.
  destruct (number_len_longest _ E) as (_ & Mn & _).
  exists [], (firstn n s). repeat split; auto. constructor.
Qed.

Lemma tail_group_In f r front :
  tail_group r front -> tail_group (In f +++ r)%re (In f +++ front)%re.
Proof.
  intros IH done s c g0 caps H.
  rewrite exec_In_Cat in H. destruct s as [|x t]; [discriminate|].
  destruct (f x) eqn:Ex; [|discriminate].
  change (done ++ x :: t) with (done ++ [x] ++ t) in H.
  rewrite app_assoc in H.
  destruct (IH _ _ _ _ _ H) as (fr & num & -> & -> & Mf & Mn).
  exists (x :: fr), num. rewrite <- app_assoc. repeat split; auto.
  change (x :: fr) with ([x] ++ fr). constructor; auto. constructor; auto.
Qed.

Lemma tail_group_literal ic p r front :
  tail_group r front ->
  tail_group (literal ic p +++ r)%re (literal ic p +++ front)%re.
Proof.
  intros IH done s c g0 caps H.
  rewrite exec_literal in H.
  destruct (strip ic p s) as [s1|] eqn:E; [|discriminate].
  destruct (strip_split _ _ _ E) as (m0 & -> & Hl & Ml).
  rewrite app_assoc in H.
  destruct (IH _ _ _ _ _ H) as (fr & num & -> & -> & Mf & Mn).
  exists (m0 ++ fr), num. rewrite <- !app_assoc. repeat split; auto.
  constructor; auto.
Qed.

Lemma tail_group_repeat lo f r front :
  starts_outside r f ->
  tail_group r front ->
  tail_group (Repeat lo None f +++ r)%re (Repeat lo None f +++ front)%re.
Proof.
  intros Hso IH done s c g0 caps H.
  rewrite exec_repeat_rejects in H by (apply starts_outside_rejects, Hso).
  destruct (Nat.ltb_spec0 (span_len f s) lo) as [|Hlo]; [discriminate|].
  assert (Hs : done ++ s
               = (done ++ firstn (span_len f s) s) ++ skipn (span_len f s) s)
    by (rewrite <- app_assoc, firstn_skipn; reflexivity).
  rewrite Hs in H.
  destruct (IH _ _ _ _ _ H) as (fr & num & -> & -> & Mf & Mn).
  exists (firstn (span_len f s) s ++ fr), num.
  rewrite <- !app_assoc. repeat split; auto.
  constructor; auto.
  pose proof (count_class_length f None s) as Hlen.
  constructor; [apply count_class_Forall| |discriminate].
  rewrite length_firstn. unfold span_len in *. lia.
Qed.

(** *** The three patterns and the bare number *)

Lemma NUMBER_starts_outside_space : starts_outside NUMBER space.
Proof.
  apply starts_outside_In. intros c Hc. apply number_space_false, Hc.
Qed.

Lemma close_starts_outside_space r :
  starts_outside (literal true (lit "close") +++ r)%re space.
Proof.
  apply (@starts_outside_literal true 99%N (lit "lose")).
  apply flip_disjoint. exact c_not_space.
Qed.

Lemma three_starts_outside_space r :
  starts_outside (literal false (lit "3") +++ r)%re space.
Proof.
  apply (@starts_outside_literal false 51%N []).
  apply flip_disjoint. exact three_not_space.
Qed.

Lemma dot_starts_outside_decimal r :
  starts_outside (In dot +++ r)%re decimal.
Proof. apply starts_outside_In, flip_disjoint, dot_not_decimal. Qed.

Lemma STOCK_greedy_longest : greedy_longest STOCK_PREV_CLOSE_PATTERN.
Proof.
  apply tail_longest_greedy. unfold STOCK_PREV_CLOSE_PATTERN.
  apply tail_longest_literal, tail_longest_repeat;
    [apply close_starts_outside_space|].
  apply tail_longest_literal, tail_longest_repeat;
    [apply starts_outside_Group, NUMBER_starts_outside_space|].
  apply tail_longest_number_group.
Qed.

Lemma VERSION_greedy_longest : greedy_longest PYTHON_VERSION_PATTERN.
Proof.
  apply tail_longest_greedy. unfold PYTHON_VERSION_PATTERN.
  apply tail_longest_literal, tail_longest_repeat;
    [apply three_starts_outside_space|].
  apply tail_longest_literal, tail_longest_In, tail_longest_repeat;
    [apply dot_starts_outside_decimal|].
  apply tail_longest_In, tail_longest_repeat_end.
Qed.

Lemma NUMBER_group_greedy_longest : greedy_longest (Group 1 NUMBER).
Proof. apply tail_longest_greedy, tail_longest_number_group. Qed.

(** The part of [STOCK_PREV_CLOSE_PATTERN] before its group. *)
Definition STOCK_FRONT : regex :=
  (literal true (lit "Previous")
   +++ Repeat 1 None space
   +++ literal true (lit "close")
   +++ Repeat 1 None space
   +++ Eps)%re.

Lemma match_here_STOCK s g0 caps :
  match_here STOCK_PREV_CLOSE_PATTERN s = Some (g0, caps) ->
  exists fr num,
    g0 = fr ++ num /\ caps = [(1, num)] /\
    Matches STOCK_FRONT fr /\ Matches NUMBER num.
Proof.
  intros H.
  assert (T : tail_group STOCK_PREV_CLOSE_PATTERN STOCK_FRONT).
  { unfold STOCK_PREV_CLOSE_PATTERN, STOCK_FRONT.
    apply tail_group_literal, tail_group_repeat;
      [apply close_starts_outside_space|].
    apply tail_group_literal, tail_group_repeat;
      [apply starts_outside_Group, NUMBER_starts_outside_space|].
    apply tail_group_number. }
  exact (T [] s [] g0 caps H).
Qed.

Lemma match_here_NUMBER_group s g0 caps :
  match_here (Group 1 NUMBER) s = Some (g0, caps) ->
  caps = [(1, g0)] /\ Matches NUMBER g0.
Proof.
  intros H.
  destruct (tail_group_number [] s [] H) as (fr & num & -> & -> & Mf & Mn).
  inversion Mf; subst. auto.
Qed.

(** A number holds no space: [.replace(" ", "")] leaves it as it is. *)
Lemma remove_space_number num :
  Matches NUMBER num -> remove_char SPACE num = num.
Proof.
  intros M.
  assert (H : Forall (fun c => c <> SPACE) num).
  { destruct (Matches_NUMBER_inv M) as (d & body & frac & -> & Hd & Hb & Hf).
    constructor.
    - apply ascii_digit_spec in Hd. unfold SPACE. lia.
    - apply Forall_app. split.
      + eapply Forall_impl; [|exact Hb]. intros c Hc ->. discriminate.
      + destruct (Matches_fraction_opt Hf)
          as [->|(d' & a & b & -> & Hd' & Ha & Hb')]; [constructor|].
        apply N.eqb_eq in Hd'. apply ascii_digit_spec in Ha, Hb'.
        unfold SPACE. repeat constructor; lia. }
  clear M. unfold remove_char. induction H as [|c l Hc Hl IH]; simpl; auto.
  destruct (N.eqb_spec c SPACE); [contradiction|]. simpl. f_equal.
  apply IH.
Qed.

Lemma char_at_start (pre : str) c rest :
  char_at (pre ++ c :: rest) (length pre) = c.
Proof. unfold char_at. apply nth_middle. Qed.

Lemma search_PRICE_spec text :
  match search PRICE_PATTERN text with
  | Some m =>
      exists sym ws num,
        first_longest PRICE_PATTERN text (m_start m) (sym :: ws ++ num) /\
        currency sym = true /\
        Forall (fun c => space c = true) ws /\
        Matches NUMBER num /\
        char_at text (m_start m) = sym /\
        remove_char SPACE (group m 1) = num
  | None => no_occurrence PRICE_PATTERN text
  end.
Proof.
  destruct (search PRICE_PATTERN text) as [m|] eqn:E;
    [|apply search_none, E].
  pose proof (@search_first_longest _ text _ PRICE_greedy_longest E) as FL.
  destruct (search_found _ _ E) as (pre & post & Ht & Hst & Hm & _ & _).
  destruct (match_here_PRICE _ Hm)
    as (sym & ws & num & post0 & _ & Hg & Hc & Hsym & Hws & _ & Hn).
  destruct (number_len_longest _ Hn) as (_ & Mn & _).
  rewrite firstn_app, Nat.sub_diag, firstn_all in Mn. simpl in Mn.
  rewrite app_nil_r in Mn.
  exists sym, ws, num. rewrite <- Hg.
  refine (conj FL (conj Hsym (conj Hws (conj Mn (conj _ _))))).
  - rewrite Ht, Hg, <- Hst. simpl. apply char_at_start.
  - unfold group. rewrite Hc. simpl. apply remove_space_number, Mn.
Qed.

Lemma search_STOCK_spec text :
  match search STOCK_PREV_CLOSE_PATTERN text with
  | Some m =>
      exists fr num,
        first_longest STOCK_PREV_CLOSE_PATTERN text (m_start m) (fr ++ num) /\
        Matches STOCK_FRONT fr /\
        Matches NUMBER num /\
        remove_char SPACE (group m 1) = num
  | None => no_occurrence STOCK_PREV_CLOSE_PATTERN text
  end.
Proof.
  destruct (search STOCK_PREV_CLOSE_PATTERN text) as [m|] eqn:E;
    [|apply search_none, E].
  pose proof (@search_first_longest _ text _ STOCK_greedy_longest E) as FL.
  destruct (search_found _ _ E) as (pre & post & Ht & Hst & Hm & _ & _).
  destruct (match_here_STOCK _ Hm) as (fr & num & Hg & Hc & Mf & Mn).
  exists fr, num. rewrite <- Hg.
  refine (conj FL (conj Mf (conj Mn _))).
  unfold group. rewrite Hc. simpl. apply remove_space_number, Mn.
Qed.

Lemma search_VERSION_spec text :
  match search PYTHON_VERSION_PATTERN text with
  | Some m =>
      first_longest PYTHON_VERSION_PATTERN text (m_start m) (group m 0)
  | None => no_occurrence PYTHON_VERSION_PATTERN text
  end.
Proof.
  destruct (search PYTHON_VERSION_PATTERN text) as [m|] eqn:E;
    [|apply search_none, E].
  exact (@search_first_longest _ text _ VERSION_greedy_longest E).
Qed.

Lemma no_occurrence_search r text :
  no_occurrence r text -> search r text = None.
Proof.
  intros H. destruct (search r text) as [m|] eqn:E; auto.
  destruct (search_found _ _ E) as (_ & _ & _ & _ & _ & Hocc & _).
  exfalso. exact (H _ _ Hocc).
Qed.

(** Two first-longest occurrences of a pattern are the same one. *)
Lemma first_longest_unique r text j m j' m' :
  first_longest r text j m -> first_longest r text j' m' ->
  j = j' /\ m = m'.
Proof.
  intros [O1 L1] [O2 L2].
  destruct (L1 _ _ O2) as [Hle1 Hlen1], (L2 _ _ O1) as [Hle2 Hlen2].
  assert (j = j') by lia. subst j'. split; auto.
  specialize (Hlen1 eq_refl). specialize (Hlen2 eq_refl).
  destruct O1 as (pre & post & Ht & Hl & _).
  destruct O2 as (pre' & post' & Ht' & Hl' & _).
  rewrite Ht in Ht'.
  destruct (app_eq_len _ _ _ _ Ht' ltac:(lia)) as [_ Heq].
  destruct (app_eq_len _ _ _ _ Heq ltac:(lia)) as [? _]. auto.
Qed.

(** *** The number of [parse_number_from_value] *)

Lemma occurs_at_Group i r text j m :
  occurs_at (Group i r) text j m <-> occurs_at r text j m.
Proof.
  split; intros (pre & post & Ht & Hl & M); exists pre, post;
    repeat split; auto.
  - inversion M; subst; auto.
  - constructor; auto.
Qed.

Lemma first_longest_Group i r text j m :
  first_longest (Group i r) text j m -> first_longest r text j m.
Proof.
  intros [O L]. split; [apply (occurs_at_Group i), O|].
  intros j' m' O'. apply L. apply occurs_at_Group, O'.
Qed.

Lemma search_NUMBER_spec value :
  match search (Group 1 NUMBER) value with
  | Some m =>
      first_longest NUMBER value (m_start m) (group m 1) /\
      Matches NUMBER (group m 1)
  | None => no_occurrence NUMBER value
  end.
Proof.
  destruct (search (Group 1 NUMBER) value) as [m|] eqn:E.
  - pose proof (@search_first_longest _ value _ NUMBER_group_greedy_longest E)
      as FL.
    destruct (search_found _ _ E) as (pre & post & Ht & Hst & Hm & _ & _).
    destruct (match_here_NUMBER_group _ Hm) as [Hc Mn].
    unfold group. rewrite Hc. simpl.
    split; [apply (first_longest_Group FL)|exact Mn].
  - intros j m O. apply (search_none E (j := j) (m := m)).
    apply occurs_at_Group, O.
Qed.

Lemma digits_value_total s : forall acc,
  Forall (fun c => ascii_digit c = true) s ->
  exists n, PyFloat.digits_value acc s = Some n.
Proof.
  induction s as [|c t IH]; intros acc H; simpl; eauto.
  inversion H as [|? ? Hc Ht]; subst. rewrite Hc. apply IH, Ht.
Qed.

Lemma split_dot_digits ds r :
  Forall (fun c => ascii_digit c = true) ds ->
  PyFloat.split_dot (ds ++ r)
  = (ds ++ fst (PyFloat.split_dot r), snd (PyFloat.split_dot r)).
Proof.
  induction 1 as [|c t Hc Ht IH]; simpl.
  - destruct (PyFloat.split_dot r); reflexivity.
  - destruct (N.eqb_spec c 46) as [->|_]; [discriminate|].
    rewrite IH. reflexivity.
Qed.

Lemma remove_comma_digits body :
  Forall (fun c => digit_or_comma c = true) body ->
  Forall (fun c => ascii_digit c = true) (remove_char COMMA body).
Proof.
  unfold remove_char. induction 1 as [|c l Hc Hl IH]; simpl; [constructor|].
  destruct (N.eqb_spec c COMMA) as [->|Hne]; simpl; auto.
  constructor; auto. unfold digit_or_comma in Hc.
  apply orb_true_iff in Hc. destruct Hc as [Hc|Hc]; auto.
  apply N.eqb_eq in Hc. contradiction.
Qed.

Lemma remove_char_app c a b :
  remove_char c (a ++ b) = remove_char c a ++ remove_char c b.
Proof. unfold remove_char. apply filter_app. Qed.

Lemma remove_char_absent c l :
  Forall (fun x => x <> c) l -> remove_char c l = l.
Proof.
  unfold remove_char. induction 1 as [|x l Hx Hl IH]; simpl; auto.
  destruct (N.eqb_spec x c); [contradiction|]. simpl. f_equal. auto.
Qed.

Lemma of_string_int ds :
  ds <> [] -> Forall (fun c => ascii_digit c = true) ds ->
  exists n, PyFloat.of_string ds = Some (PyFloat.of_decimal n 0).
Proof.
  intros Hne H. unfold PyFloat.of_string.
  replace (PyFloat.split_dot ds) with (PyFloat.split_dot (ds ++ []))
    by (now rewrite app_nil_r).
  rewrite split_dot_digits by exact H.
  cbn [PyFloat.split_dot fst snd]. rewrite app_nil_r.
  destruct ds as [|c t]; [congruence|]. cbv beta iota.
  destruct (digits_value_total 0 H) as (n & ->). eauto.
Qed.

Lemma of_string_frac ds fp :
  ds <> [] -> Forall (fun c => ascii_digit c = true) ds ->
  Forall (fun c => ascii_digit c = true) fp ->
  exists n,
    PyFloat.of_string (ds ++ 46%N :: fp)
    = Some (PyFloat.of_decimal n (length fp)).
Proof.
  intros Hne H Hfp. unfold PyFloat.of_string.
  rewrite split_dot_digits by exact H.
  cbn [PyFloat.split_dot fst snd N.eqb Pos.eqb]. rewrite app_nil_r.
  destruct ds as [|c t]; [congruence|]. cbv beta iota.
  assert (Hall : Forall (fun c => ascii_digit c = true) ((c :: t) ++ fp))
    by (apply Forall_app; auto).
  destruct (digits_value_total 0 Hall) as (n & ->). eauto.
Qed.

(** Without its commas a number is a string [float] accepts. *)
Lemma number_token_float tok :
  Matches NUMBER tok ->
  exists x, PyFloat.of_string (remove_char COMMA tok) = Some x.
Proof.
  intros M.
  destruct (Matches_NUMBER_inv M) as (d & body & frac & -> & Hd & Hb & Hf).
  clear M.
  set (ds := d :: remove_char COMMA body).
  assert (Hne : ds <> []) by discriminate.
  assert (Hds : Forall (fun c => ascii_digit c = true) ds).
  { constructor; auto. apply remove_comma_digits, Hb. }
  assert (Hrm : forall fr,
             Forall (fun c => c <> COMMA) fr ->
             remove_char COMMA (d :: body ++ fr) = ds ++ fr).
  { intros fr Hfr. unfold ds.
    change (d :: body ++ fr) with ([d] ++ body ++ fr).
    rewrite !remove_char_app, (remove_char_absent Hfr).
    rewrite (@remove_char_absent COMMA [d]); [reflexivity|].
    apply ascii_digit_spec in Hd. unfold COMMA. repeat constructor. lia. }
  clearbody ds.
  destruct (Matches_fraction_opt Hf)
    as [->|(d' & a & b & -> & Hd' & Ha & Hb')].
  - rewrite Hrm by constructor. rewrite app_nil_r.
    destruct (of_string_int Hne Hds) as (n & ->). eauto.
  - rewrite Hrm.
    2:{ apply N.eqb_eq in Hd'. apply ascii_digit_spec in Ha, Hb'.
        unfold COMMA. repeat constructor; lia. }
    apply N.eqb_eq in Hd'. subst d'.
    destruct (@of_string_frac ds [a; b] Hne Hds) as (n & ->); eauto.
Qed.

End PatternFacts.

(* ================================================================= *)
(** ** Value extraction: the strategies *)

Import PatternFacts.

Lemma extract_value_stock site text :
  value_type site = lit "stock_price" ->
  extract_value site text = extract_stock_price_value text.
Proof. unfold extract_value. intros ->. reflexivity. Qed.

Lemma extract_value_price site text :
  value_type site = lit "price" ->
  extract_value site text
  = match search PRICE_PATTERN text with
    | Some m => char_at text (m_start m) :: remove_char SPACE (group m 1)
    | None => slice_to 160 text
    end.
Proof. unfold extract_value. intros ->. reflexivity. Qed.

Lemma extract_value_version site text :
  value_type site = lit "version" ->
  extract_value site text
  = match search PYTHON_VERSION_PATTERN text with
    | Some m => group m 0
    | None => slice_to 160 text
    end.
Proof. unfold extract_value. intros ->. reflexivity. Qed.

(** The price strategy as the specification words it: the symbol
    followed by the matched digits with the commas removed. *)
Definition spec_price_extract (text : str) : str :=
  match search PRICE_PATTERN text with
  | Some m => char_at text (m_start m) :: remove_char COMMA (group m 1)
  | None => slice_to 160 text
  end.

(** Whether [extract_value] ends in [text[:160]]: always for the kinds
    without a pattern, and for the others when no pattern occurs. *)
Definition takes_fallback (site : SiteConfig) (text : str) : Prop :=
  if PyStr.eqb (value_type site) (lit "stock_price") then
    no_occurrence STOCK_PREV_CLOSE_PATTERN text /\
    no_occurrence PRICE_PATTERN text
  else if PyStr.eqb (value_type site) (lit "price") then
    no_occurrence PRICE_PATTERN text
  else if PyStr.eqb (value_type site) (lit "version") then
    no_occurrence PYTHON_VERSION_PATTERN text
  else True.

(** C2, as amended.  With kind [price], the result is taken from the
    first occurrence of [PRICE_PATTERN] in the text (the longest one at
    that place): it is the currency symbol followed by the number as it
    stands in the text, commas kept, any white space between the two
    dropped.  Without an occurrence the result is [text[:160]]. *)
Theorem C2_price_extraction (site : SiteConfig) (text : str) :
  value_type site = lit "price" ->
  (exists j sym ws num,
      first_longest PRICE_PATTERN text j (sym :: ws ++ num) /\
      CharClass.currency sym = true /\
      Forall (fun c => CharClass.space c = true) ws /\
      Matches NUMBER num /\
      extract_value site text = sym :: num)
  \/ (no_occurrence PRICE_PATTERN text /\
      extract_value site text = slice_to 160 text).
Proof.
  intros Hk. rewrite (extract_value_price _ text Hk).
  pose proof (search_PRICE_spec text) as S.
  destruct (search PRICE_PATTERN text) as [m|].
  - left. destruct S as (sym & ws & num & FL & Hs & Hw & Mn & Hc & Hg).
    exists (m_start m), sym, ws, num. rewrite Hc, Hg. auto.
  - right. auto.
Qed.

Lemma C2_price_extraction_witness :
  value_type (site_of_kind "price") = lit "price" /\
  ((exists j sym ws num,
       first_longest PRICE_PATTERN (lit "Price: $19.99 today") j
                     (sym :: ws ++ num) /\
       CharClass.currency sym = true /\
       Forall (fun c => CharClass.space c = true) ws /\
       Matches NUMBER num /\
       extract_value (site_of_kind "price") (lit "Price: $19.99 today")
       = sym :: num)
   \/ (no_occurrence PRICE_PATTERN (lit "Price: $19.99 today") /\
       extract_value (site_of_kind "price") (lit "Price: $19.99 today")
       = slice_to 160 (lit "Price: $19.99 today"))).
Proof.
  split; [reflexivity|].
  apply (C2_price_extraction (site_of_kind "price")). reflexivity.
Defined.

(** The example of the specification. *)
Example price_example :
  extract_value (site_of_kind "price") (lit "Price: $19.99 today")
  = lit "$19.99".
Proof. vm_compute. reflexivity. Qed.

(** C2 as stated fails: the commas of the matched number are kept. *)
Lemma C2_counterexample :
  extract_value (site_of_kind "price") (lit "Total: $1,234.56")
  = lit "$1,234.56" /\
  spec_price_extract (lit "Total: $1,234.56") = lit "$1234.56" /\
  extract_value (site_of_kind "price") (lit "Total: $1,234.56")
  <> spec_price_extract (lit "Total: $1,234.56").
Proof. vm_compute. repeat split; discriminate. Qed.

(** C3, as amended.  Whenever the strategy ends in its fallback (kinds
    without a pattern, or no occurrence of the pattern), the result is
    [text[:160]]: at most 160 characters, and exactly 160 when the text
    is longer. *)
Theorem C3_fallback_capped (site : SiteConfig) (text : str) :
  takes_fallback site text ->
  extract_value site text = slice_to 160 text /\
  length (extract_value site text) <= 160 /\
  (160 < length text -> length (extract_value site text) = 160).
Proof.
  intros Hf.
  assert (E : extract_value site text = slice_to 160 text).
  { unfold takes_fallback in Hf. unfold extract_value.
    destruct (PyStr.eqb (value_type site) (lit "stock_price")).
    - destruct Hf as [H1 H2]. unfold extract_stock_price_value.
      rewrite (no_occurrence_search H1), (no_occurrence_search H2).
      reflexivity.
    - destruct (PyStr.eqb (value_type site) (lit "price")).
      + rewrite (no_occurrence_search Hf). reflexivity.
      + destruct (PyStr.eqb (value_type site) (lit "version")); auto.
        rewrite (no_occurrence_search Hf). reflexivity. }
  rewrite E. unfold slice_to. rewrite length_firstn. repeat split; lia.
Qed.

Lemma C3_fallback_capped_witness :
  takes_fallback (site_of_kind "text") (repeat 97%N 200) /\
  extract_value (site_of_kind "text") (repeat 97%N 200)
  = slice_to 160 (repeat 97%N 200) /\
  length (extract_value (site_of_kind "text") (repeat 97%N 200)) <= 160 /\
  (160 < length (repeat 97%N 200) ->
   length (extract_value (site_of_kind "text") (repeat 97%N 200)) = 160).
Proof.
  split; [exact I|].
  apply (C3_fallback_capped (site_of_kind "text")). exact I.
Defined.

(** C3 as stated fails: a matched price is returned whole, however
    long. *)
Lemma C3_counterexample :
  length (extract_value (site_of_kind "price") (DOLLAR :: repeat 49%N 200))
  = 201.
Proof. vm_compute. reflexivity. Qed.

(** C4.  With kind [stock_price] the result is ["$"] followed by the
    number of the first occurrence of "Previous close <number>"
    (letters in either case); without such an occurrence it is the
    result of the price strategy, which in turn is [text[:160]] when
    no price occurs. *)
Theorem C4_stock_price_tiers (site : SiteConfig) (text : str) :
  value_type site = lit "stock_price" ->
  (exists j fr num,
      first_longest STOCK_PREV_CLOSE_PATTERN text j (fr ++ num) /\
      Matches STOCK_FRONT fr /\
      Matches NUMBER num /\
      extract_value site text = DOLLAR :: num)
  \/ (no_occurrence STOCK_PREV_CLOSE_PATTERN text /\
      extract_value site text = extract_value (site_of_kind "price") text /\
      (no_occurrence PRICE_PATTERN text ->
       extract_value site text = slice_to 160 text)).
Proof.
  intros Hk. rewrite (extract_value_stock _ text Hk).
  unfold extract_stock_price_value.
  pose proof (search_STOCK_spec text) as S.
  destruct (search STOCK_PREV_CLOSE_PATTERN text) as [m|] eqn:E.
  - left. destruct S as (fr & num & FL & Mf & Mn & Hg).
    exists (m_start m), fr, num. cbv zeta. rewrite Hg. auto.
  - right. split; [exact S|]. split.
    + rewrite (@extract_value_price (site_of_kind "price") text eq_refl).
      reflexivity.
    + intros Hn. rewrite (no_occurrence_search Hn). reflexivity.
Qed.

Lemma C4_stock_price_tiers_witness :
  value_type (site_of_kind "stock_price") = lit "stock_price" /\
  ((exists j fr num,
       first_longest STOCK_PREV_CLOSE_PATTERN
         (lit "MSFT Previous close 417.20 Open 415.00") j (fr ++ num) /\
       Matches STOCK_FRONT fr /\
       Matches NUMBER num /\
       extract_value (site_of_kind "stock_price")
         (lit "MSFT Previous close 417.20 Open 415.00") = DOLLAR :: num)
   \/ (no_occurrence STOCK_PREV_CLOSE_PATTERN
         (lit "MSFT Previous close 417.20 Open 415.00") /\
       extract_value (site_of_kind "stock_price")
         (lit "MSFT Previous close 417.20 Open 415.00")
       = extract_value (site_of_kind "price")
           (lit "MSFT Previous close 417.20 Open 415.00") /\
       (no_occurrence PRICE_PATTERN
          (lit "MSFT Previous close 417.20 Open 415.00") ->
        extract_value (site_of_kind "stock_price")
          (lit "MSFT Previous close 417.20 Open 415.00")
        = slice_to 160 (lit "MSFT Previous close 417.20 Open 415.00")))).
Proof.
  split; [reflexivity|].
  apply (C4_stock_price_tiers (site_of_kind "stock_price")). reflexivity.
Defined.

(** The example of the specification, the same under another case and
    another currency around it, and the two lower tiers. *)
Example stock_example :
  extract_value (site_of_kind "stock_price")
    (lit "MSFT Previous close 417.20 Open 415.00") = lit "$417.20".
Proof. vm_compute. reflexivity. Qed.

Example stock_example_case :
  extract_value (site_of_kind "stock_price")
    (lit "PREVIOUS   Close 1,417.20 GBP") = lit "$1,417.20".
Proof. vm_compute. reflexivity. Qed.

Example stock_example_price_tier :
  extract_value (site_of_kind "stock_price") (lit "Last $ 12.5")
  = lit "$12".
Proof. vm_compute. reflexivity. Qed.

Example stock_example_snippet_tier :
  extract_value (site_of_kind "stock_price") (lit "Market closed")
  = lit "Market closed".
Proof. vm_compute. reflexivity. Qed.

(** C8.  With kind [version] the result is the first occurrence of
    [PYTHON_VERSION_PATTERN] in the text, whole (the longest one at
    that place), or [text[:160]] when there is none. *)
Theorem C8_version_extraction (site : SiteConfig) (text : str) :
  value_type site = lit "version" ->
  (exists j m,
      first_longest PYTHON_VERSION_PATTERN text j m /\
      extract_value site text = m)
  \/ (no_occurrence PYTHON_VERSION_PATTERN text /\
      extract_value site text = slice_to 160 text).
Proof.
  intros Hk. rewrite (extract_value_version _ text Hk).
  pose proof (search_VERSION_spec text) as S.
  destruct (search PYTHON_VERSION_PATTERN text) as [m|].
  - left. exists (m_start m), (group m 0). auto.
  - right. auto.
Qed.

Lemma C8_version_extraction_witness :
  value_type (site_of_kind "version") = lit "version" /\
  ((exists j m,
       first_longest PYTHON_VERSION_PATTERN
         (lit "Download Python 3.13.2 now") j m /\
       extract_value (site_of_kind "version")
         (lit "Download Python 3.13.2 now") = m)
   \/ (no_occurrence PYTHON_VERSION_PATTERN
         (lit "Download Python 3.13.2 now") /\
       extract_value (site_of_kind "version")
         (lit "Download Python 3.13.2 now")
       = slice_to 160 (lit "Download Python 3.13.2 now"))).
Proof.
  split; [reflexivity|].
  apply (C8_version_extraction (site_of_kind "version")). reflexivity.
Defined.

Example version_example :
  extract_value (site_of_kind "version") (lit "Download Python 3.13.2 now")
  = lit "Python 3.13.2".
Proof. vm_compute. reflexivity. Qed.

Example version_example_absent :
  extract_value (site_of_kind "version") (lit "Download Python 2.7 now")
  = lit "Download Python 2.7 now".
Proof. vm_compute. reflexivity. Qed.

(* ================================================================= *)
(** ** Floats on amounts of money

    [float], the subtraction and the formatting, followed through the
    rounding of [SpecFloat]: on amounts of hundredths below [10^14] the
    difference shown is the exact one. *)

Unset Implicit Arguments.

Module FloatFacts.
Import PyFloat.
Local Open Scope Z_scope.

Lemma digits2_pos_bounds p :
  2 ^ (Zpos (digits2_pos p) - 1) <= Zpos p < 2 ^ Zpos (digits2_pos p).
Proof.
  induction p as [p IH|p IH|]; cbn [digits2_pos].
  - rewrite Pos2Z.inj_succ.
    replace (Z.succ (Zpos (digits2_pos p)) - 1)
      with (Z.succ (Zpos (digits2_pos p) - 1)) by lia.
    rewrite !Z.pow_succ_r by lia. lia.
  - rewrite Pos2Z.inj_succ.
    replace (Z.succ (Zpos (digits2_pos p)) - 1)
      with (Z.succ (Zpos (digits2_pos p) - 1)) by lia.
    rewrite !Z.pow_succ_r by lia. lia.
  - cbn. lia.
Qed.

Lemma Zdigits2_bounds m :
  0 < m -> 2 ^ (Zdigits2 m - 1) <= m < 2 ^ Zdigits2 m.
Proof.
  destruct m as [|p|p]; try lia. intros _. apply digits2_pos_bounds.
Qed.

Lemma Zdigits2_pos m : 0 < m -> 0 < Zdigits2 m.
Proof. destruct m; simpl; lia. Qed.

Lemma Zdigits2_unique m d :
  0 < d -> 2 ^ (d - 1) <= m < 2 ^ d -> Zdigits2 m = d.
Proof.
  intros Hd [Hlo Hhi].
  assert (Hm : 0 < m).
  { pose proof (Z.pow_pos_nonneg 2 (d - 1)). lia. }
  pose proof (Zdigits2_bounds m Hm) as [Hlo' Hhi'].
  pose proof (Zdigits2_pos m Hm) as Hp.
  destruct (Z.lt_trichotomy (Zdigits2 m) d) as [Hlt|[Heq|Hgt]]; auto.
  - pose proof (Z.pow_le_mono_r 2 (Zdigits2 m) (d - 1)). lia.
  - pose proof (Z.pow_le_mono_r 2 d (Zdigits2 m - 1)). lia.
Qed.

(** A shift record for the quotient of [N] by [Dn]: the integer part,
    whether the rest is a half or more, and whether it is neither none
    nor a half. *)
Definition repr (N Dn : Z) (mrs : shr_record) : Prop :=
  shr_m mrs = N / Dn /\
  shr_r mrs = (Dn <=? 2 * (N mod Dn)) /\
  shr_s mrs = negb ((N mod Dn =? 0) || (2 * (N mod Dn) =? Dn)).

Ltac bools :=
  repeat match goal with
         | |- context [?a <=? ?b] => destruct (Z.leb_spec a b)
         | |- context [?a =? ?b] => destruct (Z.eqb_spec a b)
         | H : context [?a <=? ?b] |- _ => destruct (Z.leb_spec a b)
         | H : context [?a =? ?b] |- _ => destruct (Z.eqb_spec a b)
         end;
  cbn [negb orb andb] in *; try discriminate; try reflexivity; try lia.

Lemma shr_1_repr N Dn mrs :
  0 <= N -> 0 < Dn -> repr N Dn mrs -> repr N (2 * Dn) (shr_1 mrs).
Proof.
  intros HN HD. destruct mrs as [m r s]. unfold repr. cbn [shr_m shr_r shr_s].
  intros (Hm & Hr & Hs).
  pose proof (Z.mod_pos_bound N Dn HD) as Hb.
  assert (Hq : 0 <= N / Dn) by (apply Z.div_pos; lia).
  assert (Hdiv : N / (2 * Dn) = (N / Dn) / 2).
  { rewrite (Z.mul_comm 2 Dn), Z.div_div by lia. reflexivity. }
  assert (Hmod : N mod (2 * Dn) = N mod Dn + Dn * ((N / Dn) mod 2)).
  { rewrite (Z.mul_comm 2 Dn). apply Z.rem_mul_r; lia. }
  rewrite Hdiv, Hmod. rewrite <- Hm in *. clear Hdiv Hmod.
  assert (Hrs : (r || s)%bool = negb (N mod Dn =? 0)).
  { rewrite Hr, Hs. bools. }
  destruct m as [|[p|p|]|p]; try lia; cbn [shr_1 shr_m shr_r shr_s];
    rewrite Hrs.
  - change (0 / 2) with 0. change (0 mod 2) with 0. repeat split; bools.
  - (* 2p+1 *)
    assert (E1 : Zpos p~1 / 2 = Zpos p).
    { rewrite (Pos2Z.inj_xI p). symmetry.
      apply (Z.div_unique_pos (2 * Zpos p + 1) 2 (Zpos p) 1); lia. }
    assert (E2 : Zpos p~1 mod 2 = 1).
    { rewrite (Pos2Z.inj_xI p). symmetry.
      apply (Z.mod_unique_pos (2 * Zpos p + 1) 2 (Zpos p) 1); lia. }
    rewrite E1, E2. repeat split; bools.
  - assert (E1 : Zpos p~0 / 2 = Zpos p).
    { rewrite (Pos2Z.inj_xO p). symmetry.
      apply (Z.div_unique_pos (2 * Zpos p) 2 (Zpos p) 0); lia. }
    assert (E2 : Zpos p~0 mod 2 = 0).
    { rewrite (Pos2Z.inj_xO p). symmetry.
      apply (Z.mod_unique_pos (2 * Zpos p) 2 (Zpos p) 0); lia. }
    rewrite E1, E2. repeat split; bools.
  - change (1 / 2) with 0. change (1 mod 2) with 1. repeat split; bools.
Qed.

Lemma iter_shr_repr n : forall N Dn mrs,
  0 <= N -> 0 < Dn -> repr N Dn mrs ->
  repr N (Dn * 2 ^ Zpos n) (iter_pos shr_1 n mrs).
Proof.
  induction n as [n IH|n IH|]; intros N Dn mrs HN HD H; cbn [iter_pos].
  - replace (Dn * 2 ^ Zpos n~1)
      with (2 * Dn * 2 ^ Zpos n * 2 ^ Zpos n).
    + assert (0 < 2 ^ Zpos n) by (apply Z.pow_pos_nonneg; lia).
      apply IH; [lia|nia|]. apply IH; [lia|lia|].
      apply shr_1_repr; auto.
    + rewrite (Pos2Z.inj_xI n).
      replace (2 * Zpos n + 1) with (Zpos n + Zpos n + 1) by lia.
      rewrite !Z.pow_add_r by lia. change (2 ^ 1) with 2. ring.
  - replace (Dn * 2 ^ Zpos n~0) with (Dn * 2 ^ Zpos n * 2 ^ Zpos n).
    + assert (0 < 2 ^ Zpos n) by (apply Z.pow_pos_nonneg; lia).
      apply IH; [lia|nia|]. apply IH; auto.
    + rewrite (Pos2Z.inj_xO n).
      replace (2 * Zpos n) with (Zpos n + Zpos n) by lia.
      rewrite !Z.pow_add_r by lia. ring.
  - change (2 ^ 1) with 2. rewrite Z.mul_comm. apply shr_1_repr; auto.
Qed.

Lemma shr_repr N Dn mrs e n :
  0 <= N -> 0 < Dn -> 0 <= n -> repr N Dn mrs ->
  repr N (Dn * 2 ^ n) (fst (shr mrs e n)) /\ snd (shr mrs e n) = e + n.
Proof.
  intros HN HD Hn H. destruct n as [|p|p]; try lia; cbn [shr fst snd].
  - rewrite Z.mul_1_r. split; [exact H|lia].
  - split; [apply iter_shr_repr; auto|reflexivity].
Qed.

Lemma rne_repr N Dn mrs :
  0 <= N -> 0 < Dn -> repr N Dn mrs ->
  let M := round_nearest_even (shr_m mrs) (loc_of_shr_record mrs) in
  N / Dn <= M <= N / Dn + 1 /\
  2 * Z.abs (M * Dn - N) <= Dn /\
  (N mod Dn = 0 -> M * Dn = N).
Proof.
  intros HN HD. destruct mrs as [m r s]. unfold repr. cbn [shr_m shr_r shr_s].
  intros (Hm & Hr & Hs).
  pose proof (Z.mod_pos_bound N Dn HD) as Hb.
  pose proof (Z.div_mod N Dn ltac:(lia)) as Hdm.
  subst m. set (q := N / Dn) in *. set (r0 := N mod Dn) in *.
  assert (Hq : q * Dn = N - r0) by lia.
  destruct r, s; cbn [loc_of_shr_record round_nearest_even].
  - (* Gt *)
    assert (Dn <= 2 * r0 /\ r0 <> 0 /\ 2 * r0 <> Dn) as (? & ? & ?).
    { symmetry in Hr, Hs. revert Hr Hs. bools. }
    replace ((q + 1) * Dn - N) with (Dn - r0) by lia.
    repeat split; lia.
  - assert (2 * r0 = Dn).
    { symmetry in Hr, Hs. revert Hr Hs. bools. }
    destruct (Z.even q).
    + replace (q * Dn - N) with (- r0) by lia. repeat split; lia.
    + replace ((q + 1) * Dn - N) with (Dn - r0) by lia.
      repeat split; lia.
  - assert (2 * r0 < Dn).
    { symmetry in Hr, Hs. revert Hr Hs. bools. }
    replace (q * Dn - N) with (- r0) by lia. repeat split; lia.
  - assert (r0 = 0).
    { symmetry in Hr, Hs. revert Hr Hs. bools. }
    replace (q * Dn - N) with (- r0) by lia. repeat split; lia.
Qed.

Lemma fexp_normal e : -1074 <= e - 53 -> fexp prec emax e = e - 53.
Proof. unfold fexp, emin, prec, emax. lia. Qed.

Lemma shr_m_of_loc m l : shr_m (shr_record_of_loc m l) = m.
Proof. destruct l as [|[]]; reflexivity. Qed.

Lemma repr_exact m : repr m 1 (shr_record_of_loc m loc_Exact).
Proof.
  unfold repr. cbn [shr_record_of_loc shr_m shr_r shr_s].
  rewrite Z.div_1_r, Z.mod_1_r. repeat split.
Qed.

Lemma mod_mul_divisor N a b :
  0 < a -> 0 < b -> N mod (a * b) = 0 -> N mod a = 0.
Proof.
  intros Ha Hb H. apply Z.mod_divide in H; [|lia].
  apply Z.mod_divide; [lia|].
  destruct H as [k ->]. exists (k * b). ring.
Qed.

(** The rounding of a quotient whose integer part has 53 bits or more,
    in the range of the normal numbers: the mantissa is the nearest
    integer at the new exponent, and exact when the division is. *)
Lemma round_aux_spec sx mx ex lx N Dn :
  0 <= N -> 0 < Dn ->
  repr N Dn (shr_record_of_loc mx lx) ->
  53 <= Zdigits2 mx ->
  -1074 <= ex + (Zdigits2 mx - 53) ->
  ex + (Zdigits2 mx - 53) + 1 <= 971 ->
  exists M E,
    binary_round_aux prec emax sx mx ex lx = S754_finite sx M E /\
    2 ^ 52 <= Zpos M < 2 ^ 53 /\
    ex + (Zdigits2 mx - 53) <= E <= ex + (Zdigits2 mx - 53) + 1 /\
    2 * Z.abs (Zpos M * (Dn * 2 ^ (E - ex)) - N) <= Dn * 2 ^ (E - ex) /\
    (N mod (Dn * 2 ^ (E - ex)) = 0 -> Zpos M * (Dn * 2 ^ (E - ex)) = N).
Proof.
  intros HN HD R Hd Hlo Hhi.
  set (s := Zdigits2 mx - 53) in *.
  assert (Hs : 0 <= s) by lia.
  assert (Hmx : mx = N / Dn).
  { destruct R as [R _]. now rewrite shr_m_of_loc in R. }
  assert (Hpos : 0 < mx).
  { assert (0 <= mx) by (rewrite Hmx; apply Z.div_pos; lia).
    destruct (Z.eq_dec mx 0) as [E0|]; [|lia].
    rewrite E0 in Hd. cbn in Hd. lia. }
  pose proof (Zdigits2_bounds mx Hpos) as [Bl Bh].
  replace (Zdigits2 mx - 1) with (52 + s) in Bl by lia.
  replace (Zdigits2 mx) with (53 + s) in Bh by lia.
  rewrite Z.pow_add_r in Bl, Bh by lia.
  assert (P2 : 0 < 2 ^ s) by (apply Z.pow_pos_nonneg; lia).
  unfold binary_round_aux, shr_fexp.
  rewrite fexp_normal by lia.
  replace (Zdigits2 mx + ex - 53 - ex) with s by lia.
  destruct (shr_repr N Dn (shr_record_of_loc mx lx) ex s HN HD Hs R)
    as [R1 E1].
  destruct (shr (shr_record_of_loc mx lx) ex s) as [mrs' e'].
  cbn [fst snd] in R1, E1. subst e'.
  assert (HD1 : 0 < Dn * 2 ^ s) by nia.
  destruct (rne_repr N (Dn * 2 ^ s) mrs' HN HD1 R1) as (Hb & Herr & Hex).
  set (M1 := round_nearest_even (shr_m mrs') (loc_of_shr_record mrs')) in *.
  assert (Hq : 2 ^ 52 <= N / (Dn * 2 ^ s) < 2 ^ 53).
  { rewrite <- Z.div_div by lia. rewrite <- Hmx. split.
    - apply Z.div_le_lower_bound; lia.
    - apply Z.div_lt_upper_bound; lia. }
  assert (HM1 : 2 ^ 52 <= M1 <= 2 ^ 53) by lia.
  destruct (Z.eq_dec M1 (2 ^ 53)) as [Heq|Hne].
  - (* the mantissa was rounded up to the next power of two *)
    rewrite Heq in *.
    change (Zdigits2 (2 ^ 53)) with 54.
    rewrite fexp_normal by lia.
    replace (54 + (ex + s) - 53 - (ex + s)) with 1 by lia.
    exists (Z.to_pos (2 ^ 52)), (ex + s + 1).
    assert (Hle : (ex + s + 1 <=? emax - prec) = true).
    { apply Z.leb_le. unfold emax, prec. lia. }
    split.
    { replace (shr (shr_record_of_loc (2 ^ 53) loc_Exact) (ex + s) 1)
        with ({| shr_m := Zpos (Z.to_pos (2 ^ 52));
                 shr_r := false; shr_s := false |}, ex + s + 1)
        by reflexivity.
      cbn [shr_m]. now rewrite Hle. }
    change (Zpos (Z.to_pos (2 ^ 52))) with (2 ^ 52).
    replace (ex + s + 1 - ex) with (s + 1) by lia.
    rewrite Z.pow_add_r by lia. change (2 ^ 1) with 2.
    split; [lia|]. split; [lia|]. split.
    + replace (2 ^ 52 * (Dn * (2 ^ s * 2))) with (2 ^ 53 * (Dn * 2 ^ s))
        by (change (2 ^ 53) with (2 ^ 52 * 2); ring).
      lia.
    + intros Hm.
      replace (2 ^ 52 * (Dn * (2 ^ s * 2))) with (2 ^ 53 * (Dn * 2 ^ s))
        by (change (2 ^ 53) with (2 ^ 52 * 2); ring).
      apply Hex.
      apply (mod_mul_divisor N (Dn * 2 ^ s) 2); [lia|lia|].
      rewrite <- Hm. f_equal. ring.
  - assert (Hd1 : Zdigits2 M1 = 53).
    { apply Zdigits2_unique; [lia|]. change (53 - 1) with 52. lia. }
    rewrite Hd1. rewrite fexp_normal by lia.
    replace (53 + (ex + s) - 53 - (ex + s)) with 0 by lia.
    cbn [shr shr_record_of_loc shr_m].
    destruct M1 as [|M|M] eqn:EM; try lia.
    exists M, (ex + s).
    assert (Hle : (ex + s <=? emax - prec) = true).
    { apply Z.leb_le. unfold emax, prec. lia. }
    rewrite Hle. split; [reflexivity|].
    replace (ex + s - ex) with s by lia.
    split; [lia|]. split; [lia|]. split; [exact Herr|exact Hex].
Qed.

(** *** The division of [of_decimal] *)

Lemma new_location_repr N dd :
  0 <= N -> 0 < dd -> Z.even dd = true \/ dd = 1 ->
  repr N dd (shr_record_of_loc (N / dd) (new_location dd (N mod dd))).
Proof.
  intros HN HD Hdd. unfold repr. rewrite shr_m_of_loc.
  split; [reflexivity|].
  pose proof (Z.mod_pos_bound N dd HD) as Hb.
  destruct Hdd as [He| ->].
  - unfold new_location. rewrite He. unfold new_location_even.
    destruct (Z.eqb_spec (N mod dd) 0) as [E0|E0].
    + rewrite E0. cbn [shr_record_of_loc shr_r shr_s]. split; bools.
    + destruct (Z.compare_spec (2 * (N mod dd)) dd);
        cbn [shr_record_of_loc shr_r shr_s]; split; bools.
  - rewrite Z.mod_1_r. cbn. split; reflexivity.
Qed.

Lemma div_core_eq p dd :
  Zdigits2 (Zpos p) <= 53 -> Zdigits2 (Zpos dd) <= 7 ->
  let sh := 53 + Zdigits2 (Zpos dd) - Zdigits2 (Zpos p) in
  SFdiv_core_binary prec emax (Zpos p) 0 (Zpos dd) 0
  = (Zpos p * 2 ^ sh / Zpos dd, - sh,
     new_location (Zpos dd) ((Zpos p * 2 ^ sh) mod Zpos dd)).
Proof.
  intros H1 H2 sh. unfold SFdiv_core_binary.
  pose proof (Zdigits2_pos (Zpos p) ltac:(lia)) as P1.
  pose proof (Zdigits2_pos (Zpos dd) ltac:(lia)) as P2.
  rewrite !Z.add_0_r. rewrite fexp_normal by lia.
  change (0 - 0) with 0.
  assert (Hmin : Z.min (Zdigits2 (Zpos p) - Zdigits2 (Zpos dd) - 53) 0
                 = - sh) by (unfold sh; lia).
  rewrite Hmin. replace (0 - - sh) with sh by lia.
  assert (Hsh : 0 < sh) by (unfold sh; lia).
  destruct sh as [|q|q] eqn:Esh; try lia.
  rewrite Z.shiftl_mul_pow2 by lia.
  unfold Z.div, Z.modulo.
  destruct (Z.div_eucl (Zpos p * 2 ^ Zpos q) (Zpos dd)) as [a b].
  reflexivity.
Qed.

(** The float of a quotient, on the scale of [2^-120]: the nearest at
    its exponent, and the quotient itself when the division is exact. *)
Lemma div_spec p dd :
  Zpos p < 2 ^ 50 -> Zdigits2 (Zpos dd) <= 7 ->
  Z.even (Zpos dd) = true \/ Zpos dd = 1 ->
  exists M E,
    SFdiv prec emax (S754_finite false p 0) (S754_finite false dd 0)
    = S754_finite false M E /\
    2 ^ 52 <= Zpos M < 2 ^ 53 /\
    -59 <= E <= Zdigits2 (Zpos p) - Zdigits2 (Zpos dd) - 51 /\
    2 * Z.abs (Zpos dd * (Zpos M * 2 ^ (E + 120)) - Zpos p * 2 ^ 120)
    <= Zpos dd * 2 ^ (E + 120) /\
    (Zpos p mod Zpos dd = 0 ->
     Zpos dd * (Zpos M * 2 ^ (E + 120)) = Zpos p * 2 ^ 120).
Proof.
  intros Hp H2 Hdd.
  pose proof (Zdigits2_pos (Zpos p) ltac:(lia)) as P1.
  pose proof (Zdigits2_pos (Zpos dd) ltac:(lia)) as P2.
  pose proof (Zdigits2_bounds (Zpos p) ltac:(lia)) as [Bl Bh].
  pose proof (Zdigits2_bounds (Zpos dd) ltac:(lia)) as [Cl Ch].
  assert (H1 : Zdigits2 (Zpos p) <= 50).
  { destruct (Z_le_gt_dec (Zdigits2 (Zpos p)) 50) as [|Hgt]; auto.
    pose proof (Z.pow_le_mono_r 2 50 (Zdigits2 (Zpos p) - 1)). lia. }
  set (d1 := Zdigits2 (Zpos p)) in *. set (d2 := Zdigits2 (Zpos dd)) in *.
  unfold SFdiv. rewrite div_core_eq by (fold d1; fold d2; lia).
  fold d1. fold d2. set (sh := 53 + d2 - d1).
  assert (Hsh : 4 <= sh <= 59) by (unfold sh; lia).
  set (N := Zpos p * 2 ^ sh).
  assert (Psh : 0 < 2 ^ sh) by (apply Z.pow_pos_nonneg; lia).
  assert (HN : 0 <= N) by (unfold N; nia).
  (* the size of the quotient *)
  assert (Nl : 2 ^ (52 + d2) <= N).
  { unfold N. replace (52 + d2) with (d1 - 1 + sh) by (unfold sh; lia).
    rewrite Z.pow_add_r by lia. nia. }
  assert (Nh : N < 2 ^ (53 + d2)).
  { unfold N. replace (53 + d2) with (d1 + sh) by (unfold sh; lia).
    rewrite Z.pow_add_r by lia. nia. }
  assert (Ql : 2 ^ 52 <= N / Zpos dd).
  { apply Z.div_le_lower_bound; [lia|].
    rewrite Z.pow_add_r in Nl by lia. nia. }
  assert (Qh : N / Zpos dd < 2 ^ 54).
  { apply Z.div_lt_upper_bound; [lia|].
    replace (53 + d2) with (d2 - 1 + 54) in Nh by lia.
    rewrite Z.pow_add_r in Nh by lia. nia. }
  assert (Hdq : Zdigits2 (N / Zpos dd) = 53 \/ Zdigits2 (N / Zpos dd) = 54).
  { destruct (Z_lt_le_dec (N / Zpos dd) (2 ^ 53)).
    - left. apply Zdigits2_unique; [lia|]. change (53 - 1) with 52. lia.
    - right. apply Zdigits2_unique; [lia|]. change (54 - 1) with 53. lia. }
  destruct (round_aux_spec (xorb false false) (N / Zpos dd) (- sh)
              (new_location (Zpos dd) (N mod Zpos dd)) N (Zpos dd)
              HN ltac:(lia) (new_location_repr N (Zpos dd) HN ltac:(lia) Hdd)
              ltac:(lia) ltac:(lia) ltac:(lia))
    as (M & E & Hr & HM & HE & Herr & Hex).
  exists M, E. split; [exact Hr|]. split; [exact HM|].
  split; [unfold sh in *; lia|].
  set (t := E - - sh) in *.
  assert (Ht : 0 <= t <= 2) by (unfold t; lia).
  assert (Pt : 0 < 2 ^ t) by (apply Z.pow_pos_nonneg; lia).
  set (K := 2 ^ (120 - sh)).
  assert (PK : 0 < K) by (apply Z.pow_pos_nonneg; lia).
  assert (E1 : 2 ^ (E + 120) = 2 ^ t * K).
  { unfold K. rewrite <- Z.pow_add_r by lia. f_equal. unfold t. lia. }
  assert (E2 : 2 ^ 120 = 2 ^ sh * K).
  { unfold K. rewrite <- Z.pow_add_r by lia. f_equal. lia. }
  rewrite E1, E2.
  replace (Zpos dd * (Zpos M * (2 ^ t * K)) - Zpos p * (2 ^ sh * K))
    with (K * (Zpos M * (Zpos dd * 2 ^ t) - N)) by (unfold N; ring).
  split.
  - rewrite Z.abs_mul, (Z.abs_eq K) by lia.
    replace (Zpos dd * (2 ^ t * K)) with (K * (Zpos dd * 2 ^ t)) by ring.
    apply (Z.mul_le_mono_nonneg_l _ _ K) in Herr; lia.
  - intros Hmod.
    assert (Hdiv : N mod (Zpos dd * 2 ^ t) = 0).
    { apply Z.mod_divide; [nia|].
      apply Z.mod_divide in Hmod; [|lia]. destruct Hmod as [k Hk].
      exists (k * 2 ^ (sh - t)). unfold N. rewrite Hk.
      replace (2 ^ sh) with (2 ^ (sh - t) * 2 ^ t).
      - ring.
      - rewrite <- Z.pow_add_r by lia. f_equal. lia. }
    specialize (Hex Hdiv).
    replace (Zpos dd * (Zpos M * (2 ^ t * K)))
      with (K * (Zpos M * (Zpos dd * 2 ^ t))) by ring.
    rewrite Hex. unfold N. ring.
Qed.

(** *** The subtraction *)

Lemma iter_xO m d : Zpos (Pos.iter xO m d) = Zpos m * 2 ^ Zpos d.
Proof.
  induction d as [|d IH] using Pos.peano_ind.
  - cbn [Pos.iter]. rewrite Pos2Z.inj_xO. change (2 ^ 1) with 2. lia.
  - rewrite Pos.iter_succ, Pos2Z.inj_xO, IH, Pos2Z.inj_succ.
    rewrite Z.pow_succ_r by lia. ring.
Qed.

Lemma shl_align_value m e ez :
  ez <= e ->
  Zpos (fst (shl_align m e ez)) = Zpos m * 2 ^ (e - ez) /\
  (ez < e -> snd (shl_align m e ez) = ez).
Proof.
  intros H. unfold shl_align.
  destruct (ez - e) as [|d|d] eqn:Ed; try lia; cbn [fst snd].
  - replace (e - ez) with 0 by lia. rewrite Z.mul_1_r. split; [auto|lia].
  - rewrite iter_xO. replace (e - ez) with (Zpos d) by lia. auto.
Qed.

(** [binary_round] of a positive integer at an exponent between -60 and
    0, on the scale of [2^-120]. *)
Lemma binary_round_spec sx m e :
  -60 <= e <= 0 -> Zpos (digits2_pos m) <= 200 ->
  exists M E,
    binary_round prec emax sx m e = S754_finite sx M E /\
    2 ^ 52 <= Zpos M < 2 ^ 53 /\
    -112 <= E <= e + Zpos (digits2_pos m) - 52 /\
    2 * Z.abs (Zpos M * 2 ^ (E + 120) - Zpos m * 2 ^ (e + 120))
    <= 2 ^ (E + 120).
Proof.
  intros He Hd. unfold binary_round.
  set (d := Zpos (digits2_pos m)) in *.
  assert (Hd0 : 0 < d) by (unfold d; lia).
  pose proof (digits2_pos_bounds m) as [Bl Bh]. fold d in Bl, Bh.
  rewrite fexp_normal by lia.
  destruct (Z_lt_le_dec d 53) as [Hsmall|Hlarge].
  - (* fewer than 53 bits: the mantissa is shifted up, nothing is lost *)
    destruct (shl_align_value m e (d + e - 53) ltac:(lia)) as [Hv Hs].
    specialize (Hs ltac:(lia)).
    destruct (shl_align m e (d + e - 53)) as [mz ez].
    cbn [fst snd] in Hv, Hs. subst ez.
    replace (e - (d + e - 53)) with (53 - d) in Hv by lia.
    assert (P : 0 < 2 ^ (53 - d)) by (apply Z.pow_pos_nonneg; lia).
    assert (Hdz : Zdigits2 (Zpos mz) = 53).
    { apply Zdigits2_unique; [lia|]. rewrite Hv. change (53 - 1) with 52.
      replace 52 with (d - 1 + (53 - d)) at 1 by lia.
      replace 53 with (d + (53 - d)) at 4 by lia.
      rewrite !Z.pow_add_r by lia. nia. }
    destruct (round_aux_spec sx (Zpos mz) (d + e - 53) loc_Exact
                (Zpos mz) 1 ltac:(lia) ltac:(lia) (repr_exact _)
                ltac:(lia) ltac:(lia) ltac:(lia))
      as (M & E & Hr & HM & HE & Herr & Hex).
    rewrite Hdz in HE.
    exists M, E. split; [exact Hr|]. split; [exact HM|].
    split; [lia|].
    assert (Ht : 0 <= E - (d + e - 53) <= 1) by lia.
    set (t := E - (d + e - 53)) in *.
    assert (Pt : 0 < 2 ^ t) by (apply Z.pow_pos_nonneg; lia).
    rewrite Z.mul_1_l in Herr.
    set (K := 2 ^ (d + e - 53 + 120)).
    assert (PK : 0 < K) by (apply Z.pow_pos_nonneg; lia).
    assert (E1 : 2 ^ (E + 120) = 2 ^ t * K).
    { unfold K. rewrite <- Z.pow_add_r by lia. f_equal. unfold t. lia. }
    assert (E2 : Zpos m * 2 ^ (e + 120) = Zpos mz * K).
    { rewrite Hv. unfold K.
      replace (e + 120) with (53 - d + (d + e - 53 + 120)) by lia.
      rewrite Z.pow_add_r by lia. ring. }
    rewrite E1, E2.
    replace (Zpos M * (2 ^ t * K) - Zpos mz * K)
      with (K * (Zpos M * 2 ^ t - Zpos mz)) by ring.
    rewrite Z.abs_mul, (Z.abs_eq K) by lia.
    replace (2 ^ t * K) with (K * 2 ^ t) by ring.
    apply (Z.mul_le_mono_nonneg_l _ _ K) in Herr; lia.
  - (* 53 bits or more: the mantissa is rounded *)
    assert (Hsh : shl_align m e (d + e - 53) = (m, e)).
    { unfold shl_align. destruct (d + e - 53 - e) eqn:Ed; auto. lia. }
    rewrite Hsh.
    assert (Hdz : Zdigits2 (Zpos m) = d) by reflexivity.
    destruct (round_aux_spec sx (Zpos m) e loc_Exact
                (Zpos m) 1 ltac:(lia) ltac:(lia) (repr_exact _)
                ltac:(lia) ltac:(lia) ltac:(lia))
      as (M & E & Hr & HM & HE & Herr & Hex).
    rewrite Hdz in HE.
    exists M, E. split; [exact Hr|]. split; [exact HM|].
    split; [lia|].
    set (t := E - e) in *.
    assert (Ht : 0 <= t) by (unfold t; lia).
    assert (Pt : 0 < 2 ^ t) by (apply Z.pow_pos_nonneg; lia).
    rewrite Z.mul_1_l in Herr.
    set (K := 2 ^ (e + 120)).
    assert (PK : 0 < K) by (apply Z.pow_pos_nonneg; lia).
    assert (E1 : 2 ^ (E + 120) = 2 ^ t * K).
    { unfold K. rewrite <- Z.pow_add_r by lia. f_equal. unfold t. lia. }
    rewrite E1.
    replace (Zpos M * (2 ^ t * K) - Zpos m * K)
      with (K * (Zpos M * 2 ^ t - Zpos m)) by ring.
    rewrite Z.abs_mul, (Z.abs_eq K) by lia.
    replace (2 ^ t * K) with (K * 2 ^ t) by ring.
    apply (Z.mul_le_mono_nonneg_l _ _ K) in Herr; lia.
Qed.

(** The value of a finite float on the scale of [2^-120]. *)
Definition scaled (m : positive) (e : Z) : Z := Zpos m * 2 ^ (e + 120).

Lemma digits_le m d : 0 <= d -> Zpos m < 2 ^ d -> Zpos (digits2_pos m) <= d.
Proof.
  intros Hd H. pose proof (digits2_pos_bounds m) as [Bl _].
  destruct (Z_le_gt_dec (Zpos (digits2_pos m)) d) as [|Hgt]; auto.
  pose proof (Z.pow_le_mono_r 2 d (Zpos (digits2_pos m) - 1)). lia.
Qed.

Lemma sub_spec mb eb ma ea :
  2 ^ 52 <= Zpos mb < 2 ^ 53 -> 2 ^ 52 <= Zpos ma < 2 ^ 53 ->
  -60 <= eb <= 0 -> -60 <= ea <= 0 ->
  let delta := scaled mb eb - scaled ma ea in
  (delta = 0 ->
   SFsub prec emax (S754_finite false mb eb) (S754_finite false ma ea)
   = S754_zero false) /\
  (delta <> 0 ->
   exists M E,
     SFsub prec emax (S754_finite false mb eb) (S754_finite false ma ea)
     = S754_finite (delta <? 0) M E /\
     -112 <= E <= Z.max ea eb + 1 /\
     2 * Z.abs (scaled M E - Z.abs delta) <= 2 ^ (E + 120)).
Proof.
  intros Hb Ha Heb Hea delta. unfold SFsub.
  set (ez := Z.min eb ea).
  destruct (shl_align_value mb eb ez ltac:(unfold ez; lia)) as [Vb _].
  destruct (shl_align_value ma ea ez ltac:(unfold ez; lia)) as [Va _].
  cbn [cond_Zopp]. rewrite Vb, Va.
  set (D := Zpos mb * 2 ^ (eb - ez) - Zpos ma * 2 ^ (ea - ez)).
  set (K := 2 ^ (ez + 120)).
  assert (PK : 0 < K) by (apply Z.pow_pos_nonneg; unfold ez; lia).
  assert (HD : delta = D * K).
  { unfold delta, scaled, D, K.
    replace (eb + 120) with (eb - ez + (ez + 120)) by lia.
    replace (ea + 120) with (ea - ez + (ez + 120)) by lia.
    rewrite (Z.pow_add_r 2 (eb - ez) (ez + 120)) by (unfold ez; lia).
    rewrite (Z.pow_add_r 2 (ea - ez) (ez + 120)) by (unfold ez; lia).
    ring. }
  assert (Pb : 0 < 2 ^ (eb - ez)) by (apply Z.pow_pos_nonneg; unfold ez; lia).
  assert (Pa : 0 < 2 ^ (ea - ez)) by (apply Z.pow_pos_nonneg; unfold ez; lia).
  assert (Hsize : Z.abs D < 2 ^ (53 + Z.max ea eb - ez)).
  { replace (53 + Z.max ea eb - ez) with (53 + (Z.max ea eb - ez)) by lia.
    rewrite Z.pow_add_r by (unfold ez; lia).
    assert (2 ^ (eb - ez) <= 2 ^ (Z.max ea eb - ez))
      by (apply Z.pow_le_mono_r; unfold ez; lia).
    assert (2 ^ (ea - ez) <= 2 ^ (Z.max ea eb - ez))
      by (apply Z.pow_le_mono_r; unfold ez; lia).
    unfold D. nia. }
  split.
  - intros H0. assert (D = 0) by nia.
    replace D with 0 by auto. reflexivity.
  - intros Hne. assert (HD0 : D <> 0) by nia.
    assert (Hsign : (delta <? 0) = (D <? 0)).
    { destruct (Z.ltb_spec delta 0), (Z.ltb_spec D 0); auto; nia. }
    rewrite Hsign.
    destruct D as [|m|m] eqn:ED; [congruence| |]; cbn [binary_normalize].
    + destruct (binary_round_spec false m ez ltac:(unfold ez; lia))
        as (M & E & Hr & HM & HE & Herr).
      { apply digits_le; [unfold ez; lia|].
        apply Z.lt_le_trans with (1 := Hsize).
        apply Z.pow_le_mono_r; unfold ez; lia. }
      exists M, E. split; [exact Hr|].
      assert (Hdm : Zpos (digits2_pos m) <= 53 + Z.max ea eb - ez).
      { apply digits_le; [unfold ez; lia|]. exact Hsize. }
      split; [lia|].
      unfold scaled. rewrite HD. fold K in Herr.
      rewrite Z.abs_mul, (Z.abs_eq K) by lia. exact Herr.
    + destruct (binary_round_spec true m ez ltac:(unfold ez; lia))
        as (M & E & Hr & HM & HE & Herr).
      { apply digits_le; [unfold ez; lia|].
        apply Z.lt_le_trans with (1 := Hsize).
        apply Z.pow_le_mono_r; unfold ez; lia. }
      exists M, E. split; [exact Hr|].
      assert (Hdm : Zpos (digits2_pos m) <= 53 + Z.max ea eb - ez).
      { apply digits_le; [unfold ez; lia|]. exact Hsize. }
      split; [lia|].
      unfold scaled. rewrite HD. fold K in Herr.
      rewrite Z.abs_mul, (Z.abs_eq K) by lia. exact Herr.
Qed.

(** *** Amounts in hundredths *)

Lemma scaled_unique m1 e1 m2 e2 :
  2 ^ 52 <= Zpos m1 < 2 ^ 53 -> 2 ^ 52 <= Zpos m2 < 2 ^ 53 ->
  -120 <= e1 -> -120 <= e2 ->
  scaled m1 e1 = scaled m2 e2 -> m1 = m2 /\ e1 = e2.
Proof.
  assert (W : forall a ea b eb,
             2 ^ 52 <= Zpos a < 2 ^ 53 -> 2 ^ 52 <= Zpos b < 2 ^ 53 ->
             -120 <= ea -> ea <= eb -> scaled a ea = scaled b eb ->
             a = b /\ ea = eb).
  { intros a ea b eb Ha Hb Hl Hle H. unfold scaled in H.
    replace (eb + 120) with (eb - ea + (ea + 120)) in H by lia.
    rewrite (Z.pow_add_r 2 (eb - ea) (ea + 120)) in H by lia.
    assert (P : 0 < 2 ^ (ea + 120)) by (apply Z.pow_pos_nonneg; lia).
    assert (Hab : Zpos a = Zpos b * 2 ^ (eb - ea)).
    { apply (Z.mul_cancel_r _ _ (2 ^ (ea + 120))); [lia|].
      rewrite H. ring. }
    destruct (Z.eq_dec ea eb) as [->|Hne].
    - rewrite Z.sub_diag in Hab. change (2 ^ 0) with 1 in Hab.
      split; [lia|reflexivity].
    - exfalso.
      assert (2 ^ 1 <= 2 ^ (eb - ea)) by (apply Z.pow_le_mono_r; lia).
      change (2 ^ 1) with 2 in *. nia. }
  intros H1 H2 L1 L2 H.
  destruct (Z_le_gt_dec e1 e2).
  - apply W; auto.
  - destruct (W m2 e2 m1 e1) as [-> ->]; auto; lia.
Qed.

(** A whole number is read as the same float with or without two
    zero decimals. *)
Lemma of_decimal_whole (n : N) :
  (100 * n < 2 ^ 50)%N -> of_decimal n 0 = of_decimal (100 * n) 2.
Proof.
  intros Hn. destruct n as [|p]; [reflexivity|].
  change (100 * N.pos p)%N with (N.pos (100 * p)) in *.
  unfold of_decimal. change (pow10 0) with 1%positive.
  change (pow10 2) with 100%positive.
  assert (Hp : Zpos (100 * p) < 2 ^ 50).
  { change (2 ^ 50) with (Z.of_N (2 ^ 50)%N).
    change (Zpos (100 * p)) with (Z.of_N (N.pos (100 * p))). lia. }
  destruct (div_spec p 1 ltac:(lia) ltac:(cbn; lia) ltac:(auto))
    as (M1 & E1 & -> & HM1 & HE1 & _ & X1).
  destruct (div_spec (100 * p) 100 Hp ltac:(cbn; lia) ltac:(auto))
    as (M2 & E2 & -> & HM2 & HE2 & _ & X2).
  specialize (X1 (Z.mod_1_r _)).
  assert (Hm : Zpos (100 * p) mod 100 = 0).
  { rewrite Pos2Z.inj_mul, Z.mul_comm. apply Z.mod_mul. lia. }
  specialize (X2 Hm). rewrite Pos2Z.inj_mul in X2.
  destruct (scaled_unique M1 E1 M2 E2 HM1 HM2 ltac:(lia) ltac:(lia))
    as [-> ->]; [unfold scaled; lia|reflexivity].
Qed.

Lemma hundredths_spec (M : positive) (E C : Z) :
  E < 0 -> 0 <= C ->
  2 * Z.abs (100 * Zpos M - C * 2 ^ (- E)) < 2 ^ (- E) ->
  Z.of_N (hundredths M E) = C.
Proof.
  intros HE HC H. destruct E as [|p|p]; try lia.
  unfold hundredths. change (- Zneg p) with (Zpos p) in H.
  set (num := (N.pos M * 100)%N). set (den := N.shiftl 1 (N.pos p)).
  assert (Hden : Z.of_N den = 2 ^ Zpos p).
  { unfold den. rewrite N.shiftl_1_l, N2Z.inj_pow. reflexivity. }
  assert (Pd : 0 < 2 ^ Zpos p) by (apply Z.pow_pos_nonneg; lia).
  assert (Hnz : den <> 0%N) by lia.
  pose proof (N.div_mod' num den) as Hdm.
  pose proof (N.mod_lt num den Hnz) as Hlt.
  set (q := (num / den)%N) in *. set (r := (num mod den)%N) in *.
  assert (Hnum : Z.of_N num = 100 * Zpos M) by (unfold num; lia).
  set (D := 2 ^ Zpos p) in *.
  assert (Hz : 100 * Zpos M = D * Z.of_N q + Z.of_N r).
  { rewrite <- Hnum, <- Hden, Hdm. lia. }
  assert (Hr : 0 <= Z.of_N r < D) by lia.
  rewrite Hz in H.
  assert (Hq : Z.of_N q = C \/ Z.of_N q = C - 1).
  { destruct (Z_le_gt_dec (Z.of_N q) (C - 2)); [exfalso; nia|].
    destruct (Z_le_gt_dec (C + 1) (Z.of_N q)); [exfalso; nia|]. lia. }
  destruct Hq as [Hq|Hq].
  - replace (D * Z.of_N q + Z.of_N r - C * D) with (Z.of_N r) in H
      by (rewrite Hq; ring).
    destruct (N.compare_spec (2 * r) den); try lia.
  - replace (D * Z.of_N q + Z.of_N r - C * D) with (Z.of_N r - D) in H
      by (rewrite Hq; ring).
    destruct (N.compare_spec (2 * r) den); try lia.
Qed.

(** The float read from an amount of hundredths below [10^14]. *)
Lemma of_decimal_cents (p : positive) :
  Zpos p < 10 ^ 14 ->
  exists M E,
    of_decimal (N.pos p) 2 = S754_finite false M E /\
    2 ^ 52 <= Zpos M < 2 ^ 53 /\ -59 <= E <= -11 /\
    2 * Z.abs (100 * scaled M E - Zpos p * 2 ^ 120) <= 100 * 2 ^ (E + 120).
Proof.
  intros Hp. unfold of_decimal. change (pow10 2) with 100%positive.
  assert (Hd : Zpos (digits2_pos p) <= 47).
  { apply digits_le; [lia|]. eapply Z.lt_trans; [exact Hp|reflexivity]. }
  destruct (div_spec p 100) as (M & E & Hr & HM & HE & Herr & _).
  - eapply Z.lt_trans; [exact Hp|reflexivity].
  - cbn. lia.
  - auto.
  - exists M, E. split; [exact Hr|]. split; [exact HM|].
    change (Zdigits2 (Zpos 100)) with 7 in HE.
    change (Zdigits2 (Zpos p)) with (Zpos (digits2_pos p)) in HE.
    split; [lia|exact Herr].
Qed.

Lemma pow_bound e k : -120 <= e <= k -> 0 < 2 ^ (e + 120) <= 2 ^ (k + 120).
Proof.
  intros H. split; [apply Z.pow_pos_nonneg; lia|].
  apply Z.pow_le_mono_r; lia.
Qed.

Lemma hundredths_scaled (M : positive) (E C : Z) :
  -120 <= E < 0 -> 0 <= C ->
  2 * Z.abs (100 * scaled M E - C * 2 ^ 120) < 2 ^ 120 ->
  hundredths M E = Z.to_N C.
Proof.
  intros HE HC H. apply N2Z.inj. rewrite Z2N.id by lia.
  apply hundredths_spec; [lia|lia|].
  set (P := 2 ^ (E + 120)).
  assert (PP : 0 < P) by (apply Z.pow_pos_nonneg; lia).
  assert (HK : 2 ^ 120 = 2 ^ (- E) * P).
  { unfold P. rewrite <- Z.pow_add_r by lia. f_equal. lia. }
  unfold scaled in H. fold P in H. rewrite HK in H.
  replace (100 * (Zpos M * P) - C * (2 ^ (- E) * P))
    with (P * (100 * Zpos M - C * 2 ^ (- E))) in H by ring.
  rewrite Z.abs_mul, (Z.abs_eq P) in H by lia. nia.
Qed.

(** The float difference of two amounts below [10^14] hundredths is
    their exact difference to the hundredth, with its sign. *)
Lemma cents_difference (A B : N) :
  (A < 10 ^ 14)%N -> (B < 10 ^ 14)%N ->
  match (A ?= B)%N with
  | Eq => sub (of_decimal B 2) (of_decimal A 2) = S754_zero false
  | Lt => exists M E,
            sub (of_decimal B 2) (of_decimal A 2) = S754_finite false M E /\
            hundredths M E = (B - A)%N
  | Gt => exists M E,
            sub (of_decimal B 2) (of_decimal A 2) = S754_finite true M E /\
            hundredths M E = (A - B)%N
  end.
Proof.
  intros HA HB.
  assert (L : forall p, (N.pos p < 10 ^ 14)%N -> Zpos p < 10 ^ 14).
  { intros p H. change (10 ^ 14) with (Z.of_N (10 ^ 14)%N). lia. }
  assert (K109 : 2 ^ (-11 + 120) = 2 ^ 109) by reflexivity.
  assert (K110 : 2 ^ (-10 + 120) = 2 ^ 110) by reflexivity.
  destruct A as [|pa], B as [|pb].
  - reflexivity.
  - (* from nothing to an amount *)
    change (0 ?= N.pos pb)%N with Lt.
    destruct (of_decimal_cents pb (L _ HB)) as (M & E & Hr & HM & HE & Herr).
    exists M, E. rewrite Hr. split; [reflexivity|].
    rewrite N.sub_0_r.
    change (N.pos pb) with (Z.to_N (Zpos pb)).
    apply hundredths_scaled; [lia|lia|].
    pose proof (pow_bound E (-11) ltac:(lia)) as PB. rewrite K109 in PB.
    change (2 ^ 109) with 649037107316853453566312041152512 in PB.
    change (2 ^ 120) with 1329227995784915872903807060280344576 in *.
    lia.
  - change (N.pos pa ?= 0)%N with Gt.
    destruct (of_decimal_cents pa (L _ HA)) as (M & E & Hr & HM & HE & Herr).
    exists M, E. rewrite Hr. split; [reflexivity|].
    rewrite N.sub_0_r.
    change (N.pos pa) with (Z.to_N (Zpos pa)).
    apply hundredths_scaled; [lia|lia|].
    pose proof (pow_bound E (-11) ltac:(lia)) as PB. rewrite K109 in PB.
    change (2 ^ 109) with 649037107316853453566312041152512 in PB.
    change (2 ^ 120) with 1329227995784915872903807060280344576 in *.
    lia.
  - destruct (of_decimal_cents pa (L _ HA))
      as (Ma & Ea & Hra & HMa & HEa & Herra).
    destruct (of_decimal_cents pb (L _ HB))
      as (Mb & Eb & Hrb & HMb & HEb & Herrb).
    pose proof (pow_bound Ea (-11) ltac:(lia)) as PBa.
    pose proof (pow_bound Eb (-11) ltac:(lia)) as PBb.
    rewrite K109 in PBa, PBb.
    destruct (sub_spec Mb Eb Ma Ea HMb HMa ltac:(lia) ltac:(lia))
      as [Hzero Hnz].
    set (Va := scaled Ma Ea) in *. set (Vb := scaled Mb Eb) in *.
    change (2 ^ 109) with 649037107316853453566312041152512 in *.
    change (2 ^ 120) with 1329227995784915872903807060280344576 in *.
    destruct (N.compare_spec (N.pos pa) (N.pos pb)) as [Heq|Hlt|Hgt].
    + injection Heq as ->. rewrite Hrb in Hra. injection Hra as -> ->.
      rewrite Hrb. apply Hzero. unfold Va, Vb. lia.
    + assert (Hpos : 0 < Vb - Va) by lia.
      destruct (Hnz ltac:(lia)) as (M & E & Hr & HE & Herr).
      pose proof (pow_bound E (-10) ltac:(lia)) as PB. rewrite K110 in PB.
      change (2 ^ 110) with 1298074214633706907132624082305024 in PB.
      exists M, E. rewrite Hra, Hrb. unfold sub. rewrite Hr.
      assert (Hs : (Vb - Va <? 0) = false) by (apply Z.ltb_ge; lia).
      rewrite Hs. split; [reflexivity|].
      replace (N.pos pb - N.pos pa)%N with (Z.to_N (Zpos pb - Zpos pa))
        by lia.
      apply hundredths_scaled; [lia|lia|].
      change (2 ^ 120) with 1329227995784915872903807060280344576.
      lia.
    + assert (Hneg : Vb - Va < 0) by lia.
      destruct (Hnz ltac:(lia)) as (M & E & Hr & HE & Herr).
      pose proof (pow_bound E (-10) ltac:(lia)) as PB. rewrite K110 in PB.
      change (2 ^ 110) with 1298074214633706907132624082305024 in PB.
      exists M, E. rewrite Hra, Hrb. unfold sub. rewrite Hr.
      assert (Hs : (Vb - Va <? 0) = true) by (apply Z.ltb_lt; lia).
      rewrite Hs. split; [reflexivity|].
      replace (N.pos pa - N.pos pb)%N with (Z.to_N (Zpos pa - Zpos pb))
        by lia.
      apply hundredths_scaled; [lia|lia|].
      change (2 ^ 120) with 1329227995784915872903807060280344576.
      lia.
Qed.

End FloatFacts.

Set Implicit Arguments.

(* ================================================================= *)
(** ** The difference analyser *)

(** The direction of a difference, as the specification words it. *)
Inductive direction : Type := Up | Down | Flat.

Definition direction_of (delta : PyFloat.float) : direction :=
  if PyFloat.ltb PyFloat.zero delta then Up
  else if PyFloat.ltb delta PyFloat.zero then Down
  else Flat.

Definition arrow (d : direction) : str :=
  match d with
  | Up => ARROW_UP
  | Down => ARROW_DOWN
  | Flat => ARROW_FLAT
  end.

(** The number a token stands for: its commas stripped, read as a
    float. *)
Definition token_number (tok : str) : option PyFloat.float :=
  PyFloat.of_string (remove_char COMMA tok).

(** The same reading in exact arithmetic, as the specification words
    it.  The number a string of decimal digits writes: *)
Definition decimal_value (s : str) : N :=
  fold_left (fun acc c => (acc * 10 + (c - 48))%N) s 0%N.

Definition all_digits (s : str) : bool :=
  match s with
  | [] => false
  | _ => forallb CharClass.ascii_digit s
  end.

(** The amount of a number token in hundredths: without its commas the
    token is a whole number, or a whole number, a point and two
    decimals. *)
Definition token_cents (tok : str) : option N :=
  let s := remove_char COMMA tok in
  let whole :=
    if all_digits s then Some (decimal_value s * 100)%N else None in
  match rev s with
  | b :: a :: point :: w =>
      if N.eqb point 46 then
        if all_digits (rev w) && all_digits [a; b]
        then Some (decimal_value (rev w) * 100 + decimal_value [a; b])%N
        else None
      else whole
  | _ => whole
  end.

(** The direction of the exact difference of two amounts. *)
Definition exact_direction (old_cents new_cents : N) : direction :=
  if (old_cents <? new_cents)%N then Up
  else if (new_cents <? old_cents)%N then Down
  else Flat.

(** The exact difference of two amounts of hundredths, with its sign and
    two decimals. *)
Definition exact_delta (old_cents new_cents : N) : str :=
  let c := if (old_cents <=? new_cents)%N
           then (new_cents - old_cents)%N
           else (old_cents - new_cents)%N in
  lit (if (new_cents <? old_cents)%N then "-" else "+")
  ++ PyFloat.decimal (c / 100) ++ lit "."
  ++ (if (c mod 100 <? 10)%N then lit "0" else [])
  ++ PyFloat.decimal (c mod 100).

(** A million million in hundredths: below it a float holds an amount
    to well within half a hundredth. *)
Definition EXACT_LIMIT : N := 100000000000000.

Lemma parse_number_from_value_spec value :
  match parse_number_from_value value with
  | Some x =>
      exists j tok, first_longest NUMBER value j tok /\
                    token_number tok = Some x
  | None => no_occurrence NUMBER value
  end.
Proof.
  unfold parse_number_from_value.
  pose proof (search_NUMBER_spec value) as S.
  destruct (search (Group 1 NUMBER) value) as [m|]; [|exact S].
  destruct S as [FL Mn]. cbv zeta.
  destruct (number_token_float Mn) as (x & Hx). rewrite Hx.
  exists (m_start m), (group m 1). auto.
Qed.

(** *** The token read by the code and read exactly *)

Lemma digits_value_fold s : forall acc,
  Forall (fun c => CharClass.ascii_digit c = true) s ->
  PyFloat.digits_value acc s
  = Some (fold_left (fun acc c => (acc * 10 + (c - 48))%N) s acc).
Proof.
  induction s as [|c t IH]; intros acc H; simpl; [reflexivity|].
  inversion H as [|? ? Hc Ht]; subst. rewrite Hc. apply IH, Ht.
Qed.

Lemma all_digits_Forall s :
  s <> [] -> Forall (fun c => CharClass.ascii_digit c = true) s ->
  all_digits s = true.
Proof.
  intros Hne H. destruct s as [|c t]; [congruence|].
  unfold all_digits. apply forallb_forall.
  apply Forall_forall. exact H.
Qed.

Lemma of_string_whole ds :
  ds <> [] -> Forall (fun c => CharClass.ascii_digit c = true) ds ->
  PyFloat.of_string ds = Some (PyFloat.of_decimal (decimal_value ds) 0).
Proof.
  intros Hne H. unfold PyFloat.of_string.
  replace (PyFloat.split_dot ds) with (PyFloat.split_dot (ds ++ []))
    by (now rewrite app_nil_r).
  rewrite split_dot_digits by exact H.
  cbn [PyFloat.split_dot fst snd]. rewrite app_nil_r.
  destruct ds as [|c t]; [congruence|]. cbv beta iota.
  rewrite (digits_value_fold 0 H). reflexivity.
Qed.

Lemma of_string_cents ds a b :
  ds <> [] -> Forall (fun c => CharClass.ascii_digit c = true) ds ->
  CharClass.ascii_digit a = true -> CharClass.ascii_digit b = true ->
  PyFloat.of_string (ds ++ 46%N :: [a; b])
  = Some (PyFloat.of_decimal
            (decimal_value ds * 100 + decimal_value [a; b]) 2).
Proof.
  intros Hne H Ha Hb. unfold PyFloat.of_string.
  rewrite split_dot_digits by exact H.
  cbn [PyFloat.split_dot fst snd N.eqb Pos.eqb]. rewrite app_nil_r.
  destruct ds as [|c t]; [congruence|]. cbv beta iota.
  assert (Hall : Forall (fun c => CharClass.ascii_digit c = true) ((c :: t) ++ [a; b])).
  { apply Forall_app. split; [exact H|]. repeat constructor; assumption. }
  rewrite (digits_value_fold 0 Hall). cbn [length]. do 2 f_equal.
  unfold decimal_value. rewrite fold_left_app. cbn [fold_left]. lia.
Qed.

Lemma token_cents_whole ds :
  ds <> [] -> Forall (fun c => CharClass.ascii_digit c = true) ds ->
  (forall tok, remove_char COMMA tok = ds ->
               token_cents tok = Some (decimal_value ds * 100)%N).
Proof.
  intros Hne H tok Hs. unfold token_cents. rewrite Hs.
  rewrite (all_digits_Forall Hne H).
  destruct (rev ds) as [|b [|a [|point w]]] eqn:E; try reflexivity.
  assert (Hin : List.In point ds).
  { apply in_rev. rewrite E. right. right. left. reflexivity. }
  rewrite Forall_forall in H. apply H, ascii_digit_spec in Hin.
  destruct (N.eqb_spec point 46); [lia|reflexivity].
Qed.

Lemma token_cents_frac ds a b :
  ds <> [] -> Forall (fun c => CharClass.ascii_digit c = true) ds ->
  CharClass.ascii_digit a = true -> CharClass.ascii_digit b = true ->
  (forall tok, remove_char COMMA tok = ds ++ 46%N :: [a; b] ->
               token_cents tok
               = Some (decimal_value ds * 100 + decimal_value [a; b])%N).
Proof.
  intros Hne H Ha Hb tok Hs. unfold token_cents. rewrite Hs.
  rewrite rev_app_distr. cbn [rev app]. rewrite N.eqb_refl.
  rewrite rev_involutive, (all_digits_Forall Hne H).
  cbn [all_digits forallb]. rewrite Ha, Hb. reflexivity.
Qed.

(** A number token always has an amount; below the limit the float the
    code reads is the float of that amount. *)
Lemma token_reading tok :
  Matches NUMBER tok ->
  exists cents,
    token_cents tok = Some cents /\
    ((cents < EXACT_LIMIT)%N ->
     token_number tok = Some (PyFloat.of_decimal cents 2)).
Proof.
  intros M.
  destruct (Matches_NUMBER_inv M) as (d & body & frac & -> & Hd & Hb & Hf).
  clear M.
  set (ds := d :: remove_char COMMA body).
  assert (Hne : ds <> []) by discriminate.
  assert (Hds : Forall (fun c => CharClass.ascii_digit c = true) ds).
  { constructor; auto. apply remove_comma_digits, Hb. }
  assert (Hrm : forall fr,
             Forall (fun c => c <> COMMA) fr ->
             remove_char COMMA (d :: body ++ fr) = ds ++ fr).
  { intros fr Hfr. unfold ds.
    change (d :: body ++ fr) with ([d] ++ body ++ fr).
    rewrite !remove_char_app, (remove_char_absent Hfr).
    rewrite (@remove_char_absent COMMA [d]); [reflexivity|].
    apply ascii_digit_spec in Hd. unfold COMMA. repeat constructor. lia. }
  clearbody ds. unfold token_number.
  destruct (Matches_fraction_opt Hf)
    as [->|(d' & a & b & -> & Hd' & Ha & Hb')].
  - specialize (Hrm [] ltac:(constructor)). rewrite (app_nil_r ds) in Hrm.
    exists (decimal_value ds * 100)%N.
    split; [apply (token_cents_whole Hne Hds), Hrm|].
    intros Hlim. rewrite Hrm, (of_string_whole Hne Hds).
    rewrite N.mul_comm. f_equal.
    apply FloatFacts.of_decimal_whole.
    unfold EXACT_LIMIT in Hlim.
    apply N.lt_trans with (100000000000000)%N; [lia|reflexivity].
  - apply N.eqb_eq in Hd'. subst d'.
    assert (Hfr : Forall (fun c => c <> COMMA) [46%N; a; b]).
    { apply ascii_digit_spec in Ha, Hb'.
      unfold COMMA. repeat constructor; lia. }
    specialize (Hrm _ Hfr).
    exists (decimal_value ds * 100 + decimal_value [a; b])%N.
    split; [apply (@token_cents_frac ds a b Hne Hds Ha Hb'), Hrm|].
    intros _. rewrite Hrm. apply (@of_string_cents ds a b Hne Hds Ha Hb').
Qed.

(** Below the limit the float difference shows the exact one. *)
Lemma difference_exact (ca cb : N) :
  (ca < EXACT_LIMIT)%N -> (cb < EXACT_LIMIT)%N ->
  arrow (direction_of (PyFloat.sub (PyFloat.of_decimal cb 2)
                                   (PyFloat.of_decimal ca 2)))
  ++ lit " "
  ++ PyFloat.format_plus_2f (PyFloat.sub (PyFloat.of_decimal cb 2)
                                         (PyFloat.of_decimal ca 2))
  = arrow (exact_direction ca cb) ++ lit " " ++ exact_delta ca cb.
Proof.
  intros Ha Hb.
  pose proof (FloatFacts.cents_difference ca cb Ha Hb) as H.
  unfold exact_direction, exact_delta.
  destruct (N.compare_spec ca cb) as [Heq|Hlt|Hgt].
  - subst cb. rewrite H, N.ltb_irrefl, N.leb_refl, N.sub_diag.
    reflexivity.
  - destruct H as (M & E & -> & Hq).
    assert (H1 : (ca <? cb)%N = true) by (apply N.ltb_lt; lia).
    assert (H2 : (cb <? ca)%N = false) by (apply N.ltb_ge; lia).
    assert (H3 : (ca <=? cb)%N = true) by (apply N.leb_le; lia).
    rewrite H1, H2, H3. cbn [PyFloat.format_plus_2f]. rewrite Hq.
    reflexivity.
  - destruct H as (M & E & -> & Hq).
    assert (H1 : (ca <? cb)%N = false) by (apply N.ltb_ge; lia).
    assert (H2 : (cb <? ca)%N = true) by (apply N.ltb_lt; lia).
    assert (H3 : (ca <=? cb)%N = false) by (apply N.leb_gt; lia).
    rewrite H1, H2, H3. cbn [PyFloat.format_plus_2f]. rewrite Hq.
    reflexivity.
Qed.

(** C6, as amended.  Each value gives its first number token (the
    longest one at that place), read as a float with the commas
    stripped.  When one of the two values holds no number the result is
    empty; otherwise it shows the float difference [new - old], with
    the up arrow when it is above zero, the down arrow when it is below
    and the flat one otherwise.  For two amounts below a million
    million, this is the exact difference to the hundredth with the
    direction of the exact difference. *)
Theorem C6_difference (old_value new_value : str) :
  ((no_occurrence NUMBER old_value \/ no_occurrence NUMBER new_value) /\
   describe_difference old_value new_value = [])
  \/ (exists jo told jn tnew a b old_cents new_cents,
         first_longest NUMBER old_value jo told /\
         first_longest NUMBER new_value jn tnew /\
         token_number told = Some a /\
         token_number tnew = Some b /\
         describe_difference old_value new_value
         = arrow (direction_of (PyFloat.sub b a)) ++ lit " "
           ++ PyFloat.format_plus_2f (PyFloat.sub b a) /\
         token_cents told = Some old_cents /\
         token_cents tnew = Some new_cents /\
         ((old_cents < EXACT_LIMIT)%N -> (new_cents < EXACT_LIMIT)%N ->
          describe_difference old_value new_value
          = arrow (exact_direction old_cents new_cents) ++ lit " "
            ++ exact_delta old_cents new_cents)).
Proof.
  unfold describe_difference.
  pose proof (parse_number_from_value_spec old_value) as So.
  pose proof (parse_number_from_value_spec new_value) as Sn.
  destruct (parse_number_from_value old_value) as [a|]; [|left; auto].
  destruct (parse_number_from_value new_value) as [b|]; [|left; auto].
  right. destruct So as (jo & told & FLo & Ho).
  destruct Sn as (jn & tnew & FLn & Hn).
  assert (Mo : Matches NUMBER told).
  { destruct FLo as [(pre & post & _ & _ & M) _]. exact M. }
  assert (Mn : Matches NUMBER tnew).
  { destruct FLn as [(pre & post & _ & _ & M) _]. exact M. }
  destruct (token_reading Mo) as (ca & Hca & Ra).
  destruct (token_reading Mn) as (cb & Hcb & Rb).
  exists jo, told, jn, tnew, a, b, ca, cb.
  assert (Hshape :
            (let diff := PyFloat.sub b a in
             let arrow :=
               if PyFloat.ltb PyFloat.zero diff then ARROW_UP
               else if PyFloat.ltb diff PyFloat.zero then ARROW_DOWN
               else ARROW_FLAT in
             arrow ++ lit " " ++ PyFloat.format_plus_2f diff)
            = arrow (direction_of (PyFloat.sub b a)) ++ lit " "
              ++ PyFloat.format_plus_2f (PyFloat.sub b a)).
  { unfold arrow, direction_of. cbv zeta.
    destruct (PyFloat.ltb PyFloat.zero (PyFloat.sub b a)); [reflexivity|].
    destruct (PyFloat.ltb (PyFloat.sub b a) PyFloat.zero); reflexivity. }
  split; [exact FLo|]. split; [exact FLn|].
  split; [exact Ho|]. split; [exact Hn|].
  split; [exact Hshape|].
  split; [exact Hca|]. split; [exact Hcb|].
  intros La Lb. etransitivity; [exact Hshape|].
  specialize (Ra La). specialize (Rb Lb).
  rewrite Ho in Ra. rewrite Hn in Rb.
  injection Ra as ->. injection Rb as ->.
  apply difference_exact; assumption.
Qed.

(** C6 as stated fails beyond the precision of a float: two whole
    numbers one apart are read as the same float, and the difference
    shown is flat where the exact one is down by one. *)
Lemma C6_counterexample :
  token_cents (lit "9007199254740993") = Some 900719925474099300%N /\
  token_cents (lit "9007199254740992") = Some 900719925474099200%N /\
  exact_direction 900719925474099300 900719925474099200 = Down /\
  exact_delta 900719925474099300 900719925474099200 = lit "-1.00" /\
  describe_difference (lit "9007199254740993") (lit "9007199254740992")
  = ARROW_FLAT ++ lit " +0.00".
Proof. vm_compute. repeat split. Qed.

(** The examples of the specification, and the other two directions. *)
Example difference_example_up :
  describe_difference (lit "$10.00") (lit "$12.50")
  = ARROW_UP ++ lit " +2.50".
Proof. vm_compute. reflexivity. Qed.

Example difference_example_none :
  describe_difference (lit "Operational") (lit "Degraded") = [].
Proof. vm_compute. reflexivity. Qed.

Example difference_example_down :
  describe_difference (lit "$1,012.50") (lit "now $ 999.99 only")
  = ARROW_DOWN ++ lit " -12.51".
Proof. vm_compute. reflexivity. Qed.

Example difference_example_flat :
  describe_difference (lit "v 7") (lit "7.00 units")
  = ARROW_FLAT ++ lit " +0.00".
Proof. vm_compute. reflexivity. Qed.

(** The exact reading of the same examples. *)
Example exact_example_up :
  token_cents (lit "10.00") = Some 1000%N /\
  token_cents (lit "12.50") = Some 1250%N /\
  arrow (exact_direction 1000 1250) ++ lit " " ++ exact_delta 1000 1250
  = ARROW_UP ++ lit " +2.50".
Proof. vm_compute. repeat split. Qed.

Example exact_example_commas :
  token_cents (lit "1,012.50") = Some 101250%N /\
  token_cents (lit "999.99") = Some 99999%N /\
  arrow (exact_direction 101250 99999) ++ lit " "
  ++ exact_delta 101250 99999
  = ARROW_DOWN ++ lit " -12.51".
Proof. vm_compute. repeat split. Qed.

(* ================================================================= *)
(** ** Strings and dictionaries *)

Module DictFacts.
Import PyDict.

Lemma eqb_eq (a b : str) : PyStr.eqb a b = true <-> a = b.
Proof.
  revert b; induction a as [|x a IH]; intros [|y b]; simpl;
    try (split; [discriminate|congruence]); [tauto|].
  rewrite andb_true_iff, N.eqb_eq, IH. split.
  - intros [-> ->]. reflexivity.
  - intros [= -> ->]. auto.
Qed.

Lemma eqb_refl (a : str) : PyStr.eqb a a = true.
Proof. apply eqb_eq. reflexivity. Qed.

Lemma eqb_neq (a b : str) : PyStr.eqb a b = false <-> a <> b.
Proof.
  rewrite <- eqb_eq. destruct (PyStr.eqb a b); split; congruence.
Qed.

Section Dict.
Variable V : Type.
Implicit Types (d : dict V) (k : str) (v : V).

Lemma get_set_same k v d : get k (set k v d) = Some v.
Proof.
  induction d as [|[k' v'] d IH]; simpl.
  - rewrite eqb_refl. reflexivity.
  - destruct (PyStr.eqb k k') eqn:E; simpl; rewrite E; auto.
Qed.

Lemma get_set_other k k' v d :
  k <> k' -> get k' (set k v d) = get k' d.
Proof.
  intros Hne. induction d as [|[k0 v0] d IH]; simpl.
  - destruct (PyStr.eqb k' k) eqn:E; auto.
    apply eqb_eq in E. congruence.
  - destruct (PyStr.eqb k k0) eqn:E; simpl.
    + apply eqb_eq in E. subst k0.
      destruct (PyStr.eqb k' k) eqn:E'; auto.
      apply eqb_eq in E'. congruence.
    + destruct (PyStr.eqb k' k0); auto.
Qed.

Lemma get_None k d : get k d = None <-> ~ List.In k (keys d).
Proof.
  induction d as [|[k' v'] d IH]; simpl; [tauto|].
  destruct (PyStr.eqb k k') eqn:E.
  - apply eqb_eq in E. subst. split; [discriminate|tauto].
  - apply eqb_neq in E. rewrite IH. intuition congruence.
Qed.

Lemma get_Some_In k v d : get k d = Some v -> List.In k (keys d).
Proof.
  intros H. destruct (in_dec (list_eq_dec N.eq_dec) k (keys d)); auto.
  apply get_None in n. congruence.
Qed.

(** Setting a key that is there keeps every key in its place. *)
Lemma keys_set_present k v d : List.In k (keys d) -> keys (set k v d) = keys d.
Proof.
  induction d as [|[k' v'] d IH]; simpl; [tauto|].
  destruct (PyStr.eqb k k') eqn:E; simpl; auto.
  apply eqb_neq in E. intros [?|H]; [congruence|]. f_equal. auto.
Qed.

(** Setting a new key puts it last. *)
Lemma set_absent k v d : ~ List.In k (keys d) -> set k v d = d ++ [(k, v)].
Proof.
  induction d as [|[k' v'] d IH]; simpl; auto.
  intros H. destruct (PyStr.eqb k k') eqn:E.
  - apply eqb_eq in E. subst. tauto.
  - f_equal. apply IH. tauto.
Qed.

Lemma set_is_dict k v d : is_dict d -> is_dict (set k v d).
Proof.
  unfold is_dict.
  destruct (in_dec (list_eq_dec N.eq_dec) k (keys d)) as [Hin|Hout].
  - rewrite (@keys_set_present k v d Hin). auto.
  - rewrite (@set_absent k v d Hout). unfold keys. rewrite map_app. simpl.
    intros H. apply NoDup_app; auto.
    + repeat constructor. simpl. tauto.
    + intros x Hx [<-|[]]. exact (Hout Hx).
Qed.

End Dict.

End DictFacts.

(* ================================================================= *)
(** ** Parsing the site list *)

(** The site a record stands for, as the specification words it: the
    record needs an id and a url; an absent description is the id, an
    absent selector is none, white space is normalised and the kind is
    "text" unless the record says otherwise. *)
Definition spec_site (entry : RawSite) : option SiteConfig :=
  match raw_id entry, raw_url entry with
  | Some i, Some u =>
      Some (MkSite i u
              (match raw_description entry with Some d => d | None => i end)
              (match raw_css_selector entry with Some s => s | None => None end)
              (match raw_normalize_whitespace entry with
               | Some b => b | None => true end)
              (match raw_value_type entry with
               | Some k => k | None => lit "text" end))
  | _, _ => None
  end.

(** The first required key a record lacks. *)
Definition spec_missing (entry : RawSite) : option str :=
  match raw_id entry, raw_url entry with
  | None, _ => Some (lit "id")
  | Some _, None => Some (lit "url")
  | Some _, Some _ => None
  end.

Definition option_list (A : Type) (o : option A) : list A :=
  match o with
  | Some a => [a]
  | None => []
  end.

(** The sites of the well-formed records, in the order of the input. *)
Definition spec_sites (raw_sites : list RawSite) : list SiteConfig :=
  flat_map (fun e => option_list (spec_site e)) raw_sites.

(** One diagnostic per malformed record, with its index in the input. *)
Definition spec_diagnostics (idx : nat) (raw_sites : list RawSite)
  : list str :=
  flat_map
    (fun ie => option_list
                 (option_map (fun k => skip_warning (fst ie) (MissingKey k))
                             (spec_missing (snd ie))))
    (combine (seq idx (length raw_sites)) raw_sites).

Lemma make_site_spec entry :
  make_site entry
  = match spec_site entry, spec_missing entry with
    | Some s, _ => inr s
    | None, Some k => inl (MissingKey k)
    | None, None => inl (MissingKey [])
    end.
Proof.
  unfold make_site, spec_site, spec_missing, getitem, get_default.
  destruct (raw_id entry), (raw_url entry); reflexivity.
Qed.

Lemma spec_site_missing entry :
  (spec_site entry = None <-> spec_missing entry <> None) /\
  (forall s, spec_site entry = Some s ->
             raw_id entry = Some (id s) /\ raw_url entry = Some (url s)).
Proof.
  unfold spec_site, spec_missing.
  destruct (raw_id entry) as [i|], (raw_url entry) as [u|]; split;
    try (split; congruence); try discriminate.
  intros site [= <-]. auto.
Qed.

Lemma to_site_configs_from_spec raw_sites : forall idx sites printed,
  to_site_configs_from idx raw_sites sites printed
  = (sites ++ spec_sites raw_sites,
     printed ++ spec_diagnostics idx raw_sites).
Proof.
  induction raw_sites as [|e rest IH]; intros idx sites printed; simpl.
  - unfold spec_diagnostics. simpl. rewrite !app_nil_r. reflexivity.
  - rewrite make_site_spec.
    unfold spec_sites, spec_diagnostics. simpl.
    destruct (spec_site_missing e) as [Hm _].
    destruct (spec_site e) as [s|] eqn:Es.
    + assert (Hk : spec_missing e = None).
      { destruct (spec_missing e) eqn:Ek; auto.
        assert (Some s = None) by (apply Hm; congruence). discriminate. }
      rewrite Hk, IH. simpl. rewrite <- app_assoc. reflexivity.
    + destruct (spec_missing e) as [k|] eqn:Ek.
      * rewrite IH. simpl. rewrite <- app_assoc. reflexivity.
      * exfalso. apply (proj1 Hm); auto.
Qed.

Lemma spec_accounts_for_all raw_sites : forall idx,
  length (spec_sites raw_sites) + length (spec_diagnostics idx raw_sites)
  = length raw_sites.
Proof.
  induction raw_sites as [|e rest IH]; intros idx; [reflexivity|].
  specialize (IH (S idx)). unfold spec_sites, spec_diagnostics in *.
  cbn [flat_map length seq combine fst snd]. rewrite !length_app.
  destruct (spec_site_missing e) as [Hm _].
  destruct (spec_site e) as [s|] eqn:Es.
  - destruct (spec_missing e) eqn:Ek;
      cbn [option_map option_list length]; [|lia].
    assert (Some s = None) by (apply Hm; congruence). discriminate.
  - destruct (spec_missing e) eqn:Ek;
      cbn [option_map option_list length]; [lia|].
    exfalso. apply (proj1 Hm); auto.
Qed.

(** C7.  [to_site_configs] returns the sites of the records that have
    both an id and a url, in the order of the input and with the
    defaults of the specification, and prints one diagnostic for each
    other record, naming its index; every record of the input is
    accounted for, whatever the malformed ones are. *)
Theorem C7_to_site_configs (raw_sites : list RawSite) :
  to_site_configs raw_sites
  = (spec_sites raw_sites, spec_diagnostics 0 raw_sites)
  /\ length (fst (to_site_configs raw_sites))
     + length (snd (to_site_configs raw_sites))
     = length raw_sites
  /\ forall before entry after,
       raw_sites = before ++ entry :: after ->
       fst (to_site_configs raw_sites)
       = fst (to_site_configs before) ++ option_list (spec_site entry)
         ++ fst (to_site_configs after).
Proof.
  assert (E : forall l, to_site_configs l
                        = (spec_sites l, spec_diagnostics 0 l)).
  { intros l. unfold to_site_configs. rewrite to_site_configs_from_spec.
    reflexivity. }
  split; [apply E|]. split.
  - rewrite E. simpl. apply spec_accounts_for_all.
  - intros before entry after ->. rewrite !E. simpl.
    unfold spec_sites. rewrite flat_map_app. reflexivity.
Qed.

(** The site list of the source has no malformed record. *)
Example SITES_parsed :
  length (fst (to_site_configs SITES)) = 7 /\ snd (to_site_configs SITES) = [].
Proof. vm_compute. auto. Qed.

Example malformed_skipped :
  to_site_configs
    [ MkRaw (Some (lit "a")) (Some (lit "u")) None None None None;
      MkRaw None (Some (lit "u")) None None None None;
      MkRaw (Some (lit "b")) None (Some (lit "d")) None None None;
      MkRaw (Some (lit "c")) (Some (lit "w")) (Some (lit "d"))
            (Some (Some (lit "h1"))) (Some false) (Some (lit "price")) ]
  = ( [ MkSite (lit "a") (lit "u") (lit "a") None true (lit "text");
        MkSite (lit "c") (lit "w") (lit "d") (Some (lit "h1")) false
               (lit "price") ],
      [ lit "[WARN] Skipping site entry 1: missing key 'id'";
        lit "[WARN] Skipping site entry 2: missing key 'url'" ] ).
Proof. vm_compute. reflexivity. Qed.

(* ================================================================= *)
(** ** The change ledger *)

Unset Implicit Arguments.

Module LedgerFacts.
Import PyDict DictFacts.

(** The entry a baseline writes. *)
Definition fresh_entry (value : str) : dict str :=
  [(HASH, compute_hash value); (VALUE, value)].

(** The entry a change leaves. *)
Definition updated_entry (entry : dict str) (value : str) : dict str :=
  set VALUE value (set HASH (compute_hash value) entry).

Lemma observe_absent (st : state) site value :
  get (id site) st = None ->
  observe st site value
  = inr (set (id site) (fresh_entry value) st, false,
         BaselineAlert site value).
Proof. unfold observe. intros ->. reflexivity. Qed.

Lemma observe_empty (st : state) site value :
  get (id site) st = Some [] ->
  observe st site value
  = inr (set (id site) (fresh_entry value) st, false,
         BaselineAlert site value).
Proof. unfold observe. intros ->. reflexivity. Qed.

Lemma observe_same (st : state) site value entry :
  get (id site) st = Some entry ->
  get HASH entry = Some (compute_hash value) ->
  observe st site value = inr (st, false, NoChange site value).
Proof.
  unfold observe. intros -> Hh.
  destruct entry as [|p ps]; [discriminate|].
  rewrite Hh, eqb_refl. reflexivity.
Qed.

Lemma observe_differs (st : state) site value entry stored :
  get (id site) st = Some entry ->
  get HASH entry = Some stored ->
  stored <> compute_hash value ->
  observe st site value
  = match get VALUE entry with
    | Some old_value =>
        inr (set (id site) (updated_entry entry value) st, true,
             ChangeAlert site old_value value
                         (describe_difference old_value value))
    | None => inl TypeErrorExn
    end.
Proof.
  unfold observe. intros -> Hh Hne.
  destruct entry as [|p ps]; [discriminate|].
  rewrite Hh.
  destruct (PyStr.eqb (compute_hash value) stored) eqn:E.
  - apply eqb_eq in E. congruence.
  - simpl. destruct (get VALUE (p :: ps)); reflexivity.
Qed.

Lemma observe_no_hash (st : state) site value p ps :
  get (id site) st = Some (p :: ps) ->
  get HASH (p :: ps) = None ->
  observe st site value = inl (KeyErrorExn HASH).
Proof. unfold observe. intros -> ->. reflexivity. Qed.

Lemma updated_entry_get entry value :
  get HASH (updated_entry entry value) = Some (compute_hash value) /\
  get VALUE (updated_entry entry value) = Some value.
Proof.
  unfold updated_entry. split.
  - rewrite get_set_other by discriminate. apply get_set_same.
  - apply get_set_same.
Qed.

(** The cases of [observe], by what the ledger holds for the site. *)
Inductive observed (st : state) (site : SiteConfig) (value : str)
  : exn + (state * bool * event) -> Prop :=
| Obs_baseline :
    (get (id site) st = None \/ get (id site) st = Some []) ->
    observed st site value
      (inr (set (id site) (fresh_entry value) st, false,
            BaselineAlert site value))
| Obs_changed entry stored old_value :
    get (id site) st = Some entry ->
    get HASH entry = Some stored ->
    stored <> compute_hash value ->
    get VALUE entry = Some old_value ->
    observed st site value
      (inr (set (id site) (updated_entry entry value) st, true,
            ChangeAlert site old_value value
                        (describe_difference old_value value)))
| Obs_unchanged entry :
    get (id site) st = Some entry ->
    get HASH entry = Some (compute_hash value) ->
    observed st site value (inr (st, false, NoChange site value))
| Obs_no_hash entry :
    get (id site) st = Some entry -> entry <> [] ->
    get HASH entry = None ->
    observed st site value (inl (KeyErrorExn HASH))
| Obs_no_value entry stored :
    get (id site) st = Some entry ->
    get HASH entry = Some stored ->
    stored <> compute_hash value ->
    get VALUE entry = None ->
    observed st site value (inl TypeErrorExn).

Lemma observe_observed (st : state) site value :
  observed st site value (observe st site value).
Proof.
  destruct (get (id site) st) as [entry|] eqn:G.
  - destruct entry as [|p ps].
    + rewrite (observe_empty st site value G). constructor. auto.
    + destruct (get HASH (p :: ps)) as [stored|] eqn:H.
      * destruct (list_eq_dec N.eq_dec stored (compute_hash value))
          as [->|Hne].
        -- rewrite (observe_same st site value _ G H). econstructor; eauto.
        -- rewrite (observe_differs st site value _ _ G H Hne).
           destruct (get VALUE (p :: ps)) eqn:V;
             econstructor; eauto.
      * rewrite (observe_no_hash st site value _ _ G H).
        apply Obs_no_hash with (entry := p :: ps); auto. discriminate.
  - rewrite (observe_absent st site value G). constructor. auto.
Qed.

(** An observation leaves the entries of the other sites alone. *)
Lemma observe_frame (st : state) site value st' changed ev k :
  observe st site value = inr (st', changed, ev) ->
  k <> id site -> get k st' = get k st.
Proof.
  intros H Hk. pose proof (observe_observed st site value) as O.
  rewrite H in O. inversion O; subst; auto;
    apply get_set_other; congruence.
Qed.


(** [any_changes] is set exactly by a change alert, and a change alert
    is sent exactly for a stored hash that differs. *)
Lemma observe_changed (st : state) site value st' changed ev :
  observe st site value = inr (st', changed, ev) ->
  (changed = true <->
   exists old_value d, ev = ChangeAlert site old_value value d) /\
  (changed = true <->
   exists entry stored,
     get (id site) st = Some entry /\ get HASH entry = Some stored /\
     stored <> compute_hash value) /\
  (changed = false <->
   ev = BaselineAlert site value \/ ev = NoChange site value).
Proof.
  intros H. pose proof (observe_observed st site value) as O.
  rewrite H in O. inversion O; subst.
  - repeat split; try discriminate; auto.
    + intros (? & ? & [=]).
    + intros (entry & stored & G & Hh & _).
      destruct H1 as [H1|H1]; rewrite G in H1; [discriminate|].
      injection H1 as ->. discriminate.
  - repeat split; auto; try discriminate; eauto.
    intros [|]; discriminate.
  - repeat split; try discriminate; auto.
    + intros (? & ? & [=]).
    + intros (entry' & stored & G & Hh & Hne).
      rewrite G in H2. injection H2 as ->. congruence.
Qed.

End LedgerFacts.

(* ================================================================= *)
(** ** A pass and the ledger *)

(** [reaches env fetch i sites st j site st_j]: the loop of
    [check_sites], started at index [i] on [sites] with the ledger
    [st], comes to the site [site] of index [j] with the ledger [st_j]:
    nothing was raised on the way. *)
Inductive reaches (env : environment)
          (fetch : nat -> SiteConfig -> option str)
  : nat -> list SiteConfig -> state -> nat -> SiteConfig -> state -> Prop :=
| Reach_here i site rest st :
    reaches env fetch i (site :: rest) st i site st
| Reach_after_failure i site rest st j s st_j :
    fetch i site = None ->
    stdout_ok (failed_line site (failure_text env i site)) = true ->
    reaches env fetch (S i) rest st j s st_j ->
    reaches env fetch i (site :: rest) st j s st_j
| Reach_after_observe i site rest st text st1 changed ev j s st_j :
    fetch i site = Some text ->
    observe st site (extract_value site text) = inr (st1, changed, ev) ->
    perform env i ev = None ->
    reaches env fetch (S i) rest st1 j s st_j ->
    reaches env fetch i (site :: rest) st j s st_j.


(** The site has an entry whose stored hash differs from that of the
    value. *)
Definition entry_differs (st : state) (site : SiteConfig) (value : str)
  : Prop :=
  exists entry stored,
    PyDict.get (id site) st = Some entry /\
    PyDict.get HASH entry = Some stored /\
    stored <> compute_hash value.

Definition is_change (ev : event) : bool :=
  match ev with
  | ChangeAlert _ _ _ _ => true
  | _ => false
  end.

Module PassFacts.
Import PyDict DictFacts LedgerFacts.

(** One turn of a loop that comes to its end. *)
Lemma check_loop_cons env fetch i site rest st any evs st' any' :
  check_loop env fetch i (site :: rest) st any = (evs, inr (st', any')) ->
  (fetch i site = None /\
   stdout_ok (failed_line site (failure_text env i site)) = true /\
   exists evs1,
     check_loop env fetch (S i) rest st any = (evs1, inr (st', any')) /\
     evs = fetch_prints site None ++ FetchFailed site :: evs1) \/
  (exists text st1 c ev evs1,
     fetch i site = Some text /\
     observe st site (extract_value site text) = inr (st1, c, ev) /\
     perform env i ev = None /\
     check_loop env fetch (S i) rest st1 (any || c)
     = (evs1, inr (st', any')) /\
     evs = fetch_prints site (Some text) ++ ev :: evs1).
Proof.
  cbn [check_loop]. intros H. destruct (fetch i site) as [text|] eqn:Hf.
  - right.
    destruct (observe st site (extract_value site text))
      as [e|[[st1 c] ev]] eqn:Ho; [discriminate|].
    destruct (perform env i ev) as [e|] eqn:Hp; [discriminate|].
    destruct (check_loop env fetch (S i) rest st1 (any || c))
      as [evs1 r] eqn:Hl.
    injection H as <- ->. exists text, st1, c, ev, evs1. auto.
  - left. split; [reflexivity|].
    destruct (stdout_ok (failed_line site (failure_text env i site)));
      [|discriminate].
    split; [reflexivity|].
    destruct (check_loop env fetch (S i) rest st any) as [evs1 r] eqn:Hl.
    injection H as <- ->. exists evs1. auto.
Qed.

Lemma fetch_prints_quiet site fetched :
  existsb is_change (fetch_prints site fetched) = false.
Proof.
  unfold fetch_prints.
  destruct (PyStr.eqb (url site) LOCAL_TEST), fetched; try reflexivity.
  destruct (stdout_ok (fetching_line site)); reflexivity.
Qed.

Lemma fetch_prints_Printed site fetched ev :
  List.In ev (fetch_prints site fetched) -> exists line, ev = Printed line.
Proof.
  unfold fetch_prints. intros H.
  destruct (PyStr.eqb (url site) LOCAL_TEST); destruct fetched as [t|];
    try destruct (stdout_ok (fetching_line site));
    repeat match goal with
           | H : List.In _ (_ :: _) |- _ => destruct H as [<-|H]
           | H : List.In _ [] |- _ => destruct H
           end; eauto.
Qed.

Lemma reaches_index env fetch i sites st j s st_j :
  reaches env fetch i sites st j s st_j ->
  i <= j /\ nth_error sites (j - i) = Some s.
Proof.
  induction 1 as [i site rest st
                 |i site rest st j s st_j Hf Hp R IH
                 |i site rest st text st1 c ev j s st_j Hf Ho Hp R IH].
  - rewrite Nat.sub_diag. auto.
  - destruct IH as [Hle Hn]. split; [lia|].
    replace (j - i) with (S (j - S i)) by lia. exact Hn.
  - destruct IH as [Hle Hn]. split; [lia|].
    replace (j - i) with (S (j - S i)) by lia. exact Hn.
Qed.



Lemma observe_falsy (st : state) site value st' changed ev :
  truthy (get (id site) st) = false ->
  observe st site value = inr (st', changed, ev) ->
  ev = BaselineAlert site value.
Proof.
  intros Ht Ho. destruct (get (id site) st) as [[|p ps]|] eqn:G;
    try discriminate.
  - rewrite (observe_empty st site value G) in Ho. congruence.
  - rewrite (observe_absent st site value G) in Ho. congruence.
Qed.

Lemma observe_change_alert (st : state) site value st' changed ev :
  observe st site value = inr (st', changed, ev) ->
  (is_change ev = true <-> entry_differs st site value).
Proof.
  intros Ho. destruct (observe_changed _ _ _ _ _ _ Ho) as (Hc & Hd & Hb).
  unfold entry_differs. rewrite <- Hd. split.
  - intros Hev. destruct changed; auto.
    destruct (proj1 Hb eq_refl) as [-> | ->]; discriminate.
  - intros Hch. destruct (proj1 Hc Hch) as (o & d & ->). reflexivity.
Qed.

(** [any_changes] after the loop: set before, or a change alert was
    sent. *)
Lemma check_loop_any env fetch sites : forall i st any evs st' any',
  check_loop env fetch i sites st any = (evs, inr (st', any')) ->
  any' = any || existsb is_change evs.
Proof.
  induction sites as [|site rest IH]; intros i st any evs st' any' H.
  - simpl in H. injection H as <- _ <-. simpl. now rewrite orb_false_r.
  - destruct (check_loop_cons _ _ _ _ _ _ _ _ _ _ H)
      as [(Hf & Hp & evs1 & Hl & ->)
         |(text & st1 & c & ev & evs1 & Hf & Ho & Hp & Hl & ->)];
      rewrite existsb_app, fetch_prints_quiet; cbn [orb existsb].
    + apply (IH _ _ _ _ _ _ Hl).
    + rewrite (IH _ _ _ _ _ _ Hl).
      destruct (observe_changed _ _ _ _ _ _ Ho) as (Hc & _ & Hb).
      destruct c.
      * destruct (proj1 Hc eq_refl) as (o & d & ->). simpl.
        now rewrite !orb_true_r.
      * destruct (proj1 Hb eq_refl) as [-> | ->]; simpl;
          now rewrite orb_false_r.
Qed.

Lemma reaches_nil env fetch i st j s st_j :
  ~ reaches env fetch i [] st j s st_j.
Proof. intros R. inversion R. Qed.

Lemma reaches_cons env fetch i site rest st j s st_j :
  reaches env fetch i (site :: rest) st j s st_j ->
  (j = i /\ s = site /\ st_j = st) \/
  (fetch i site = None /\ reaches env fetch (S i) rest st j s st_j) \/
  (exists text st1 changed ev,
      fetch i site = Some text /\
      observe st site (extract_value site text) = inr (st1, changed, ev) /\
      reaches env fetch (S i) rest st1 j s st_j).
Proof.
  intros R. inversion R; subst; auto.
  right. right. eauto 8.
Qed.

(** The alerts of the loop, by what the ledger holds when the site is
    reached. *)
Lemma check_loop_alerts env fetch sites : forall i st any evs st' any',
  check_loop env fetch i sites st any = (evs, inr (st', any')) ->
  (existsb is_change evs = true <->
   exists j site st_j text,
     reaches env fetch i sites st j site st_j /\ fetch j site = Some text /\
     entry_differs st_j site (extract_value site text)) /\
  (forall j site st_j text,
     reaches env fetch i sites st j site st_j -> fetch j site = Some text ->
     truthy (get (id site) st_j) = false ->
     List.In (BaselineAlert site (extract_value site text)) evs).
Proof.
  induction sites as [|site rest IH]; intros i st any evs st' any' H.
  - simpl in H. injection H as <- _ _. simpl. split.
    + split; [discriminate|]. intros (j & s & st_j & t & R & _).
      destruct (reaches_nil _ _ _ _ _ _ _ R).
    + intros j s st_j t R. destruct (reaches_nil _ _ _ _ _ _ _ R).
  - destruct (check_loop_cons _ _ _ _ _ _ _ _ _ _ H)
      as [(Hf & Hp & evs1 & Hl & ->)
         |(text & st1 & c & ev & evs1 & Hf & Ho & Hp & Hl & ->)];
      destruct (IH _ _ _ _ _ _ Hl) as [IHc IHb];
      rewrite existsb_app, fetch_prints_quiet; cbn [orb existsb].
    + split.
      * rewrite IHc. split.
        -- intros (j & s & st_j & t & R & Hfj & Hdiff).
           exists j, s, st_j, t. split; [|auto].
           apply Reach_after_failure; auto.
        -- intros (j & s & st_j & t & R & Hfj & Hdiff).
           destruct (reaches_cons _ _ _ _ _ _ _ _ _ R)
             as [(-> & -> & ->)|[[_ R']|(t' & st1' & c' & ev' & Hf' & _)]];
             [congruence| |congruence].
           exists j, s, st_j, t. auto.
      * intros j s st_j t R Hfj Ht.
        destruct (reaches_cons _ _ _ _ _ _ _ _ _ R)
          as [(-> & -> & ->)|[[_ R']|(t' & st1' & c' & ev' & Hf' & _)]];
          [congruence| |congruence].
        apply in_or_app. right. right. exact (IHb _ _ _ _ R' Hfj Ht).
    + pose proof (observe_change_alert _ _ _ _ _ _ Ho) as Hev.
      split.
      * rewrite orb_true_iff, IHc, Hev. split.
        -- intros [Hd|(j & s & st_j & t & R & Hfj & Hdiff)].
           ++ exists i, site, st, text. split; [constructor|]. auto.
           ++ exists j, s, st_j, t. split; [|auto].
              eapply Reach_after_observe; eauto.
        -- intros (j & s & st_j & t & R & Hfj & Hdiff).
           destruct (reaches_cons _ _ _ _ _ _ _ _ _ R)
             as [(-> & -> & ->)
                |[[Hn _]|(t' & st1' & c' & ev' & Hf' & Ho' & R')]].
           ++ left. rewrite Hf in Hfj. injection Hfj as <-. exact Hdiff.
           ++ congruence.
           ++ right. rewrite Hf in Hf'. injection Hf' as <-.
              rewrite Ho in Ho'. injection Ho' as <- _ _.
              exists j, s, st_j, t. auto.
      * intros j s st_j t R Hfj Ht. apply in_or_app. right.
        destruct (reaches_cons _ _ _ _ _ _ _ _ _ R)
          as [(-> & -> & ->)
             |[[Hn _]|(t' & st1' & c' & ev' & Hf' & Ho' & R')]].
        -- left. rewrite Hf in Hfj. injection Hfj as <-.
           exact (observe_falsy _ _ _ _ _ _ Ht Ho).
        -- congruence.
        -- right. rewrite Hf in Hf'. injection Hf' as <-.
           rewrite Ho in Ho'. injection Ho' as <- _ _.
           exact (IHb _ _ _ _ R' Hfj Ht).
Qed.

End PassFacts.

(* ================================================================= *)
(** ** The ledger: claims *)

Import PyDict DictFacts LedgerFacts PassFacts.

(** C1.  [observe] hashes the new value.  Without an entry for the
    site it inserts [{hash, value}], reports a baseline, and a second
    observation of the same value then reports no change and leaves the
    ledger as it is.  With an entry whose stored hash differs it sets
    the hash and the value of that entry in place and reports the
    change.  With an entry whose stored hash is the new one it reports
    no change and returns the ledger it was given. *)
Theorem C1_observe (st : state) (site : SiteConfig) (value : str) :
  (get (id site) st = None ->
   exists st',
     observe st site value = inr (st', false, BaselineAlert site value) /\
     get (id site) st'
     = Some [(HASH, compute_hash value); (VALUE, value)] /\
     (forall k, k <> id site -> get k st' = get k st) /\
     observe st' site value = inr (st', false, NoChange site value))
  /\ (forall entry stored old_value,
        get (id site) st = Some entry ->
        get HASH entry = Some stored ->
        get VALUE entry = Some old_value ->
        stored <> compute_hash value ->
        exists st' entry',
          observe st site value
          = inr (st', true,
                 ChangeAlert site old_value value
                             (describe_difference old_value value)) /\
          get (id site) st' = Some entry' /\
          get HASH entry' = Some (compute_hash value) /\
          get VALUE entry' = Some value /\
          keys st' = keys st /\
          (forall k, k <> id site -> get k st' = get k st))
  /\ (forall entry,
        get (id site) st = Some entry ->
        get HASH entry = Some (compute_hash value) ->
        observe st site value = inr (st, false, NoChange site value))
  /\ (exists st1,
        observe [] site value = inr (st1, false, BaselineAlert site value) /\
        observe st1 site value = inr (st1, false, NoChange site value)).
Proof.
  assert (Base : forall s0 : state,
             get (id site) s0 = None ->
             exists st',
               observe s0 site value
               = inr (st', false, BaselineAlert site value) /\
               get (id site) st'
               = Some [(HASH, compute_hash value); (VALUE, value)] /\
               (forall k, k <> id site -> get k st' = get k s0) /\
               observe st' site value
               = inr (st', false, NoChange site value)).
  { intros s0 G. exists (set (id site) (fresh_entry value) s0).
    split; [apply observe_absent, G|].
    split; [apply get_set_same|].
    split; [intros k Hk; apply get_set_other; congruence|].
    apply observe_same with (entry := fresh_entry value);
      [apply get_set_same|reflexivity]. }
  split; [apply Base|]. split; [|split].
  - intros entry stored old_value G Hh Hv Hne.
    exists (set (id site) (updated_entry entry value) st),
           (updated_entry entry value).
    rewrite (observe_differs st site value entry stored G Hh Hne), Hv.
    destruct (updated_entry_get entry value) as [H1 H2].
    repeat split; auto.
    + apply get_set_same.
    + apply keys_set_present. eapply get_Some_In. exact G.
    + intros k Hk. apply get_set_other. congruence.
  - intros entry G Hh. exact (observe_same st site value entry G Hh).
  - destruct (Base [] eq_refl) as (st1 & H1 & _ & _ & H2). eauto.
Qed.

(** A ledger with one site, observed three times. *)
Definition one_site : SiteConfig := site_of_kind "text".

Definition ledger_of (value : string) : state :=
  [(lit "s", [(HASH, compute_hash (lit value)); (VALUE, lit value)])].

Example observe_sequence :
  observe [] one_site (lit "v1")
  = inr (ledger_of "v1", false, BaselineAlert one_site (lit "v1")) /\
  observe (ledger_of "v1") one_site (lit "v1")
  = inr (ledger_of "v1", false, NoChange one_site (lit "v1")) /\
  observe (ledger_of "v1") one_site (lit "v2")
  = inr (ledger_of "v2", true,
         ChangeAlert one_site (lit "v1") (lit "v2")
                     (ARROW_UP ++ lit " +1.00")).
Proof. vm_compute. repeat split; reflexivity. Qed.

(** [check_sites] by the outcome of its loop. *)
Lemma check_sites_outcome raw_sites f fetch env :
  let sites := fst (to_site_configs raw_sites) in
  let printed := map Printed (snd (to_site_configs raw_sites)) in
  let st0 := fst (load_state f) in
  let read_events := if snd (load_state f) then [ReadWarning] else [] in
  (sites = [] ->
   check_sites raw_sites f fetch env
   = MkPass f (printed ++ [Printed NO_SITES]) None None) /\
  (sites <> [] ->
   match check_loop env fetch 0 sites st0 false with
   | (evs, inl e) =>
       check_sites raw_sites f fetch env
       = MkPass f (printed ++ read_events ++ evs) None (Some e)
   | (evs, inr (st', any_changes)) =>
       check_sites raw_sites f fetch env
       = MkPass (fst (save_state st'))
           (printed ++ read_events ++ evs
            ++ (if snd (save_state st') then [WriteError] else [])
            ++ [Printed (if any_changes then CHANGES else NO_CHANGES)])
           (Some st') None
   end).
Proof.
  unfold check_sites.
  destruct (to_site_configs raw_sites) as [sites warnings].
  cbn [fst snd]. split.
  - intros ->. reflexivity.
  - intros Hne. destruct sites as [|s0 rest]; [congruence|].
    destruct (load_state f) as [st0 warned]. cbn [fst snd].
    destruct (check_loop env fetch 0 (s0 :: rest) st0 false)
      as [evs [e|[st' any]]]; [reflexivity|].
    destruct (save_state st') as [f' failed]. reflexivity.
Qed.


(** A world in which every failed request says so and the image lookup
    raises nothing. *)
Definition calm : environment :=
  MkEnv (fun _ _ => lit "503 Server Error") (fun _ _ => false).

(** A ledger file with two entries, and a pass over the site list of
    the source in which only the book price can be fetched. *)
Definition demo_ledger : state :=
  [ (lit "book_demo", [(HASH, compute_hash (lit "$51.77"));
                       (VALUE, lit "$51.77")]);
    (lit "retired_site", [(HASH, lit "0123"); (VALUE, lit "old")]) ].

Definition demo_file : file := fst (save_state demo_ledger).

Definition demo_fetch (i : nat) (site : SiteConfig) : option str :=
  if PyStr.eqb (id site) (lit "book_demo") then Some (lit "$53.10")
  else None.


Example demo_pass :
  pass_saved (check_sites SITES demo_file demo_fetch calm)
  = Some [ (lit "book_demo", [(HASH, compute_hash (lit "$53.10"));
                              (VALUE, lit "$53.10")]);
           (lit "retired_site", [(HASH, lit "0123"); (VALUE, lit "old")]) ]
  /\ last (pass_events (check_sites SITES demo_file demo_fetch calm))
          ReadWarning
     = Printed CHANGES.
Proof. vm_compute. split; reflexivity. Qed.


(** A first pass over the site list of the source: seven baselines. *)
Definition first_fetch (i : nat) (site : SiteConfig) : option str :=
  Some (lit "Python 3.13.2 costs $5.00; Previous close 417.20").



Example first_pass_only_baselines :
  filter (fun ev => match ev with
                    | BaselineAlert _ _ => true
                    | _ => false
                    end)
         (pass_events (check_sites SITES None first_fetch calm))
  = map (fun sv => BaselineAlert (fst sv) (snd sv))
        (combine (fst (to_site_configs SITES))
           [ lit "Python 3.13.2 costs $5.00; Previous close 417.20";
             lit "$417.20";
             lit "$5.00";
             lit "Python 3.13.2 costs $5.00; Previous close 417.20";
             lit "Python 3.13.2 costs $5.00; Previous close 417.20";
             lit "Python 3.13.2 costs $5.00; Previous close 417.20";
             lit "Python 3.13.2" ])
  /\ last (pass_events (check_sites SITES None first_fetch calm)) ReadWarning
     = Printed NO_CHANGES.
Proof. vm_compute. split; reflexivity. Qed.

(** A value that standard output cannot encode ends the pass before
    anything is saved. *)
Example unprintable_value_raises :
  pass_raised
    (check_sites SITES None (fun _ _ => Some [97; 55296]%N) calm)
  = Some UnicodeEncodeErrorExn /\
  pass_saved
    (check_sites SITES None (fun _ _ => Some [97; 55296]%N) calm)
  = None.
Proof. vm_compute. split; reflexivity. Qed.

(* ================================================================= *)
(** ** Sorted items *)

Module SortFacts.
Import PyDict DictFacts.

Lemma ltb_irrefl (a : str) : PyStr.ltb a a = false.
Proof.
  induction a as [|x a IH]; simpl; auto.
  rewrite N.ltb_irrefl, N.eqb_refl, IH. reflexivity.
Qed.

Lemma ltb_trans (a : str) : forall b c,
  PyStr.ltb a b = true -> PyStr.ltb b c = true -> PyStr.ltb a c = true.
Proof.
  induction a as [|x a IH]; intros [|y b] [|z c]; simpl; auto;
    try discriminate.
  rewrite !orb_true_iff, !andb_true_iff, !N.ltb_lt, !N.eqb_eq.
  intros [Hxy|[-> Hab]] [Hyz|[-> Hbc]]; auto; [left; lia|].
  right. split; auto. apply (IH b c); auto.
Qed.

Lemma ltb_total (a : str) : forall b,
  PyStr.ltb a b = false -> PyStr.ltb b a = false -> a = b.
Proof.
  induction a as [|x a IH]; intros [|y b]; simpl; auto; try discriminate.
  rewrite !orb_false_iff, !andb_false_iff, !N.ltb_ge, !N.eqb_neq.
  intros [Hxy H1] [Hyx H2].
  assert (x = y) by lia. subst y. f_equal. apply IH.
  - destruct H1; [congruence|auto].
  - destruct H2; [congruence|auto].
Qed.

Lemma ltb_asym (a b : str) : PyStr.ltb a b = true -> PyStr.ltb b a = false.
Proof.
  intros H. destruct (PyStr.ltb b a) eqn:E; auto.
  pose proof (ltb_trans a b a H E) as C. rewrite ltb_irrefl in C.
  discriminate.
Qed.

Section Items.
Variable V : Type.
Implicit Types (d l : list (str * V)) (x y : str * V).

Definition key_lt x y : Prop := PyStr.ltb (fst x) (fst y) = true.

(** Strictly increasing keys. *)
Definition increasing l : Prop := StronglySorted key_lt l.

Lemma insert_item_perm x l : Permutation (insert_item x l) (x :: l).
Proof.
  induction l as [|y l IH]; simpl; auto.
  destruct (PyStr.ltb (fst y) (fst x)); auto.
  rewrite IH. apply perm_swap.
Qed.

Lemma sorted_items_perm d : Permutation (sorted_items d) d.
Proof.
  induction d as [|x d IH]; simpl; auto.
  rewrite insert_item_perm. auto.
Qed.

Lemma insert_item_increasing x l :
  increasing l -> ~ List.In (fst x) (keys l) ->
  increasing (insert_item x l).
Proof.
  unfold increasing. induction 1 as [|y l Hl IH Hy]; intros Hx; simpl.
  - repeat constructor.
  - simpl in Hx. destruct (PyStr.ltb (fst y) (fst x)) eqn:E.
    + constructor; [apply IH; tauto|].
      rewrite Forall_forall in *. intros z Hz.
      apply (Permutation_in _ (insert_item_perm x l)) in Hz.
      destruct Hz as [<-|Hz]; [exact E|auto].
    + assert (Hlt : key_lt x y).
      { unfold key_lt. destruct (PyStr.ltb (fst x) (fst y)) eqn:E'; auto.
        exfalso. apply Hx. left. symmetry. apply ltb_total; auto. }
      constructor; [constructor; auto|].
      constructor; auto.
      rewrite Forall_forall in *. intros z Hz.
      unfold key_lt in *. eapply ltb_trans; eauto.
Qed.

Lemma sorted_items_increasing d :
  is_dict d -> increasing (sorted_items d).
Proof.
  unfold is_dict. induction d as [|x d IH]; simpl; intros H.
  - constructor.
  - inversion H as [|? ? Hx Hd]; subst.
    apply insert_item_increasing; [auto|].
    intros Hin. apply Hx. unfold keys in *.
    apply (Permutation_in _ (Permutation_map fst (sorted_items_perm d))).
    exact Hin.
Qed.

(** Sorting keeps an increasing list as it is. *)
Lemma sorted_items_fixed l : increasing l -> sorted_items l = l.
Proof.
  unfold increasing. induction 1 as [|x l Hl IH Hx]; simpl; auto.
  rewrite IH. destruct l as [|y l']; simpl; auto.
  inversion Hx as [|? ? Hxy _]; subst. unfold key_lt in Hxy.
  rewrite (ltb_asym _ _ Hxy). reflexivity.
Qed.

(** Two increasing lists with the same items are the same list. *)
Lemma increasing_unique l1 : forall l2,
  increasing l1 -> increasing l2 -> Permutation l1 l2 -> l1 = l2.
Proof.
  unfold increasing. induction l1 as [|x l1 IH]; intros l2 H1 H2 P.
  - apply Permutation_nil in P. auto.
  - destruct l2 as [|y l2];
      [apply Permutation_sym, Permutation_nil in P; discriminate|].
    inversion H1 as [|? ? S1 F1]; subst.
    inversion H2 as [|? ? S2 F2]; subst.
    rewrite Forall_forall in F1, F2.
    assert (x = y).
    { assert (Hy : List.In y (x :: l1))
        by (apply (Permutation_in _ (Permutation_sym P)); left; auto).
      assert (Hx : List.In x (y :: l2))
        by (apply (Permutation_in _ P); left; auto).
      destruct Hy as [|Hy]; auto. destruct Hx as [|Hx]; auto.
      pose proof (F1 _ Hy) as A. pose proof (F2 _ Hx) as B.
      unfold key_lt in *. rewrite (ltb_asym _ _ A) in B. discriminate. }
    subst y. f_equal. apply IH; auto.
    exact (Permutation_cons_inv P).
Qed.

(** The sorted items do not depend on the order of insertion. *)
Lemma sorted_items_order d1 d2 :
  is_dict d1 -> Permutation d1 d2 -> sorted_items d1 = sorted_items d2.
Proof.
  intros H1 P.
  assert (H2 : is_dict d2).
  { unfold is_dict, keys in *.
    exact (Permutation_NoDup (Permutation_map fst P) H1). }
  apply increasing_unique; auto using sorted_items_increasing.
  rewrite !sorted_items_perm. exact P.
Qed.

Lemma sorted_items_keys d :
  Permutation (keys (sorted_items d)) (keys d).
Proof. apply Permutation_map, sorted_items_perm. Qed.

End Items.

End SortFacts.

(* ================================================================= *)
(** ** JSON strings: writing and reading back *)

Module JsonStringFacts.
Import Json.

(** A check of [P] on every number below [n]. *)
Fixpoint all_below (n : nat) (P : N -> bool) : bool :=
  match n with
  | 0 => true
  | S n' => P (N.of_nat n') && all_below n' P
  end.

Lemma all_below_spec n P :
  all_below n P = true -> forall x, (x < N.of_nat n)%N -> P x = true.
Proof.
  induction n as [|n IH]; simpl; intros H x Hx; [lia|].
  apply andb_true_iff in H. destruct H as [Hn Hr].
  destruct (N.eq_dec x (N.of_nat n)) as [->|Hne]; auto.
  apply IH; auto. lia.
Qed.

(** The value of the four digits [hex4] writes. *)
Definition hex4_value (n : N) : option N :=
  match hex4 n with
  | [a; b; c; d] =>
      match hex_value a, hex_value b, hex_value c, hex_value d with
      | Some x, Some y, Some z, Some w =>
          Some (x * 4096 + y * 256 + z * 16 + w)%N
      | _, _, _, _ => None
      end
  | _ => None
  end.

(** The same check, counting upwards from [x]. *)
Fixpoint all_from (n : nat) (x : N) (P : N -> bool) : bool :=
  match n with
  | 0 => true
  | S n' => P x && all_from n' (N.succ x) P
  end.

Lemma all_from_spec n : forall x P,
  all_from n x P = true ->
  forall y, (x <= y < x + N.of_nat n)%N -> P y = true.
Proof.
  induction n as [|n IH]; simpl; intros x P H y Hy; [lia|].
  apply andb_true_iff in H. destruct H as [Hx Hr].
  destruct (N.eq_dec y x) as [->|Hne]; auto.
  apply (IH (N.succ x) P Hr). lia.
Qed.

Lemma hex4_value_id n : (n < 65536)%N -> hex4_value n = Some n.
Proof.
  intros Hn.
  assert (H : all_from (N.to_nat 65536) 0
                (fun n => match hex4_value n with
                          | Some m => N.eqb m n
                          | None => false
                          end) = true)
    by (vm_compute; reflexivity).
  pose proof (all_from_spec _ _ _ H n) as Hc. rewrite N2Nat.id in Hc.
  specialize (Hc (conj (N.le_0_l n) Hn)). cbv beta in Hc.
  destruct (hex4_value n) as [m|]; [|discriminate].
  apply N.eqb_eq in Hc. congruence.
Qed.

Lemma read_hex4_hex4 n r :
  (n < 65536)%N -> read_hex4 (hex4 n ++ r) = Some (n, r).
Proof.
  intros Hn. pose proof (hex4_value_id n Hn) as H.
  unfold hex4_value, hex4 in H. unfold read_hex4, hex4. cbn [app].
  set (a := Sha256.hex_digit (N.land (N.shiftr n 12) 15)) in *.
  set (b := Sha256.hex_digit (N.land (N.shiftr n 8) 15)) in *.
  set (c := Sha256.hex_digit (N.land (N.shiftr n 4) 15)) in *.
  set (d := Sha256.hex_digit (N.land n 15)) in *.
  destruct (hex_value a), (hex_value b), (hex_value c), (hex_value d);
    try discriminate.
  injection H as <-. reflexivity.
Qed.

Definition printable (c : N) : bool := in_range 32 126 c.

Lemma hex4_printable n : forallb printable (hex4 n) = true.
Proof.
  assert (H : all_below 16 (fun x => printable (Sha256.hex_digit x)) = true)
    by (vm_compute; reflexivity).
  assert (D : forall m, printable (Sha256.hex_digit (N.land m 15)) = true).
  { intros m. apply (all_below_spec _ _ H).
    change 15%N with (N.ones 4). rewrite N.land_ones.
    apply N.mod_lt. discriminate. }
  unfold hex4. simpl. rewrite !D. reflexivity.
Qed.

Lemma lor_surrogate x :
  (x < 1024)%N ->
  N.lor 55296 x = (55296 + x)%N /\ N.lor 56320 x = (56320 + x)%N.
Proof.
  intros Hx.
  assert (H : all_below 1024
                (fun x => N.eqb (N.lor 55296 x) (55296 + x)
                          && N.eqb (N.lor 56320 x) (56320 + x)) = true)
    by (vm_compute; reflexivity).
  pose proof (all_below_spec _ _ H x Hx) as Hc. cbv beta in Hc.
  apply andb_true_iff in Hc. rewrite !N.eqb_eq in Hc. exact Hc.
Qed.

(** The two escapes of a character beyond the basic plane. *)
Definition high_of (c : N) : N :=
  N.lor 55296 (N.land (N.shiftr (c - 65536) 10) 1023).
Definition low_of (c : N) : N :=
  N.lor 56320 (N.land (c - 65536) 1023).

Lemma surrogates_of c :
  (65536 <= c < 1114112)%N ->
  is_high (high_of c) = true /\ is_low (low_of c) = true /\
  join_surrogates (high_of c) (low_of c) = c.
Proof.
  intros Hc. unfold high_of, low_of, is_high, is_low, join_surrogates.
  change 1023%N with (N.ones 10). rewrite !N.land_ones, N.shiftr_div_pow2.
  change (2 ^ 10)%N with 1024%N.
  assert (Ha : ((c - 65536) / 1024 < 1024)%N)
    by (apply N.Div0.div_lt_upper_bound; lia).
  assert (Hb : ((c - 65536) mod 1024 < 1024)%N)
    by (apply N.mod_lt; discriminate).
  rewrite (N.mod_small _ _ Ha).
  rewrite (proj1 (lor_surrogate _ Ha)), (proj2 (lor_surrogate _ Hb)).
  pose proof (N.div_mod (c - 65536) 1024 ltac:(discriminate)) as Hd.
  unfold in_range. rewrite !andb_true_iff, !N.leb_le.
  set (a := ((c - 65536) / 1024)%N) in *.
  set (b := ((c - 65536) mod 1024)%N) in *.
  clearbody a b. lia.
Qed.

Lemma surrogates_back hi lo :
  is_high hi = true -> is_low lo = true ->
  (65536 <= join_surrogates hi lo < 1114112)%N /\
  high_of (join_surrogates hi lo) = hi /\
  low_of (join_surrogates hi lo) = lo.
Proof.
  unfold is_high, is_low, in_range. rewrite !andb_true_iff, !N.leb_le.
  intros [H1 H2] [L1 L2]. unfold join_surrogates, high_of, low_of.
  split; [lia|].
  replace (65536 + (hi - 55296) * 1024 + (lo - 56320) - 65536)%N
    with ((lo - 56320) + (hi - 55296) * 1024)%N by lia.
  change 1023%N with (N.ones 10). rewrite !N.land_ones, N.shiftr_div_pow2.
  change (2 ^ 10)%N with 1024%N.
  rewrite N.div_add by discriminate.
  rewrite N.Div0.mod_add.
  rewrite (N.div_small (lo - 56320) 1024) by lia.
  rewrite (N.mod_small (lo - 56320) 1024) by lia.
  rewrite (N.mod_small (0 + (hi - 55296)) 1024) by lia.
  rewrite (proj1 (lor_surrogate (0 + (hi - 55296)) ltac:(lia))).
  rewrite (proj2 (lor_surrogate (lo - 56320) ltac:(lia))).
  lia.
Qed.

(** *** One character *)

Definition valid (c : N) : Prop := (c < 1114112)%N.

Definition enc (s : str) : str := flat_map escape_char s.

(** What [scanstring] makes of the escapes of [s]: a high surrogate
    directly followed by a low one comes back as one character. *)
Fixpoint join_pairs (s : str) : str :=
  match s with
  | h :: ((l :: t) as s') =>
      if is_high h && is_low l
      then join_surrogates h l :: join_pairs t
      else h :: join_pairs s'
  | _ => s
  end.

Lemma escape_char_cases c :
  valid c ->
  (escape_char c = [c] /\ N.eqb c QUOTE = false /\
   N.eqb c BACKSLASH = false /\ N.leb c 31 = false /\ (c <= 126)%N)
  \/ (exists e, escape_char c = [BACKSLASH; e] /\
                simple_escape e = Some c /\ N.eqb e 117 = false)
  \/ (escape_char c = u_escape c /\ (c < 65536)%N)
  \/ (escape_char c = u_escape (high_of c) ++ u_escape (low_of c) /\
      (65536 <= c)%N).
Proof.
  intros Hv. unfold escape_char.
  destruct (N.eqb_spec c QUOTE) as [->|H1];
    [right; left; exists QUOTE; auto|].
  destruct (N.eqb_spec c BACKSLASH) as [->|H2];
    [right; left; exists BACKSLASH; auto|].
  destruct (N.eqb_spec c 10) as [->|H3];
    [right; left; exists 110%N; auto|].
  destruct (N.eqb_spec c 13) as [->|H4];
    [right; left; exists 114%N; auto|].
  destruct (N.eqb_spec c 9) as [->|H5];
    [right; left; exists 116%N; auto|].
  destruct (N.eqb_spec c 8) as [->|H6];
    [right; left; exists 98%N; auto|].
  destruct (N.eqb_spec c 12) as [->|H7];
    [right; left; exists 102%N; auto|].
  destruct (in_range 32 126 c) eqn:Hp.
  - left. apply andb_true_iff in Hp. rewrite !N.leb_le in Hp.
    repeat split; auto; try (apply N.eqb_neq; assumption); try lia.
    apply N.leb_gt. lia.
  - destruct (N.ltb_spec c 65536) as [Hlt|Hge].
    + right. right. left. auto.
    + right. right. right. auto.
Qed.

Lemma escape_char_surrogate c :
  (55296 <= c <= 57343)%N -> escape_char c = u_escape c.
Proof.
  intros Hc. unfold escape_char.
  repeat match goal with
  | |- context [N.eqb c ?k] =>
      destruct (N.eqb_spec c k); [unfold QUOTE, BACKSLASH in *; lia|]
  end.
  destruct (in_range 32 126 c) eqn:Hp.
  - apply andb_true_iff in Hp. rewrite !N.leb_le in Hp. lia.
  - destruct (N.ltb_spec c 65536); [reflexivity|lia].
Qed.

Lemma escape_char_astral hi lo :
  is_high hi = true -> is_low lo = true ->
  escape_char (join_surrogates hi lo) = escape_char hi ++ escape_char lo.
Proof.
  intros Hh Hl.
  destruct (surrogates_back hi lo Hh Hl) as (Hr & H1 & H2).
  assert (Rh : (55296 <= hi <= 57343)%N).
  { unfold is_high, in_range in Hh. apply andb_true_iff in Hh.
    rewrite !N.leb_le in Hh. lia. }
  assert (Rl : (55296 <= lo <= 57343)%N).
  { unfold is_low, in_range in Hl. apply andb_true_iff in Hl.
    rewrite !N.leb_le in Hl. lia. }
  rewrite (escape_char_surrogate hi Rh), (escape_char_surrogate lo Rl).
  destruct (escape_char_cases (join_surrogates hi lo) (proj2 Hr))
    as [(_ & _ & _ & _ & H)|[(e & _ & He & _)|[(_ & H)|(E & _)]]].
  - lia.
  - exfalso. unfold simple_escape in He.
    repeat match type of He with
    | (if ?b then _ else _) = _ => destruct b
    end; try discriminate; injection He as He;
      unfold QUOTE, BACKSLASH in *; lia.
  - lia.
  - rewrite E. unfold high_of, low_of in *. rewrite H1, H2. reflexivity.
Qed.

(** Writing does not tell a joined pair from its two halves. *)
Lemma enc_join_pairs s : enc (join_pairs s) = enc s.
Proof.
  assert (H : forall n s, length s <= n -> enc (join_pairs s) = enc s).
  { clear s. induction n as [|n IH]; intros s Hn.
    - destruct s; [reflexivity|simpl in Hn; lia].
    - destruct s as [|h [|l t]]; try reflexivity.
      simpl in Hn. cbn [join_pairs].
      destruct (is_high h && is_low l) eqn:E.
      + apply andb_true_iff in E. destruct E as [Hh Hl].
        unfold enc in *. cbn [flat_map].
        rewrite (escape_char_astral h l Hh Hl), IH by lia.
        now rewrite <- app_assoc.
      + unfold enc in *. cbn [flat_map]. f_equal.
        apply (IH (l :: t)). simpl. lia. }
  apply (H (length s)). lia.
Qed.

(** *** The scanner, one escape at a time *)

Lemma scan_plain f c r acc :
  N.eqb c QUOTE = false -> N.eqb c BACKSLASH = false ->
  N.leb c 31 = false ->
  scan_fuel (S f) (c :: r) acc = scan_fuel f r (c :: acc).
Proof. intros H1 H2 H3. cbn [scan_fuel]. rewrite H1, H2, H3. reflexivity. Qed.

Lemma scan_simple f e c r acc :
  simple_escape e = Some c -> N.eqb e 117 = false ->
  scan_fuel (S f) (BACKSLASH :: e :: r) acc = scan_fuel f r (c :: acc).
Proof.
  intros H1 H2. cbn [scan_fuel].
  change (N.eqb BACKSLASH QUOTE) with false.
  change (N.eqb BACKSLASH BACKSLASH) with true. cbv iota.
  rewrite H2, H1. reflexivity.
Qed.

(** After a [\u] escape of a high surrogate the scanner looks at what
    follows. *)
Definition after_high (f : nat) (n : N) (r : str) (acc : str)
  : option (str * str) :=
  match r with
  | b :: u :: r' =>
      if N.eqb b BACKSLASH && N.eqb u 117 then
        match read_hex4 r' with
        | None => None
        | Some (n2, r2) =>
            if is_low n2
            then scan_fuel f r2 (join_surrogates n n2 :: acc)
            else scan_fuel f r (n :: acc)
        end
      else scan_fuel f r (n :: acc)
  | _ => scan_fuel f r (n :: acc)
  end.

Lemma scan_u f n r acc :
  (n < 65536)%N ->
  scan_fuel (S f) (u_escape n ++ r) acc
  = if is_high n then after_high f n r acc else scan_fuel f r (n :: acc).
Proof.
  intros Hn. unfold u_escape. cbn [app scan_fuel].
  change (N.eqb BACKSLASH QUOTE) with false.
  change (N.eqb BACKSLASH BACKSLASH) with true.
  change (N.eqb 117 117) with true. cbv iota.
  rewrite (read_hex4_hex4 n r Hn). unfold after_high.
  destruct (is_high n); [|reflexivity].
  destruct r as [|b [|u r']]; reflexivity.
Qed.

Lemma high_low_disjoint n : is_high n = true -> is_low n = false.
Proof.
  unfold is_high, is_low, in_range. rewrite andb_true_iff, !N.leb_le.
  intros [H1 H2]. apply andb_false_iff. left. apply N.leb_gt. lia.
Qed.

Lemma high_range n : is_high n = true -> (55296 <= n <= 57343)%N.
Proof.
  unfold is_high, in_range. rewrite andb_true_iff, !N.leb_le. lia.
Qed.

Lemma low_range n : is_low n = true -> (55296 <= n <= 57343)%N.
Proof.
  unfold is_low, in_range. rewrite andb_true_iff, !N.leb_le. lia.
Qed.

(** What follows does not start with the escape of a low surrogate:
    the high surrogate stands alone. *)
Lemma after_high_alone f n t rest acc :
  Forall valid t ->
  match t with l :: _ => is_low l = false | [] => True end ->
  after_high f n (enc t ++ QUOTE :: rest) acc
  = scan_fuel f (enc t ++ QUOTE :: rest) (n :: acc).
Proof.
  intros Hv Hl. destruct t as [|l t].
  - unfold enc, after_high. cbn [flat_map app].
    destruct rest as [|u r']; [reflexivity|].
    change (N.eqb QUOTE BACKSLASH) with false. reflexivity.
  - inversion Hv as [|? ? Hvl Hvt]; subst.
    unfold enc. cbn [flat_map]. rewrite <- app_assoc.
    set (r := flat_map escape_char t ++ QUOTE :: rest).
    destruct (escape_char_cases l Hvl)
      as [(E & _ & Hb & _ & _)|[(e & E & _ & He)|[(E & Hlt)|(E & Hge)]]];
      rewrite E.
    + unfold after_high. cbn [app].
      destruct r as [|u r']; [reflexivity|]. rewrite Hb. reflexivity.
    + unfold after_high. cbn [app]. rewrite He.
      rewrite andb_false_r. reflexivity.
    + unfold after_high, u_escape. cbn [app].
      change (N.eqb BACKSLASH BACKSLASH) with true.
      change (N.eqb 117 117) with true. cbn [andb].
      rewrite (read_hex4_hex4 l r Hlt), Hl. reflexivity.
    + destruct (surrogates_of l (conj Hge Hvl)) as (Hh & _ & _).
      unfold after_high, u_escape. cbn [app].
      change (N.eqb BACKSLASH BACKSLASH) with true.
      change (N.eqb 117 117) with true. cbn [andb].
      rewrite <- app_assoc.
      rewrite read_hex4_hex4 by (pose proof (high_range _ Hh); lia).
      rewrite (high_low_disjoint _ Hh). reflexivity.
Qed.

Lemma join_pairs_alone h t :
  match t with l :: _ => is_high h && is_low l = false | [] => True end ->
  join_pairs (h :: t) = h :: join_pairs t.
Proof.
  destruct t as [|l t]; [reflexivity|]. cbn [join_pairs].
  intros ->. reflexivity.
Qed.

(** Reading back what [encode_string] wrote. *)
Lemma scan_enc : forall n s,
  length s <= n -> Forall valid s ->
  forall f rest acc,
    length s < f ->
    scan_fuel f (enc s ++ QUOTE :: rest) acc
    = Some (rev acc ++ join_pairs s, rest).
Proof.
  induction n as [|n IH]; intros s Hn Hv f rest acc Hf.
  - destruct s; [|simpl in Hn; lia].
    destruct f; [simpl in Hf; lia|].
    unfold enc. cbn [flat_map app scan_fuel join_pairs].
    change (N.eqb QUOTE QUOTE) with true. cbv iota.
    now rewrite app_nil_r.
  - destruct s as [|c t].
    { destruct f; [simpl in Hf; lia|].
      unfold enc. cbn [flat_map app scan_fuel join_pairs].
      change (N.eqb QUOTE QUOTE) with true. cbv iota.
      now rewrite app_nil_r. }
    inversion Hv as [|? ? Hvc Hvt]; subst.
    destruct f as [|f]; [simpl in Hf; lia|].
    simpl in Hn, Hf.
    assert (Step : scan_fuel f (enc t ++ QUOTE :: rest) (c :: acc)
                   = Some (rev acc ++ c :: join_pairs t, rest)).
    { rewrite (IH t) by (auto; lia). cbn [rev].
      now rewrite <- app_assoc. }
    unfold enc. cbn [flat_map]. rewrite <- app_assoc. fold (enc t).
    destruct (is_high c) eqn:Hh.
    + pose proof (high_range _ Hh) as Rc.
      rewrite (escape_char_surrogate c Rc).
      rewrite scan_u by lia. rewrite Hh.
      destruct t as [|l t'].
      * rewrite (after_high_alone f c [] rest acc); auto.
      * destruct (is_low l) eqn:Hl.
        -- pose proof (low_range _ Hl) as Rl.
           unfold enc. cbn [flat_map]. rewrite <- app_assoc. fold (enc t').
           rewrite (escape_char_surrogate l Rl).
           unfold after_high, u_escape. cbn [app].
           change (N.eqb BACKSLASH BACKSLASH) with true.
           change (N.eqb 117 117) with true. cbn [andb].
           rewrite read_hex4_hex4 by lia. rewrite Hl.
           inversion Hvt as [|? ? _ Hvt']; subst.
           simpl in Hn, Hf.
           rewrite (IH t') by (auto; lia).
           cbn [join_pairs rev]. rewrite Hh, Hl. cbn [andb].
           now rewrite <- app_assoc.
        -- rewrite (after_high_alone f c (l :: t') rest acc); auto.
           rewrite Step. rewrite (join_pairs_alone c (l :: t')); auto.
           rewrite Hl. apply andb_false_r.
    + assert (Hj : join_pairs (c :: t) = c :: join_pairs t).
      { apply join_pairs_alone. destruct t; auto. rewrite Hh. reflexivity. }
      rewrite Hj.
      destruct (escape_char_cases c Hvc)
        as [(E & H1 & H2 & H3 & _)|[(e & E & He & Hu)|[(E & Hlt)|(E & Hge)]]];
        rewrite E.
      * cbn [app]. rewrite scan_plain by auto. exact Step.
      * cbn [app]. rewrite (scan_simple f e c) by auto. exact Step.
      * rewrite scan_u by auto. rewrite Hh. exact Step.
      * destruct (surrogates_of c (conj Hge Hvc)) as (Hhi & Hlo & Hjoin).
        rewrite <- app_assoc.
        rewrite scan_u by (pose proof (high_range _ Hhi); lia).
        rewrite Hhi. unfold after_high, u_escape. cbn [app].
        change (N.eqb BACKSLASH BACKSLASH) with true.
        change (N.eqb 117 117) with true. cbn [andb].
        rewrite read_hex4_hex4 by (pose proof (low_range _ Hlo); lia).
        rewrite Hlo, Hjoin. exact Step.
Qed.

Lemma parse_encode_string s rest :
  Forall valid s ->
  parse_string (encode_string s ++ rest) = Some (join_pairs s, rest).
Proof.
  intros Hv. unfold parse_string, encode_string. cbn [app].
  change (N.eqb QUOTE QUOTE) with true. cbv iota.
  unfold scanstring. rewrite <- app_assoc. cbn [app].
  apply (scan_enc (length s) s (le_n _) Hv).
  rewrite length_app. simpl.
  assert (length s <= length (flat_map escape_char s)).
  { clear. induction s as [|c s IH]; simpl; auto.
    rewrite length_app.
    assert (1 <= length (escape_char c)).
    { unfold escape_char, u_escape.
      repeat match goal with
      | |- context [if ?b then _ else _] => destruct b
      end; simpl; lia. }
    lia. }
  lia.
Qed.

End JsonStringFacts.

(* ================================================================= *)
(** ** JSON documents: writing the ledger and reading it back *)

Module JsonDocFacts.
Import PyDict DictFacts SortFacts Json JsonStringFacts.

(** *** White space *)

Lemma skip_ws_head c r : is_ws c = false -> skip_ws (c :: r) = c :: r.
Proof. intros H. simpl. rewrite H. reflexivity. Qed.

Lemma skip_ws_space c r : is_ws c = true -> skip_ws (c :: r) = skip_ws r.
Proof. intros H. simpl. rewrite H. reflexivity. Qed.

Lemma skip_ws_indent n r : skip_ws (newline_indent n ++ r) = skip_ws r.
Proof.
  unfold newline_indent. cbn [app skip_ws].
  change (is_ws 10) with true. cbv iota.
  induction (2 * n) as [|m IH]; simpl; auto.
Qed.

Lemma encode_string_head s r :
  encode_string s ++ r = QUOTE :: (enc s ++ QUOTE :: r).
Proof.
  unfold encode_string, enc. cbn [app]. rewrite <- app_assoc. reflexivity.
Qed.

(** *** Objects *)

Section Object.
Variable V : Type.
Variable level : nat.
Variable dumps_value : V -> str.
Variable parse_value : str -> option (V * str).
Variable norm_value : V -> V.
Variable value_ok : V -> Prop.

Hypothesis value_head :
  forall v r, skip_ws (dumps_value v ++ r) = dumps_value v ++ r.
Hypothesis value_round_trip :
  forall v r, value_ok v ->
              parse_value (dumps_value v ++ r) = Some (norm_value v, r).

Definition key_ok (k : str) : Prop := Forall valid k /\ join_pairs k = k.

Definition item_text (kv : str * V) : str :=
  encode_string (fst kv) ++ lit ": " ++ dumps_value (snd kv).

Definition separator : str := lit "," ++ newline_indent (S level).

Definition closing : str := newline_indent level ++ lit "}".

Definition norm_item (kv : str * V) : str * V :=
  (fst kv, norm_value (snd kv)).

Lemma join_cons x y l :
  join separator (x :: y :: l) = x ++ separator ++ join separator (y :: l).
Proof. reflexivity. Qed.

Lemma item_text_head kv r :
  skip_ws (item_text kv ++ r) = item_text kv ++ r.
Proof.
  unfold item_text. rewrite <- app_assoc, encode_string_head.
  apply skip_ws_head. reflexivity.
Qed.

Lemma item_text_length kv : 1 <= length (item_text kv).
Proof.
  unfold item_text, encode_string. rewrite length_app. simpl. lia.
Qed.

Lemma join_items_length l :
  length l <= length (join separator (map item_text l)).
Proof.
  induction l as [|x l IH]; [simpl; lia|].
  destruct l as [|y l'].
  - cbn [map join length]. pose proof (item_text_length x). lia.
  - cbn [map] in *. rewrite join_cons, !length_app.
    pose proof (item_text_length x). cbn [length] in *. lia.
Qed.

(** One member: the key, the colon, the value. *)
Lemma member_step fuel kv r acc :
  key_ok (fst kv) -> value_ok (snd kv) ->
  members parse_value (S fuel) (item_text kv ++ r) acc
  = match skip_ws r with
    | d :: r4 =>
        if N.eqb d 125 then Some (set (fst kv) (norm_value (snd kv)) acc, r4)
        else if N.eqb d 44
             then members parse_value fuel (skip_ws r4)
                          (set (fst kv) (norm_value (snd kv)) acc)
             else None
    | [] => None
    end.
Proof.
  intros [Hv Hj] Hval. cbn [members]. unfold item_text.
  rewrite <- !app_assoc.
  rewrite (parse_encode_string (fst kv) _ Hv), Hj.
  cbn [lit list_ascii_of_string map app]. cbn [skip_ws].
  change (is_ws (N_of_ascii ":")) with false. cbv iota.
  change (N.eqb (N_of_ascii ":") 58) with true. cbv iota.
  rewrite skip_ws_space by reflexivity.
  rewrite value_head, (value_round_trip _ _ Hval). reflexivity.
Qed.

Lemma members_items : forall l acc fuel r,
  l <> [] -> length l <= fuel ->
  Forall (fun kv => key_ok (fst kv) /\ value_ok (snd kv)) l ->
  NoDup (keys acc ++ keys l) ->
  members parse_value fuel
          (join separator (map item_text l) ++ closing ++ r) acc
  = Some (acc ++ map norm_item l, r).
Proof.
  induction l as [|x l IH]; intros acc fuel r Hne Hf Hok Hnd; [congruence|].
  inversion Hok as [|? ? [Hk Hv] Hok']; subst.
  destruct fuel as [|fuel]; [simpl in Hf; lia|].
  assert (Hx : ~ List.In (fst x) (keys acc)).
  { intros Hin. apply NoDup_remove_2 in Hnd. apply Hnd.
    apply in_or_app. left. exact Hin. }
  assert (Hset : set (fst x) (norm_value (snd x)) acc = acc ++ [norm_item x])
    by (apply set_absent, Hx).
  destruct l as [|y l].
  - cbn [map join]. rewrite (member_step fuel x _ acc Hk Hv).
    unfold closing. rewrite <- app_assoc, skip_ws_indent.
    cbn [lit list_ascii_of_string map app skip_ws].
    change (is_ws (N_of_ascii "}")) with false. cbv iota.
    change (N.eqb (N_of_ascii "}") 125) with true. cbv iota.
    rewrite Hset. reflexivity.
  - cbn [map]. rewrite join_cons, <- !app_assoc.
    rewrite (member_step fuel x _ acc Hk Hv).
    unfold separator at 1. rewrite <- app_assoc.
    cbn [lit list_ascii_of_string map app skip_ws].
    change (is_ws (N_of_ascii ",")) with false. cbv iota.
    change (N.eqb (N_of_ascii ",") 125) with false.
    change (N.eqb (N_of_ascii ",") 44) with true. cbv iota.
    rewrite skip_ws_indent.
    change (item_text y :: map item_text l) with (map item_text (y :: l)).
    assert (Hhead : forall r',
               skip_ws (join separator (map item_text (y :: l)) ++ r')
               = join separator (map item_text (y :: l)) ++ r').
    { intros r'. destruct l as [|z l'].
      - cbn [map join]. apply item_text_head.
      - cbn [map]. rewrite join_cons, <- app_assoc. apply item_text_head. }
    rewrite Hhead, Hset.
    assert (Hne' : y :: l <> []) by discriminate.
    assert (Hf' : length (y :: l) <= fuel) by (simpl in *; lia).
    assert (Hnd' : NoDup (keys (acc ++ [norm_item x]) ++ keys (y :: l))).
    { unfold keys in *. rewrite map_app. cbn [map norm_item fst] in *.
      rewrite <- app_assoc. exact Hnd. }
    rewrite (IH (acc ++ [norm_item x]) fuel r Hne' Hf' Hok' Hnd').
    rewrite <- app_assoc. reflexivity.
Qed.

Lemma dumps_dict_nonempty x d :
  dumps_dict level dumps_value (x :: d)
  = lit "{" ++ newline_indent (S level)
    ++ join separator (map item_text (sorted_items (x :: d)))
    ++ closing.
Proof. reflexivity. Qed.

Lemma sorted_items_nonempty (x : str * V) d : sorted_items (x :: d) <> [].
Proof.
  intros H. pose proof (sorted_items_perm V (x :: d)) as P. rewrite H in P.
  apply Permutation_nil in P. discriminate.
Qed.

(** Reading back an object [dumps_dict] wrote. *)
Lemma parse_dumps_dict d r :
  is_dict d ->
  Forall (fun kv => key_ok (fst kv) /\ value_ok (snd kv)) d ->
  parse_object parse_value (dumps_dict level dumps_value d ++ r)
  = Some (map norm_item (sorted_items d), r).
Proof.
  intros Hd Hok. destruct d as [|x d]; [reflexivity|].
  rewrite dumps_dict_nonempty, <- !app_assoc.
  set (l := sorted_items (x :: d)).
  assert (Hl : l <> []) by apply sorted_items_nonempty.
  assert (Hokl : Forall (fun kv => key_ok (fst kv) /\ value_ok (snd kv)) l).
  { rewrite Forall_forall in *. intros kv Hin. apply Hok.
    apply (Permutation_in _ (sorted_items_perm V (x :: d))). exact Hin. }
  assert (Hndl : NoDup (keys l)).
  { unfold is_dict in Hd.
    apply (Permutation_NoDup
             (Permutation_sym (sorted_items_keys V (x :: d)))). exact Hd. }
  cbn [lit list_ascii_of_string map app]. unfold parse_object.
  change (N.eqb (N_of_ascii "{") 123) with true. cbv iota.
  rewrite skip_ws_indent.
  assert (Hhead : forall r',
             skip_ws (join separator (map item_text l) ++ r')
             = join separator (map item_text l) ++ r').
  { intros r'. destruct l as [|y [|z l']]; [congruence| |].
    - cbn [map join]. apply item_text_head.
    - cbn [map]. rewrite join_cons, <- app_assoc. apply item_text_head. }
  rewrite Hhead.
  assert (Hq : exists t, join separator (map item_text l) ++ closing ++ r
                         = QUOTE :: t).
  { destruct l as [|y [|z l']]; [congruence| |].
    - cbn [map join]. unfold item_text.
      rewrite <- !app_assoc, encode_string_head. eauto.
    - cbn [map]. rewrite join_cons. unfold item_text.
      rewrite <- !app_assoc, encode_string_head. eauto. }
  destruct Hq as (t & Hq).
  rewrite Hq. change (N.eqb QUOTE 125) with false. cbv iota.
  rewrite <- Hq.
  apply (members_items l [] _ r Hl); auto.
  rewrite length_app. unfold newline_indent. simpl length.
  rewrite length_app.
  pose proof (join_items_length l). lia.
Qed.

(** Writing again what was read back. *)
Lemma dumps_dict_norm (dumps_value' : V -> str) d :
  is_dict d ->
  (forall v, dumps_value' (norm_value v) = dumps_value v) ->
  dumps_dict level dumps_value' (map norm_item (sorted_items d))
  = dumps_dict level dumps_value d.
Proof.
  intros Hd Hdv. destruct d as [|x d]; [reflexivity|].
  set (l := sorted_items (x :: d)).
  assert (Hl : l <> []) by apply sorted_items_nonempty.
  assert (Hinc : increasing V l) by (apply sorted_items_increasing, Hd).
  assert (Hfix : sorted_items (map norm_item l) = map norm_item l).
  { apply sorted_items_fixed. clear -Hinc. unfold increasing in *.
    induction Hinc as [|y l Hl IH Hy]; simpl; constructor; auto.
    rewrite Forall_forall in *. intros z Hz.
    apply in_map_iff in Hz. destruct Hz as (z0 & <- & Hz0).
    exact (Hy z0 Hz0). }
  assert (Hgen : forall (dv : V -> str) (m : list (str * V)),
             m <> [] ->
             dumps_dict level dv m
             = lit "{" ++ newline_indent (S level)
               ++ join (lit "," ++ newline_indent (S level))
                       (map (fun kv => encode_string (fst kv) ++ lit ": "
                                       ++ dv (snd kv))
                            (sorted_items m))
               ++ newline_indent level ++ lit "}").
  { intros dv [|z m] Hm; [congruence|reflexivity]. }
  rewrite (Hgen dumps_value (x :: d)) by discriminate.
  rewrite (Hgen dumps_value' (map norm_item l)).
  2:{ destruct l; [congruence|discriminate]. }
  fold l. rewrite Hfix, map_map.
  do 4 f_equal. apply map_ext. intros [k v]. cbn [norm_item fst snd].
  rewrite Hdv. reflexivity.
Qed.

End Object.

End JsonDocFacts.

(* ================================================================= *)
(** ** The state file: what is written and what comes back *)

(** Code points of a Python string. *)
Definition valid_str (s : str) : bool :=
  forallb (fun c => N.ltb c 1114112) s.

(** No high surrogate directly followed by a low one. *)
Fixpoint pair_free (s : str) : bool :=
  match s with
  | h :: ((l :: _) as t) =>
      negb (Json.is_high h && Json.is_low l) && pair_free t
  | _ => true
  end.

Definition key_okb (k : str) : bool := valid_str k && pair_free k.

Fixpoint distinct (l : list str) : bool :=
  match l with
  | [] => true
  | x :: t => negb (existsb (PyStr.eqb x) t) && distinct t
  end.

Definition entry_okb (e : PyDict.dict str) : bool :=
  distinct (PyDict.keys e) && forallb key_okb (PyDict.keys e)
  && forallb valid_str (map snd e).

(** A ledger of Python strings with distinct keys, no key holding a
    high surrogate directly followed by a low one. *)
Definition ledger_okb (st : state) : bool :=
  distinct (PyDict.keys st) && forallb key_okb (PyDict.keys st)
  && forallb entry_okb (map snd st).

(** What reading makes of a written entry and of a written ledger: the
    items in the order of their keys, surrogate pairs in values
    joined. *)
Definition norm_entry (e : PyDict.dict str) : PyDict.dict str :=
  map (fun kv => (fst kv, JsonStringFacts.join_pairs (snd kv)))
      (PyDict.sorted_items e).

Definition norm_ledger (st : state) : state :=
  map (fun kv => (fst kv, norm_entry (snd kv))) (PyDict.sorted_items st).

Module StateFileFacts.
Import PyDict DictFacts SortFacts Json JsonStringFacts JsonDocFacts.

Lemma valid_str_spec s : valid_str s = true <-> Forall valid s.
Proof.
  unfold valid_str, valid. rewrite forallb_forall, Forall_forall.
  split; intros H x Hx; specialize (H x Hx); apply N.ltb_lt; exact H.
Qed.

Lemma pair_free_spec s : pair_free s = true -> join_pairs s = s.
Proof.
  induction s as [|h t IH]; [reflexivity|].
  destruct t as [|l t']; [reflexivity|].
  cbn [pair_free join_pairs]. rewrite andb_true_iff, negb_true_iff.
  intros [-> Ht]. f_equal. apply IH, Ht.
Qed.

Lemma key_okb_spec k : key_okb k = true -> key_ok k.
Proof.
  unfold key_okb, key_ok. rewrite andb_true_iff.
  intros [Hv Hp]. split; [apply valid_str_spec, Hv|apply pair_free_spec, Hp].
Qed.

Lemma distinct_spec l : distinct l = true -> NoDup l.
Proof.
  induction l as [|x t IH]; simpl; [constructor|].
  rewrite andb_true_iff, negb_true_iff. intros [Hx Ht].
  constructor; auto. intros Hin.
  assert (E : existsb (PyStr.eqb x) t = true).
  { apply existsb_exists. exists x. split; auto. apply eqb_refl. }
  congruence.
Qed.

Definition entry_ok (e : dict str) : Prop :=
  is_dict e /\
  Forall (fun kv => key_ok (fst kv) /\ Forall valid (snd kv)) e.

Definition ledger_ok (st : state) : Prop :=
  is_dict st /\
  Forall (fun kv => key_ok (fst kv) /\ entry_ok (snd kv)) st.

Lemma items_ok (V : Type) (okb : V -> bool) (ok : V -> Prop)
      (d : list (str * V)) :
  (forall v, okb v = true -> ok v) ->
  forallb key_okb (keys d) = true -> forallb okb (map snd d) = true ->
  Forall (fun kv => key_ok (fst kv) /\ ok (snd kv)) d.
Proof.
  intros Hok. induction d as [|[k v] d IH]; simpl; [constructor|].
  rewrite !andb_true_iff. intros [Hk Hks] [Hv Hvs].
  constructor; auto. split; [apply key_okb_spec, Hk|apply Hok, Hv].
Qed.

Lemma entry_okb_spec e : entry_okb e = true -> entry_ok e.
Proof.
  unfold entry_okb, entry_ok. rewrite !andb_true_iff.
  intros [[Hd Hk] Hv]. split; [apply distinct_spec, Hd|].
  apply (items_ok str valid_str); auto. apply valid_str_spec.
Qed.

Lemma ledger_okb_spec st : ledger_okb st = true -> ledger_ok st.
Proof.
  unfold ledger_okb, ledger_ok. rewrite !andb_true_iff.
  intros [[Hd Hk] Hv]. split; [apply distinct_spec, Hd|].
  apply (items_ok (dict str) entry_okb); auto. apply entry_okb_spec.
Qed.

(** *** Reading back *)

Lemma string_head v r :
  skip_ws (encode_string v ++ r) = encode_string v ++ r.
Proof. rewrite encode_string_head. apply skip_ws_head. reflexivity. Qed.

Lemma entry_head e r :
  skip_ws (dumps_dict 1 encode_string e ++ r)
  = dumps_dict 1 encode_string e ++ r.
Proof. destruct e; apply skip_ws_head; reflexivity. Qed.

Lemma parse_entry e r :
  entry_ok e ->
  parse_object parse_string (dumps_dict 1 encode_string e ++ r)
  = Some (norm_entry e, r).
Proof.
  intros [Hd Hok].
  exact (parse_dumps_dict str 1 encode_string parse_string join_pairs
           (Forall valid) string_head
           (fun v r' H => parse_encode_string v r' H) e r Hd Hok).
Qed.

Lemma loads_dumps st :
  ledger_ok st -> loads (dumps st) = Some (norm_ledger st).
Proof.
  intros [Hd Hok]. unfold loads, dumps.
  assert (Hs : skip_ws (dumps_dict 0 (dumps_dict 1 encode_string) st)
               = dumps_dict 0 (dumps_dict 1 encode_string) st).
  { destruct st; apply skip_ws_head; reflexivity. }
  rewrite Hs.
  rewrite <- (app_nil_r (dumps_dict 0 (dumps_dict 1 encode_string) st)).
  rewrite (parse_dumps_dict (dict str) 0 (dumps_dict 1 encode_string)
             (parse_object parse_string) norm_entry entry_ok
             entry_head parse_entry st [] Hd Hok).
  reflexivity.
Qed.

Lemma dumps_norm_entry e :
  is_dict e ->
  dumps_dict 1 encode_string (norm_entry e) = dumps_dict 1 encode_string e.
Proof.
  intros Hd.
  apply (dumps_dict_norm str 1 encode_string join_pairs encode_string e Hd).
  intros v. unfold encode_string. fold (enc (join_pairs v)). fold (enc v).
  now rewrite enc_join_pairs.
Qed.

Lemma dumps_norm_ledger st :
  ledger_ok st -> dumps (norm_ledger st) = dumps st.
Proof.
  intros [Hd Hok]. unfold dumps, norm_ledger.
  assert (Hgen : forall (dv : dict str -> str) (m : state),
             m <> [] ->
             dumps_dict 0 dv m
             = lit "{" ++ newline_indent 1
               ++ join (lit "," ++ newline_indent 1)
                       (map (fun kv => encode_string (fst kv) ++ lit ": "
                                       ++ dv (snd kv))
                            (sorted_items m))
               ++ newline_indent 0 ++ lit "}").
  { intros dv [|z m] Hm; [congruence|reflexivity]. }
  destruct st as [|x st]; [reflexivity|].
  set (l := sorted_items (x :: st)).
  assert (Hl : l <> []) by apply sorted_items_nonempty.
  assert (Hinc : increasing (dict str) l)
    by (apply sorted_items_increasing, Hd).
  assert (Hokl : Forall (fun kv => key_ok (fst kv) /\ entry_ok (snd kv)) l).
  { rewrite Forall_forall in *. intros kv Hin. apply Hok.
    apply (Permutation_in _ (sorted_items_perm (dict str) (x :: st))).
    exact Hin. }
  set (f := fun kv : str * dict str => (fst kv, norm_entry (snd kv))).
  assert (Hfix : sorted_items (map f l) = map f l).
  { apply sorted_items_fixed. clear -Hinc. unfold increasing in *.
    induction Hinc as [|y l Hl IH Hy]; simpl; constructor; auto.
    rewrite Forall_forall in *. intros z Hz.
    apply in_map_iff in Hz. destruct Hz as (z0 & <- & Hz0).
    exact (Hy z0 Hz0). }
  rewrite (Hgen _ (x :: st)) by discriminate.
  rewrite (Hgen _ (map f l)) by (destruct l; [congruence|discriminate]).
  fold l. rewrite Hfix, map_map. do 4 f_equal.
  apply map_ext_in. intros [k e] Hin. cbn [f fst snd].
  rewrite Forall_forall in Hokl. destruct (Hokl _ Hin) as [_ [He _]].
  cbn [snd] in He. rewrite (dumps_norm_entry e He). reflexivity.
Qed.


(** *** The written text is plain ASCII *)

Definition ascii_text (c : N) : bool := printable c || N.eqb c 10.

Lemma printable_ascii_text s :
  forallb printable s = true -> forallb ascii_text s = true.
Proof.
  rewrite !forallb_forall. intros H x Hx. unfold ascii_text.
  now rewrite (H x Hx).
Qed.

Lemma escape_char_printable c : forallb printable (escape_char c) = true.
Proof.
  unfold escape_char, u_escape.
  repeat match goal with
         | |- context [if ?b then _ else _] =>
             let E := fresh "E" in destruct b eqn:E
         end;
    try reflexivity.
  - simpl. unfold printable. now rewrite E6.
  - cbn [forallb]. now rewrite hex4_printable.
  - rewrite forallb_app. cbn [forallb]. now rewrite !hex4_printable.
Qed.

Lemma encode_string_ascii s : forallb ascii_text (encode_string s) = true.
Proof.
  apply printable_ascii_text. unfold encode_string. cbn [forallb].
  rewrite forallb_app. cbn [forallb andb]. rewrite andb_true_r.
  change (printable QUOTE) with true. cbn [andb].
  induction s as [|c s IH]; [reflexivity|].
  cbn [flat_map]. rewrite forallb_app, escape_char_printable. exact IH.
Qed.

Lemma newline_indent_ascii n : forallb ascii_text (newline_indent n) = true.
Proof.
  unfold newline_indent. cbn [forallb]. change (ascii_text 10) with true.
  cbn [andb]. induction (2 * n) as [|m IH]; [reflexivity|]. exact IH.
Qed.

Lemma join_ascii sep l :
  forallb ascii_text sep = true ->
  Forall (fun x => forallb ascii_text x = true) l ->
  forallb ascii_text (join sep l) = true.
Proof.
  intros Hs. induction 1 as [|x l Hx Hl IH]; [reflexivity|].
  destruct l as [|y l]; [exact Hx|].
  change (join sep (x :: y :: l)) with (x ++ sep ++ join sep (y :: l)).
  now rewrite !forallb_app, Hx, Hs, IH.
Qed.

Lemma dumps_dict_ascii (V : Type) level (dv : V -> str) (d : dict V) :
  (forall v, forallb ascii_text (dv v) = true) ->
  forallb ascii_text (dumps_dict level dv d) = true.
Proof.
  intros Hv. destruct d as [|x d]; [reflexivity|].
  unfold dumps_dict.
  rewrite !forallb_app, !newline_indent_ascii.
  rewrite join_ascii.
  - reflexivity.
  - rewrite forallb_app, newline_indent_ascii. reflexivity.
  - apply Forall_forall. intros t Ht. apply in_map_iff in Ht.
    destruct Ht as (kv & <- & _).
    now rewrite !forallb_app, encode_string_ascii, Hv.
Qed.

Lemma dumps_ascii st : forallb ascii_text (dumps st) = true.
Proof.
  apply dumps_dict_ascii. intros e. apply dumps_dict_ascii.
  apply encode_string_ascii.
Qed.

Lemma ascii_text_bounds c :
  ascii_text c = true -> (c < 128)%N /\ c <> 13%N.
Proof.
  unfold ascii_text, printable, in_range.
  rewrite orb_true_iff, andb_true_iff, !N.leb_le, N.eqb_eq. lia.
Qed.

Lemma encode_ascii s :
  forallb ascii_text s = true -> Utf8.encode s = Some s.
Proof.
  induction s as [|c s IH]; [reflexivity|].
  cbn [forallb Utf8.encode]. rewrite andb_true_iff. intros [Hc Hs].
  apply ascii_text_bounds in Hc. destruct Hc as [Hc _].
  unfold Utf8.encode_char. apply N.ltb_lt in Hc. rewrite Hc.
  now rewrite (IH Hs).
Qed.

Lemma decode_fuel_ascii s : forall fuel,
  forallb ascii_text s = true -> length s <= fuel ->
  Utf8.decode_fuel fuel s = Some s.
Proof.
  induction s as [|c s IH]; intros fuel Hs Hf.
  - destruct fuel; reflexivity.
  - destruct fuel as [|fuel]; [simpl in Hf; lia|].
    cbn [forallb] in Hs. apply andb_true_iff in Hs. destruct Hs as [Hc Hs].
    apply ascii_text_bounds in Hc. destruct Hc as [Hc _].
    cbn [Utf8.decode_fuel]. apply N.ltb_lt in Hc. rewrite Hc.
    rewrite (IH fuel Hs); [reflexivity|simpl in Hf; lia].
Qed.

Lemma decode_ascii s :
  forallb ascii_text s = true -> Utf8.decode s = Some s.
Proof. intros H. apply decode_fuel_ascii; auto. Qed.

Lemma universal_newlines_ascii s :
  forallb ascii_text s = true -> universal_newlines s = s.
Proof.
  induction s as [|c s IH]; [reflexivity|].
  cbn [forallb universal_newlines]. rewrite andb_true_iff. intros [Hc Hs].
  apply ascii_text_bounds in Hc. destruct Hc as [_ Hc].
  apply N.eqb_neq in Hc. rewrite Hc. now rewrite (IH Hs).
Qed.

Lemma save_state_bytes st : save_state st = (Some (dumps st), false).
Proof. unfold save_state. now rewrite (encode_ascii _ (dumps_ascii st)). Qed.

Lemma load_saved st :
  ledger_ok st -> load_state (fst (save_state st)) = (norm_ledger st, false).
Proof.
  intros Hok. rewrite save_state_bytes. cbn [fst load_state].
  rewrite (decode_ascii _ (dumps_ascii st)).
  rewrite (universal_newlines_ascii _ (dumps_ascii st)).
  now rewrite (loads_dumps st Hok).
Qed.


(** *** What reading yields is a dictionary *)

Section Loaded.
Variable V : Type.
Variable parse_value : str -> option (V * str).
Variable value_inv : V -> Prop.
Hypothesis parse_value_inv :
  forall s v r, parse_value s = Some (v, r) -> value_inv v.

Definition items_inv (d : dict V) : Prop :=
  is_dict d /\ Forall (fun kv => value_inv (snd kv)) d.

Lemma set_items_inv k v d :
  value_inv v -> items_inv d -> items_inv (set k v d).
Proof.
  intros Hv [Hd Hf]. split; [apply set_is_dict, Hd|].
  clear Hd. induction Hf as [|[k' v'] d Hk Hf IH]; simpl.
  - repeat constructor. exact Hv.
  - destruct (PyStr.eqb k k'); constructor; auto.
Qed.

Lemma members_inv fuel : forall s acc d r,
  items_inv acc ->
  members parse_value fuel s acc = Some (d, r) -> items_inv d.
Proof.
  induction fuel as [|fuel IH]; intros s acc d r Hacc H; [discriminate|].
  cbn [members] in H.
  destruct (parse_string s) as [[key r1]|]; [|discriminate].
  destruct (skip_ws r1) as [|c r2]; [discriminate|].
  destruct (N.eqb c 58); [|discriminate].
  destruct (parse_value (skip_ws r2)) as [[v r3]|] eqn:Ev; [|discriminate].
  apply parse_value_inv in Ev.
  destruct (skip_ws r3) as [|e r4]; [discriminate|].
  destruct (N.eqb e 125).
  - injection H as <- _. apply set_items_inv; auto.
  - destruct (N.eqb e 44); [|discriminate].
    apply (IH _ _ _ _ (set_items_inv key v acc Ev Hacc) H).
Qed.

Lemma parse_object_inv s d r :
  parse_object parse_value s = Some (d, r) -> items_inv d.
Proof.
  unfold parse_object. intros H.
  destruct s as [|c t]; [discriminate|].
  destruct (N.eqb c 123); [|discriminate].
  destruct (skip_ws t) as [|e r']; [discriminate|].
  destruct (N.eqb e 125).
  - injection H as <- _. split; constructor.
  - assert (Hnil : items_inv []) by (split; constructor).
    apply (members_inv _ _ _ _ _ Hnil H).
Qed.

End Loaded.

Lemma loads_inv s data :
  loads s = Some data ->
  is_dict data /\ Forall (fun kv => is_dict (snd kv)) data.
Proof.
  unfold loads. intros H.
  destruct (parse_object (parse_object parse_string) (skip_ws s))
    as [[d rest]|] eqn:E; [|discriminate].
  destruct (skip_ws rest); [|discriminate]. injection H as <-.
  apply (parse_object_inv (dict str) (parse_object parse_string)
           (fun e => is_dict e)) in E; [exact E|].
  intros s' v r' Hv.
  apply (parse_object_inv str parse_string (fun _ => True)) in Hv; auto.
  exact (proj1 Hv).
Qed.

(** *** The order of insertion *)

Lemma dumps_order st st' :
  is_dict st -> Permutation st st' -> dumps st' = dumps st.
Proof.
  intros Hd Hp. unfold dumps, dumps_dict.
  destruct st as [|x st]; destruct st' as [|y st'];
    try reflexivity.
  - apply Permutation_nil in Hp. discriminate.
  - apply Permutation_sym, Permutation_nil in Hp. discriminate.
  - now rewrite (sorted_items_order (dict str) (x :: st) (y :: st') Hd Hp).
Qed.


(** *** Lookups after reading back *)

Lemma get_In (V : Type) k (v : V) (d : dict V) :
  is_dict d -> List.In (k, v) d -> get k d = Some v.
Proof.
  unfold is_dict. induction d as [|[k' v'] d IH]; simpl; [tauto|].
  intros Hd [E|Hin].
  - injection E as -> ->. now rewrite eqb_refl.
  - inversion Hd as [|? ? Hout Hd']; subst.
    destruct (PyStr.eqb k k') eqn:E.
    + apply eqb_eq in E. subst k'. exfalso. apply Hout.
      unfold keys. apply in_map_iff. exists (k, v). auto.
    + auto.
Qed.

Lemma get_perm (V : Type) k (d d' : dict V) :
  is_dict d -> Permutation d d' -> get k d' = get k d.
Proof.
  intros Hd Hp.
  assert (Hd' : is_dict d').
  { unfold is_dict, keys in *.
    apply (Permutation_NoDup (Permutation_map fst Hp) Hd). }
  destruct (get k d) as [v|] eqn:E.
  - apply get_In; auto. apply (Permutation_in _ Hp).
    clear -E. induction d as [|[k' v'] d IH]; simpl in *; [discriminate|].
    destruct (PyStr.eqb k k') eqn:Ek.
    + apply eqb_eq in Ek. injection E as ->. subst. auto.
    + auto.
  - apply get_None. apply get_None in E. intros Hin. apply E.
    unfold keys in *.
    apply (Permutation_in _ (Permutation_sym (Permutation_map fst Hp))).
    exact Hin.
Qed.

Lemma get_map_values (V W : Type) (f : V -> W) k (d : dict V) :
  get k (map (fun kv => (fst kv, f (snd kv))) d) = option_map f (get k d).
Proof.
  induction d as [|[k' v'] d IH]; simpl; [reflexivity|].
  destruct (PyStr.eqb k k'); auto.
Qed.

Lemma get_norm_entry k e :
  is_dict e -> get k (norm_entry e) = option_map join_pairs (get k e).
Proof.
  intros Hd. unfold norm_entry. rewrite get_map_values. f_equal.
  apply get_perm; auto. apply Permutation_sym, sorted_items_perm.
Qed.

Lemma get_norm_ledger k st :
  is_dict st -> get k (norm_ledger st) = option_map norm_entry (get k st).
Proof.
  intros Hd. unfold norm_ledger. rewrite get_map_values. f_equal.
  apply get_perm; auto. apply Permutation_sym, sorted_items_perm.
Qed.

End StateFileFacts.

(* ================================================================= *)
(** ** The round trip of the state file *)

Import StateFileFacts.

(** A ledger as a pass leaves it: two sites, one value beyond ASCII. *)
Definition sample_ledger : state :=
  [ (lit "python_release",
     [ (lit "hash", compute_hash (lit "Python 3.12.1"));
       (lit "value", lit "Python 3.12.1") ]);
    (lit "bitcoin",
     [ (lit "value", [8364; 32; 54; 49; 44; 50; 48; 48; 46; 53; 128512]%N);
       (lit "hash", compute_hash [8364; 32; 54; 49; 44; 50; 48; 48; 46; 53;
                                  128512]%N) ]) ].

(** One more round of reading the file and writing what was read. *)
Definition reload (f : file) : file :=
  fst (save_state (fst (load_state f))).







(* ================================================================= *)
(** * Further properties of the code *)

(** ** [save_state] and [load_state] *)

(** The string stored for a site under a key of its entry. *)
Definition stored (st : state) (site key : str) : option str :=
  match get site st with
  | Some entry => get key entry
  | None => None
  end.

(** X1.  Writing a ledger and reading the file back gives the same sites and
    entries, in the order of their keys, with no warning; inside a value a
    high surrogate directly followed by a low one comes back as the one
    character they encode.  The ledger holds Python strings, its keys are
    distinct and hold no such pair. *)
Theorem save_then_load (st : state) :
  ledger_okb st = true ->
  load_state (fst (save_state st)) = (norm_ledger st, false).
Proof. intros H. apply load_saved, ledger_okb_spec, H. Qed.

Lemma save_then_load_witness :
  ledger_okb sample_ledger = true /\
  load_state (fst (save_state sample_ledger))
  = (norm_ledger sample_ledger, false).
Proof.
  split; [vm_compute; reflexivity|].
  apply (save_then_load sample_ledger). vm_compute. reflexivity.
Defined.

(** X2.  Reading a written file and writing it again, any number of times,
    gives the same bytes as the first writing. *)
Theorem save_load_rounds (st : state) (n : nat) :
  ledger_okb st = true ->
  Nat.iter n reload (fst (save_state st)) = fst (save_state st).
Proof.
  intros H. apply ledger_okb_spec in H.
  induction n as [|n IH]; [reflexivity|].
  change (Nat.iter (S n) reload (fst (save_state st)))
    with (reload (Nat.iter n reload (fst (save_state st)))).
  rewrite IH. unfold reload.
  rewrite (load_saved st H). cbn [fst].
  rewrite !save_state_bytes. cbn [fst].
  now rewrite (dumps_norm_ledger st H).
Qed.

Lemma save_load_rounds_witness :
  ledger_okb sample_ledger = true /\
  Nat.iter 2 reload (fst (save_state sample_ledger))
  = fst (save_state sample_ledger).
Proof.
  split; [vm_compute; reflexivity|].
  apply (save_load_rounds sample_ledger 2). vm_compute. reflexivity.
Defined.

Lemma stored_norm_ledger (st : state) (site key : str) :
  ledger_ok st ->
  stored (norm_ledger st) site key
  = option_map JsonStringFacts.join_pairs (stored st site key).
Proof.
  intros [Hd Hok]. unfold stored.
  rewrite (get_norm_ledger site st Hd).
  destruct (get site st) as [e|] eqn:E; [|reflexivity].
  cbn [option_map]. apply get_norm_entry.
  clear Hd. induction st as [|[k' e'] st IH]; simpl in E; [discriminate|].
  inversion Hok as [|? ? [_ [He' _]] Hok']; subst.
  destruct (PyStr.eqb site k').
  - injection E as <-. exact He'.
  - apply IH; auto.
Qed.

(** X3.  After writing and reading back, every stored string is found under
    the same site and key. *)
Theorem save_load_stored (st : state) (site key : str) :
  ledger_okb st = true ->
  stored (fst (load_state (fst (save_state st)))) site key
  = option_map JsonStringFacts.join_pairs (stored st site key).
Proof.
  intros H. apply ledger_okb_spec in H. rewrite (load_saved st H).
  cbn [fst]. apply stored_norm_ledger, H.
Qed.

Lemma save_load_stored_witness :
  ledger_okb sample_ledger = true /\
  stored (fst (load_state (fst (save_state sample_ledger))))
         (lit "bitcoin") (lit "value")
  = option_map JsonStringFacts.join_pairs
      (stored sample_ledger (lit "bitcoin") (lit "value")).
Proof.
  split; [vm_compute; reflexivity|].
  apply (save_load_stored sample_ledger). vm_compute. reflexivity.
Defined.

(** X4.  Whatever the ledger holds, [save_state] writes it without an error,
    and the file holds only printable ASCII characters and line feeds. *)
Theorem save_state_ascii (st : state) :
  exists bytes,
    save_state st = (Some bytes, false) /\
    Forall (fun b => (32 <= b <= 126)%N \/ b = 10%N) bytes.
Proof.
  exists (Json.dumps st). split; [apply save_state_bytes|].
  pose proof (dumps_ascii st) as H. rewrite forallb_forall in H.
  apply Forall_forall. intros b Hb. specialize (H b Hb).
  unfold ascii_text, JsonStringFacts.printable, in_range in H.
  rewrite orb_true_iff, andb_true_iff, !N.leb_le, N.eqb_eq in H. exact H.
Qed.

(** X5.  The file does not depend on the order in which the sites entered the
    ledger. *)
Theorem save_state_insertion_order (st st' : state) :
  distinct (keys st) = true ->
  Permutation st st' ->
  save_state st' = save_state st.
Proof.
  intros Hd Hp. rewrite !save_state_bytes.
  now rewrite (dumps_order st st' (distinct_spec _ Hd) Hp).
Qed.

Lemma save_state_insertion_order_witness :
  distinct (keys sample_ledger) = true /\
  save_state (rev sample_ledger) = save_state sample_ledger.
Proof.
  split; [vm_compute; reflexivity|].
  apply (save_state_insertion_order sample_ledger (rev sample_ledger)).
  - vm_compute. reflexivity.
  - apply Permutation_rev.
Defined.

(** Where the round trip stops: a site id that holds a surrogate pair
    comes back as another id, and two ids can come back as one. *)
Example surrogate_pair_keys :
  ledger_okb [ ([55357; 56832]%N, [(lit "hash", lit "a")]);
               ([128512]%N, [(lit "hash", lit "b")]) ] = false /\
  fst (load_state (fst (save_state
         [ ([55357; 56832]%N, [(lit "hash", lit "a")]);
           ([128512]%N, [(lit "hash", lit "b")]) ])))
  = [ ([128512]%N, [(lit "hash", lit "b")]) ].
Proof. split; vm_compute; reflexivity. Qed.

(* ================================================================= *)
(** ** [check_sites]: the pass as a whole *)

(** An entry as a pass writes it: empty, or with a hash and a value. *)
Definition entry_wf (e : dict str) : bool :=
  match e with
  | [] => true
  | _ =>
      match get HASH e, get VALUE e with
      | Some _, Some _ => true
      | _, _ => false
      end
  end.

Definition ledger_wf (st : state) : bool :=
  forallb (fun kv => entry_wf (snd kv)) st.

(** The hash stored for the site is that of the value of [text]. *)
Definition unchanged_at (st : state) (site : SiteConfig) (text : str)
  : bool :=
  match stored st (id site) HASH with
  | Some h => PyStr.eqb h (compute_hash (extract_value site text))
  | None => false
  end.

(** Every site of the list whose text is fetched is unchanged, and the
    line of the pass for each site can be printed. *)
Fixpoint all_unchanged (env : environment)
         (fetch : nat -> SiteConfig -> option str) (i : nat)
         (sites : list SiteConfig) (st : state) : bool :=
  match sites with
  | [] => true
  | site :: rest =>
      match fetch i site with
      | Some text =>
          unchanged_at st site text
          && stdout_ok (no_change_line site (extract_value site text))
      | None => stdout_ok (failed_line site (failure_text env i site))
      end && all_unchanged env fetch (S i) rest st
  end.

(** What a pass over unchanged sites prints: for each site the line of
    [fetch_content], then the line for no change or for the failure. *)
Fixpoint quiet_events (fetch : nat -> SiteConfig -> option str) (i : nat)
         (sites : list SiteConfig) : list event :=
  match sites with
  | [] => []
  | site :: rest =>
      fetch_prints site (fetch i site)
      ++ match fetch i site with
         | Some text => NoChange site (extract_value site text)
         | None => FetchFailed site
         end :: quiet_events fetch (S i) rest
  end.

Module RunFacts.

Lemma ledger_wf_get (st : state) k e :
  ledger_wf st = true -> get k st = Some e -> entry_wf e = true.
Proof.
  unfold ledger_wf. induction st as [|[k' e'] st IH]; simpl; [discriminate|].
  rewrite andb_true_iff. intros [He Hst].
  destruct (PyStr.eqb k k'); [intros [= <-]; exact He|auto].
Qed.

Lemma ledger_wf_set (st : state) k e :
  ledger_wf st = true -> entry_wf e = true -> ledger_wf (set k e st) = true.
Proof.
  unfold ledger_wf. intros Hst He.
  induction st as [|[k' e'] st IH]; simpl in *; [now rewrite He|].
  apply andb_true_iff in Hst. destruct Hst as [He' Hst].
  destruct (PyStr.eqb k k'); simpl; rewrite ?He, ?He', ?Hst; auto.
Qed.

Lemma updated_entry_wf entry value :
  entry_wf (updated_entry entry value) = true.
Proof.
  destruct (updated_entry_get entry value) as [Hh Hv].
  unfold entry_wf. rewrite Hh, Hv.
  destruct (updated_entry entry value); reflexivity.
Qed.

Lemma observe_wf (st : state) site value :
  ledger_wf st = true ->
  exists st' changed ev,
    observe st site value = inr (st', changed, ev) /\ ledger_wf st' = true.
Proof.
  intros Hwf. pose proof (observe_observed st site value) as O.
  inversion O as [Hb Ho|entry s old G Hh Hne Hv Ho|entry G Hh Ho
                  |entry G Hne Hh Ho|entry s G Hh Hne Hv Ho].
  - eexists _, _, _. split; [reflexivity|].
    apply ledger_wf_set; auto.
  - eexists _, _, _. split; [reflexivity|].
    apply ledger_wf_set; auto. apply updated_entry_wf.
  - eexists _, _, _. split; [reflexivity|]. exact Hwf.
  - pose proof (ledger_wf_get st _ _ Hwf G) as W.
    unfold entry_wf in W. rewrite Hh in W.
    destruct entry; [congruence|discriminate].
  - pose proof (ledger_wf_get st _ _ Hwf G) as W.
    unfold entry_wf in W. rewrite Hh, Hv in W.
    destruct entry; [discriminate|discriminate].
Qed.

(** The exceptions of printing and of the image lookup. *)
Definition from_outside (e : exn) : Prop :=
  e = UnicodeEncodeErrorExn \/ e = LibraryExn.

Lemma perform_from_outside env i ev e :
  perform env i ev = Some e -> from_outside e.
Proof.
  unfold perform, alert_raises, from_outside. intros H.
  destruct ev as [line| | |site|site value|site o n d|site value];
    try discriminate;
    repeat match type of H with
           | (if ?b then _ else _) = _ => destruct b
           end;
    try discriminate; injection H as <-; auto.
Qed.

Lemma check_loop_wf env fetch sites : forall i st any,
  ledger_wf st = true ->
  match snd (check_loop env fetch i sites st any) with
  | inr (st', _) => ledger_wf st' = true
  | inl e => from_outside e
  end.
Proof.
  induction sites as [|site rest IH]; intros i st any Hwf; [exact Hwf|].
  cbn [check_loop]. destruct (fetch i site) as [text|].
  - destruct (observe_wf st site (extract_value site text) Hwf)
      as (st1 & c & ev & Ho & Hwf1).
    rewrite Ho. destruct (perform env i ev) as [e|] eqn:Hp.
    + exact (perform_from_outside _ _ _ _ Hp).
    + specialize (IH (S i) st1 (any || c) Hwf1).
      destruct (check_loop env fetch (S i) rest st1 (any || c)) as [evs r].
      exact IH.
  - destruct (stdout_ok (failed_line site (failure_text env i site))).
    + specialize (IH (S i) st any Hwf).
      destruct (check_loop env fetch (S i) rest st any) as [evs r].
      exact IH.
    + left. reflexivity.
Qed.

(** *** A pass over unchanged sites *)

Lemma unchanged_at_observe (st : state) site text :
  unchanged_at st site text = true ->
  observe st site (extract_value site text)
  = inr (st, false, NoChange site (extract_value site text)).
Proof.
  unfold unchanged_at, stored. intros H.
  destruct (get (id site) st) as [e|] eqn:G; [|discriminate].
  destruct (get HASH e) as [h|] eqn:Hh; [|discriminate].
  apply eqb_eq in H. subst h.
  apply (observe_same st site _ e G Hh).
Qed.

Lemma check_loop_quiet env fetch sites : forall i st any,
  all_unchanged env fetch i sites st = true ->
  check_loop env fetch i sites st any
  = (quiet_events fetch i sites, inr (st, any)).
Proof.
  induction sites as [|site rest IH]; intros i st any H; [reflexivity|].
  cbn [all_unchanged] in H. apply andb_true_iff in H. destruct H as [H1 H2].
  cbn [check_loop quiet_events]. destruct (fetch i site) as [text|].
  - apply andb_true_iff in H1. destruct H1 as [Hu Hp].
    rewrite (unchanged_at_observe st site text Hu).
    cbn [perform]. rewrite Hp.
    rewrite orb_false_r. now rewrite (IH (S i) st any H2).
  - rewrite H1. now rewrite (IH (S i) st any H2).
Qed.

Lemma all_unchanged_intro env fetch sites : forall i st,
  (forall j site,
     nth_error sites j = Some site ->
     match fetch (i + j) site with
     | Some text =>
         unchanged_at st site text = true /\
         stdout_ok (no_change_line site (extract_value site text)) = true
     | None =>
         stdout_ok (failed_line site (failure_text env (i + j) site)) = true
     end) ->
  all_unchanged env fetch i sites st = true.
Proof.
  induction sites as [|site rest IH]; intros i st H; [reflexivity|].
  cbn [all_unchanged]. apply andb_true_iff. split.
  - specialize (H 0 site eq_refl). rewrite Nat.add_0_r in H.
    destruct (fetch i site) as [text|]; [|exact H].
    destruct H as [-> ->]. reflexivity.
  - apply IH. intros j s Hj. specialize (H (S j) s Hj).
    now rewrite Nat.add_succ_r in H.
Qed.

(** *** What a finished pass has printed *)

Lemma stdout_ok_app a b : stdout_ok (a ++ b) = stdout_ok a && stdout_ok b.
Proof. apply forallb_app. Qed.

Lemma observe_event (st : state) site value st' changed ev :
  observe st site value = inr (st', changed, ev) ->
  ev = BaselineAlert site value \/
  (exists old_value d, ev = ChangeAlert site old_value value d) \/
  ev = NoChange site value.
Proof.
  intros Ho. destruct (observe_changed _ _ _ _ _ _ Ho) as (Hc & _ & Hb).
  destruct changed.
  - right. left. exact (proj1 Hc eq_refl).
  - destruct (proj1 Hb eq_refl); auto.
Qed.

Lemma alert_raises_None env i site line :
  alert_raises env i site line = None -> stdout_ok line = true.
Proof.
  unfold alert_raises.
  destruct (PyStr.eqb (id site) NASA_APOD && image_raises env i site);
    [discriminate|].
  destruct (stdout_ok line); [reflexivity|discriminate].
Qed.

Lemma performed_printable (st : state) env i site value st' changed ev :
  observe st site value = inr (st', changed, ev) ->
  perform env i ev = None ->
  stdout_ok (id site) = true /\ stdout_ok value = true.
Proof.
  intros Ho Hp.
  destruct (observe_event _ _ _ _ _ _ Ho) as [->|[(o & d & ->)| ->]];
    cbn [perform] in Hp.
  - apply alert_raises_None in Hp. unfold baseline_line in Hp.
    rewrite !stdout_ok_app, !andb_true_iff in Hp. tauto.
  - apply alert_raises_None in Hp. unfold change_line in Hp.
    rewrite !stdout_ok_app, !andb_true_iff in Hp. tauto.
  - destruct (stdout_ok (no_change_line site value)) eqn:E;
      [|discriminate].
    unfold no_change_line in E.
    rewrite !stdout_ok_app, !andb_true_iff in E. tauto.
Qed.

Lemma no_change_line_ok site value :
  stdout_ok (id site) = true -> stdout_ok value = true ->
  stdout_ok (no_change_line site value) = true.
Proof.
  intros Hi Hv. unfold no_change_line.
  rewrite !stdout_ok_app, Hi, Hv. reflexivity.
Qed.

Lemma check_loop_printed env fetch sites :
  forall i st any evs st' any' j site,
  check_loop env fetch i sites st any = (evs, inr (st', any')) ->
  nth_error sites j = Some site ->
  match fetch (i + j) site with
  | Some text =>
      stdout_ok (no_change_line site (extract_value site text)) = true
  | None =>
      stdout_ok (failed_line site (failure_text env (i + j) site)) = true
  end.
Proof.
  induction sites as [|s0 rest IH]; intros i st any evs st' any' j site H Hj.
  - destruct j; discriminate.
  - destruct (check_loop_cons _ _ _ _ _ _ _ _ _ _ H)
      as [(Hf & Hp & evs1 & Hl & _)
         |(text & st1 & c & ev & evs1 & Hf & Ho & Hp & Hl & _)];
      destruct j as [|j].
    + injection Hj as <-. rewrite Nat.add_0_r, Hf. exact Hp.
    + rewrite Nat.add_succ_r. exact (IH _ _ _ _ _ _ _ _ Hl Hj).
    + injection Hj as <-. rewrite Nat.add_0_r, Hf.
      destruct (performed_printable _ _ _ _ _ _ _ _ Ho Hp).
      apply no_change_line_ok; assumption.
    + rewrite Nat.add_succ_r. exact (IH _ _ _ _ _ _ _ _ Hl Hj).
Qed.

(** *** Which entries a pass touches *)

Lemma check_loop_untouched env fetch sites :
  forall i st any evs st' any' k,
  check_loop env fetch i sites st any = (evs, inr (st', any')) ->
  (forall j site, nth_error sites j = Some site -> id site = k ->
                  fetch (i + j) site = None) ->
  get k st' = get k st.
Proof.
  induction sites as [|site rest IH]; intros i st any evs st' any' k H Hk.
  - simpl in H. injection H as _ <- _. reflexivity.
  - assert (Hrest : forall j s, nth_error rest j = Some s -> id s = k ->
                                fetch (S i + j) s = None).
    { intros j s Hj Hid. specialize (Hk (S j) s Hj Hid).
      now rewrite Nat.add_succ_r in Hk. }
    destruct (check_loop_cons _ _ _ _ _ _ _ _ _ _ H)
      as [(Hf & Hp & evs1 & Hl & _)
         |(text & st1 & c & ev & evs1 & Hf & Ho & Hp & Hl & _)].
    + apply (IH _ _ _ _ _ _ k Hl Hrest).
    + rewrite (IH _ _ _ _ _ _ k Hl Hrest).
      apply (observe_frame _ _ _ _ _ _ k Ho).
      intros ->. specialize (Hk 0 site eq_refl eq_refl).
      rewrite Nat.add_0_r in Hk. congruence.
Qed.

Lemma keys_set (V : Type) k k' (v : V) (d : dict V) :
  List.In k (keys (set k' v d)) -> List.In k (keys d) \/ k = k'.
Proof.
  induction d as [|[k0 v0] d IH]; simpl.
  - intros [<-|[]]. auto.
  - destruct (PyStr.eqb k' k0); simpl; intros [<-|Hin]; auto.
    destruct (IH Hin); auto.
Qed.

Lemma observe_keys (st : state) site value st' changed ev k :
  observe st site value = inr (st', changed, ev) ->
  List.In k (keys st') -> List.In k (keys st) \/ k = id site.
Proof.
  intros H Hin. pose proof (observe_observed st site value) as O.
  rewrite H in O. inversion O; subst; auto;
    apply (keys_set (dict str) _ _ _ _ Hin).
Qed.

Lemma check_loop_keys env fetch sites : forall i st any evs st' any' k,
  check_loop env fetch i sites st any = (evs, inr (st', any')) ->
  List.In k (keys st') ->
  List.In k (keys st) \/
  exists j site text,
    nth_error sites j = Some site /\ id site = k /\
    fetch (i + j) site = Some text.
Proof.
  induction sites as [|site rest IH]; intros i st any evs st' any' k H Hin.
  - simpl in H. injection H as _ <- _. auto.
  - assert (Hshift : forall st1 : state,
              (List.In k (keys st1) \/
               exists j s text, nth_error rest j = Some s /\ id s = k /\
                                fetch (S i + j) s = Some text) ->
              List.In k (keys st1) \/
              exists j s text, nth_error (site :: rest) j = Some s /\
                               id s = k /\ fetch (i + j) s = Some text).
    { intros st1 [Hk|(j & s & text & Hj & Hid & Hf)]; [auto|].
      right. exists (S j), s, text. rewrite Nat.add_succ_r. auto. }
    destruct (check_loop_cons _ _ _ _ _ _ _ _ _ _ H)
      as [(Hf & Hp & evs1 & Hl & _)
         |(text & st1 & c & ev & evs1 & Hf & Ho & Hp & Hl & _)].
    + apply (Hshift st), (IH _ _ _ _ _ _ k Hl Hin).
    + destruct (Hshift st1 (IH _ _ _ _ _ _ k Hl Hin)) as [Hk|Hex]; [|auto].
      destruct (observe_keys _ _ _ _ _ _ k Ho Hk) as [Hk0| ->]; [auto|].
      right. exists 0, site, text. rewrite Nat.add_0_r. auto.
Qed.

(** *** The hash a pass leaves for a site *)

Lemma observe_stored (st : state) site value st' changed ev :
  observe st site value = inr (st', changed, ev) ->
  stored st' (id site) HASH = Some (compute_hash value).
Proof.
  intros H. pose proof (observe_observed st site value) as O.
  rewrite H in O. unfold stored. inversion O; subst.
  - now rewrite get_set_same.
  - rewrite get_set_same. apply updated_entry_get.
  - match goal with G : get (id site) st' = Some _ |- _ => rewrite G end.
    assumption.
Qed.

Lemma check_loop_stored env fetch sites :
  forall i st any evs st' any' j site text,
  NoDup (map id sites) ->
  check_loop env fetch i sites st any = (evs, inr (st', any')) ->
  nth_error sites j = Some site ->
  fetch (i + j) site = Some text ->
  stored st' (id site) HASH
  = Some (compute_hash (extract_value site text)).
Proof.
  induction sites as [|s0 rest IH];
    intros i st any evs st' any' j site text Hnd H Hj Hf.
  - destruct j; discriminate.
  - inversion Hnd as [|? ? Hout Hnd']; subst.
    destruct (check_loop_cons _ _ _ _ _ _ _ _ _ _ H)
      as [(Hf0 & Hp & evs1 & Hl & _)
         |(t0 & st1 & c & ev & evs1 & Hf0 & Ho & Hp & Hl & _)];
      destruct j as [|j].
    + injection Hj as ->. rewrite Nat.add_0_r in Hf. congruence.
    + rewrite Nat.add_succ_r in Hf.
      apply (IH _ _ _ _ _ _ _ _ _ Hnd' Hl Hj Hf).
    + injection Hj as ->. rewrite Nat.add_0_r in Hf.
      rewrite Hf in Hf0. injection Hf0 as <-.
      unfold stored.
      rewrite (check_loop_untouched _ _ _ _ _ _ _ _ _ (id site) Hl).
      * apply (observe_stored _ _ _ _ _ _ Ho).
      * intros j s Hj Hid. exfalso. apply Hout. rewrite <- Hid.
        apply in_map. apply (nth_error_In _ _ Hj).
    + rewrite Nat.add_succ_r in Hf.
      apply (IH _ _ _ _ _ _ _ _ _ Hnd' Hl Hj Hf).
Qed.

(** *** From the pass to its loop *)

Lemma pass_saved_loop raw_sites f fetch env saved :
  pass_saved (check_sites raw_sites f fetch env) = Some saved ->
  fst (to_site_configs raw_sites) <> [] /\
  exists evs any,
    check_loop env fetch 0 (fst (to_site_configs raw_sites))
               (fst (load_state f)) false
    = (evs, inr (saved, any)) /\
    check_sites raw_sites f fetch env
    = MkPass (Some (Json.dumps saved))
        (map Printed (snd (to_site_configs raw_sites))
         ++ (if snd (load_state f) then [ReadWarning] else [])
         ++ evs ++ [Printed (if any then CHANGES else NO_CHANGES)])
        (Some saved) None.
Proof.
  intros H.
  destruct (check_sites_outcome raw_sites f fetch env) as [Hnil Hcons].
  destruct (fst (to_site_configs raw_sites)) as [|s0 rest] eqn:Es.
  - rewrite (Hnil eq_refl) in H. discriminate.
  - split; [discriminate|].
    specialize (Hcons ltac:(discriminate)).
    destruct (check_loop env fetch 0 (s0 :: rest) (fst (load_state f)) false)
      as [evs [e|[st' any]]] eqn:Hl; rewrite Hcons in H |- *;
      cbn [pass_saved] in H; [discriminate|].
    injection H as ->. exists evs, any. split; [reflexivity|].
    rewrite StateFileFacts.save_state_bytes. reflexivity.
Qed.

Lemma loop_pass raw_sites f fetch env evs saved any :
  fst (to_site_configs raw_sites) <> [] ->
  check_loop env fetch 0 (fst (to_site_configs raw_sites))
             (fst (load_state f)) false
  = (evs, inr (saved, any)) ->
  check_sites raw_sites f fetch env
  = MkPass (Some (Json.dumps saved))
      (map Printed (snd (to_site_configs raw_sites))
       ++ (if snd (load_state f) then [ReadWarning] else [])
       ++ evs ++ [Printed (if any then CHANGES else NO_CHANGES)])
      (Some saved) None.
Proof.
  intros Hs Hl.
  destruct (check_sites_outcome raw_sites f fetch env) as [_ Hcons].
  specialize (Hcons Hs). rewrite Hl in Hcons. rewrite Hcons.
  rewrite StateFileFacts.save_state_bytes. reflexivity.
Qed.

(** *** Two sites in a row *)

Lemma check_loop_pair env fetch pre :
  forall i st any evs st' any' s1 s2 post t1,
  check_loop env fetch i (pre ++ s1 :: s2 :: post) st any
  = (evs, inr (st', any')) ->
  fetch (i + length pre) s1 = Some t1 ->
  exists st_j st1 c ev,
    observe st_j s1 (extract_value s1 t1) = inr (st1, c, ev) /\
    reaches env fetch i (pre ++ s1 :: s2 :: post) st
            (S (i + length pre)) s2 st1.
Proof.
  induction pre as [|p pre IH];
    intros i st any evs st' any' s1 s2 post t1 H Hf1.
  - cbn [app length] in *. rewrite Nat.add_0_r in *.
    destruct (check_loop_cons _ _ _ _ _ _ _ _ _ _ H)
      as [(Hf & _)|(text & st1 & c & ev & evs1 & Hf & Ho & Hp & Hl & _)];
      [congruence|].
    rewrite Hf1 in Hf. injection Hf as <-.
    exists st, st1, c, ev. split; [exact Ho|].
    eapply Reach_after_observe; eauto.
    destruct post; constructor.
  - cbn [app length] in *. rewrite Nat.add_succ_r in *.
    destruct (check_loop_cons _ _ _ _ _ _ _ _ _ _ H)
      as [(Hf & Hp & evs1 & Hl & _)
         |(text & st0 & c0 & ev0 & evs1 & Hf & Ho & Hp & Hl & _)].
    + destruct (IH (S i) _ _ _ _ _ _ _ _ _ Hl Hf1)
        as (st_j & st1 & c & ev & Ho1 & R).
      exists st_j, st1, c, ev. split; [exact Ho1|].
      apply Reach_after_failure; auto.
    + destruct (IH (S i) _ _ _ _ _ _ _ _ _ Hl Hf1)
        as (st_j & st1 & c & ev & Ho1 & R).
      exists st_j, st1, c, ev. split; [exact Ho1|].
      eapply Reach_after_observe; eauto.
Qed.

End RunFacts.

(* ================================================================= *)
(** ** [compute_hash] *)

Definition lower_hex (c : N) : bool := in_range 48 57 c || in_range 97 102 c.

Module HashFacts.
Import Sha256.

Lemma round_length st kw : length (round st kw) = length st.
Proof.
  unfold round.
  do 9 (destruct st as [|? st]; try reflexivity).
Qed.

Lemma rounds_length l : forall st,
  length (fold_left round l st) = length st.
Proof.
  induction l as [|kw l IH]; intros st; simpl; [reflexivity|].
  now rewrite IH, round_length.
Qed.

Lemma compress_length st block : length (compress st block) = length st.
Proof.
  unfold compress. rewrite length_map, length_combine, rounds_length.
  apply Nat.min_id.
Qed.

Lemma blocks_length n : forall bs st, length (blocks n bs st) = length st.
Proof.
  induction n as [|n IH]; intros bs st; simpl; [reflexivity|].
  now rewrite IH, compress_length.
Qed.

Lemma be_bytes_length n : forall x, length (be_bytes n x) = n.
Proof.
  induction n as [|n IH]; intros x; simpl; [reflexivity|].
  rewrite length_app, IH. simpl. lia.
Qed.

Lemma be_bytes_bound n : forall x,
  Forall (fun b => (b < 256)%N) (be_bytes n x).
Proof.
  induction n as [|n IH]; intros x; simpl; [constructor|].
  apply Forall_app. split; [apply IH|]. repeat constructor.
  change 255%N with (N.ones 8). rewrite N.land_ones.
  apply N.mod_lt. discriminate.
Qed.

Lemma digest_length msg : length (digest msg) = 32.
Proof.
  unfold digest.
  assert (H : forall l : list N,
             length (flat_map (be_bytes 4) l) = 4 * length l).
  { induction l as [|x l IH]; [reflexivity|].
    cbn [flat_map]. rewrite length_app, be_bytes_length, IH.
    cbn [length]. lia. }
  rewrite H, blocks_length. reflexivity.
Qed.

Lemma digest_bound msg : Forall (fun b => (b < 256)%N) (digest msg).
Proof.
  unfold digest. induction (blocks _ _ _) as [|x l IH]; [constructor|].
  cbn [flat_map]. apply Forall_app. split; [apply be_bytes_bound|exact IH].
Qed.

Lemma hex_digit_lower x : (x < 16)%N -> lower_hex (hex_digit x) = true.
Proof.
  intros Hx. unfold lower_hex, hex_digit, in_range.
  destruct (N.ltb x 10) eqn:E;
    [apply N.ltb_lt in E|apply N.ltb_ge in E];
    rewrite orb_true_iff, !andb_true_iff, !N.leb_le; lia.
Qed.

Lemma hexdigest_length msg : length (hexdigest msg) = 64.
Proof.
  unfold hexdigest.
  assert (H : forall l : list N,
             length (flat_map
                       (fun b => [hex_digit (N.shiftr b 4);
                                  hex_digit (N.land b 15)]) l)
             = 2 * length l).
  { induction l as [|x l IH]; [reflexivity|].
    cbn [flat_map app length]. rewrite IH. lia. }
  rewrite H, digest_length. reflexivity.
Qed.

Lemma hexdigest_lower msg : forallb lower_hex (hexdigest msg) = true.
Proof.
  unfold hexdigest. pose proof (digest_bound msg) as Hb.
  induction Hb as [|b l Hlt Hl IH]; [reflexivity|].
  cbn [flat_map app forallb]. rewrite IH, !hex_digit_lower; auto.
  - change 15%N with (N.ones 4). rewrite N.land_ones.
    apply N.mod_lt. discriminate.
  - rewrite N.shiftr_div_pow2. change (2 ^ 4)%N with 16%N.
    apply N.Div0.div_lt_upper_bound. lia.
Qed.

Lemma encode_ignore_app a b :
  Utf8.encode_ignore (a ++ b) = Utf8.encode_ignore a ++ Utf8.encode_ignore b.
Proof.
  induction a as [|c a IH]; [reflexivity|].
  cbn [app Utf8.encode_ignore]. rewrite IH.
  destruct (Utf8.encode_char c); [now rewrite app_assoc|reflexivity].
Qed.

Lemma encode_char_surrogate c :
  Utf8.is_surrogate c = true -> Utf8.encode_char c = None.
Proof.
  unfold Utf8.encode_char. intros H. rewrite H.
  unfold Utf8.is_surrogate, in_range in H.
  rewrite andb_true_iff, !N.leb_le in H.
  destruct (N.ltb_spec c 128); [lia|].
  destruct (N.ltb_spec c 2048); [lia|].
  destruct (N.ltb_spec c 65536); [reflexivity|lia].
Qed.

Lemma lower_hex_pair_free s :
  forallb lower_hex s = true -> JsonStringFacts.join_pairs s = s.
Proof.
  intros H. apply StateFileFacts.pair_free_spec.
  induction s as [|h t IH]; [reflexivity|].
  cbn [forallb] in H. apply andb_true_iff in H. destruct H as [Hh Ht].
  destruct t as [|l t']; [reflexivity|].
  change (pair_free (h :: l :: t'))
    with (negb (Json.is_high h && Json.is_low l) && pair_free (l :: t')).
  rewrite (IH Ht), andb_true_r.
  replace (Json.is_high h) with false; [reflexivity|].
  unfold lower_hex, Json.is_high, in_range in *.
  rewrite orb_true_iff, !andb_true_iff, !N.leb_le in Hh.
  symmetry. apply andb_false_iff. rewrite !N.leb_gt. lia.
Qed.

End HashFacts.

(** X6.  The hash is always 64 lower-case hexadecimal digits. *)
Theorem compute_hash_hex (text : str) :
  length (compute_hash text) = 64 /\
  forallb lower_hex (compute_hash text) = true.
Proof.
  unfold compute_hash. split;
    [apply HashFacts.hexdigest_length|apply HashFacts.hexdigest_lower].
Qed.

(** X7.  A lone surrogate, which UTF-8 cannot encode, is dropped before
    hashing: a text with one more or one less has the same hash. *)
Theorem compute_hash_ignores_surrogate (a b : str) (c : N) :
  Utf8.is_surrogate c = true ->
  compute_hash (a ++ c :: b) = compute_hash (a ++ b).
Proof.
  intros H. unfold compute_hash. f_equal.
  rewrite !HashFacts.encode_ignore_app. f_equal.
  cbn [Utf8.encode_ignore]. now rewrite (HashFacts.encode_char_surrogate c H).
Qed.

Lemma compute_hash_ignores_surrogate_witness :
  Utf8.is_surrogate 55357 = true /\
  compute_hash (lit "up" ++ 55357%N :: lit "down")
  = compute_hash (lit "up" ++ lit "down").
Proof.
  split; [reflexivity|].
  apply (compute_hash_ignores_surrogate (lit "up") (lit "down") 55357).
  reflexivity.
Defined.

(** The theorems on a pass are stated for a state file that is read
    without a warning: no file, or a document of the ledger's type.
    (A JSON document of another shape is returned by [json.load] as it
    is, and is outside the type [load_state] is modelled on.) *)

(** A configuration of two sites, the pages they show, and the same
    pages with the second site out of reach. *)
Definition two_sites : list RawSite :=
  [ site_entry "shop" "https://shop.example/item" "Item price"
               (Some ".price"%string) "price";
    site_entry "release" "https://example.org/downloads" "Latest release"
               None "version" ].

Definition two_fetch (i : nat) (site : SiteConfig) : option str :=
  if PyStr.eqb (id site) (lit "shop")
  then Some (lit "Now only $ 19.99 today")
  else Some (lit "Download Python 3.12.1 now").

Definition shop_fetch (i : nat) (site : SiteConfig) : option str :=
  if PyStr.eqb (id site) (lit "shop")
  then Some (lit "Now only $ 21.50 today")
  else None.

Definition two_saved : state :=
  Eval vm_compute in
    match pass_saved (check_sites two_sites None two_fetch calm) with
    | Some saved => saved
    | None => []
    end.

Definition two_file : file := fst (save_state two_saved).

(** X8.  On a ledger whose entries are empty or hold both a hash and a
    value, reading the ledger raises nothing: a pass ends, if it does,
    on a line that standard output cannot encode or on what the image
    lookup raises, never on the [KeyError] or [TypeError] of an entry;
    and the ledger a pass saves is again of that kind. *)
Theorem check_sites_well_formed (raw_sites : list RawSite) (f : file)
        (fetch : nat -> SiteConfig -> option str) (env : environment) :
  snd (load_state f) = false ->
  ledger_wf (fst (load_state f)) = true ->
  match pass_raised (check_sites raw_sites f fetch env) with
  | Some e => e = UnicodeEncodeErrorExn \/ e = LibraryExn
  | None =>
      fst (to_site_configs raw_sites) <> [] ->
      exists saved,
        pass_saved (check_sites raw_sites f fetch env) = Some saved /\
        ledger_wf saved = true
  end.
Proof.
  intros _ Hwf.
  destruct (check_sites_outcome raw_sites f fetch env) as [Hnil Hcons].
  pose proof (RunFacts.check_loop_wf env fetch
                (fst (to_site_configs raw_sites))
                0 (fst (load_state f)) false Hwf) as W.
  destruct (fst (to_site_configs raw_sites)) as [|s0 rest] eqn:Es.
  - rewrite (Hnil eq_refl). cbn [pass_raised]. congruence.
  - specialize (Hcons ltac:(discriminate)).
    destruct (check_loop env fetch 0 (s0 :: rest) (fst (load_state f)) false)
      as [evs [e|[st' any]]]; rewrite Hcons; cbn [pass_raised pass_saved].
    + exact W.
    + intros _. exists st'. split; [reflexivity|exact W].
Qed.

Lemma check_sites_well_formed_witness :
  snd (load_state two_file) = false /\
  ledger_wf (fst (load_state two_file)) = true /\
  match pass_raised (check_sites two_sites two_file shop_fetch calm) with
  | Some e => e = UnicodeEncodeErrorExn \/ e = LibraryExn
  | None =>
      fst (to_site_configs two_sites) <> [] ->
      exists saved,
        pass_saved (check_sites two_sites two_file shop_fetch calm)
        = Some saved /\
        ledger_wf saved = true
  end.
Proof.
  split; [vm_compute; reflexivity|].
  split; [vm_compute; reflexivity|].
  apply (check_sites_well_formed two_sites two_file shop_fetch calm);
    vm_compute; reflexivity.
Defined.

(** X9.  When the hash stored for every site that can be fetched is the
    hash of its value now, and standard output can encode the line of
    each site, the pass alerts nobody: after the line [fetch_content]
    prints for a site comes its line for no change, or for the failed
    fetch; the ledger is saved as it was loaded and the pass reports no
    change. *)
Theorem check_sites_unchanged (raw_sites : list RawSite) (f : file)
        (fetch : nat -> SiteConfig -> option str) (env : environment) :
  snd (load_state f) = false ->
  fst (to_site_configs raw_sites) <> [] ->
  all_unchanged env fetch 0 (fst (to_site_configs raw_sites))
                (fst (load_state f)) = true ->
  check_sites raw_sites f fetch env
  = MkPass (fst (save_state (fst (load_state f))))
      (map Printed (snd (to_site_configs raw_sites))
       ++ quiet_events fetch 0 (fst (to_site_configs raw_sites))
       ++ [Printed NO_CHANGES])
      (Some (fst (load_state f))) None.
Proof.
  intros Hr Hs Hu.
  rewrite (RunFacts.loop_pass raw_sites f fetch env _ _ false Hs
             (RunFacts.check_loop_quiet env fetch _ 0 _ false Hu)).
  rewrite StateFileFacts.save_state_bytes, Hr. reflexivity.
Qed.

Lemma check_sites_unchanged_witness :
  snd (load_state two_file) = false /\
  fst (to_site_configs two_sites) <> [] /\
  all_unchanged calm two_fetch 0 (fst (to_site_configs two_sites))
                (fst (load_state two_file)) = true /\
  check_sites two_sites two_file two_fetch calm
  = MkPass (fst (save_state (fst (load_state two_file))))
      (map Printed (snd (to_site_configs two_sites))
       ++ quiet_events two_fetch 0 (fst (to_site_configs two_sites))
       ++ [Printed NO_CHANGES])
      (Some (fst (load_state two_file))) None.
Proof.
  split; [vm_compute; reflexivity|].
  split; [vm_compute; discriminate|].
  split; [vm_compute; reflexivity|].
  apply (check_sites_unchanged two_sites two_file two_fetch calm).
  - vm_compute. reflexivity.
  - vm_compute. discriminate.
  - vm_compute. reflexivity.
Defined.

(** X10.  A pass adds entries only for sites of the configuration that
    it fetched: every site id of the saved ledger was in the loaded
    ledger or is the id of a site whose text was fetched. *)
Theorem check_sites_adds_only_fetched (raw_sites : list RawSite) (f : file)
        (fetch : nat -> SiteConfig -> option str) (env : environment)
        (saved : state) (k : str) :
  snd (load_state f) = false ->
  pass_saved (check_sites raw_sites f fetch env) = Some saved ->
  List.In k (keys saved) ->
  List.In k (keys (fst (load_state f))) \/
  exists j site text,
    nth_error (fst (to_site_configs raw_sites)) j = Some site /\
    id site = k /\ fetch j site = Some text.
Proof.
  intros _ H Hin.
  destruct (RunFacts.pass_saved_loop raw_sites f fetch env saved H)
    as (_ & evs & any & Hl & _).
  exact (RunFacts.check_loop_keys env fetch _ 0 _ _ _ _ _ k Hl Hin).
Qed.

Lemma check_sites_adds_only_fetched_witness :
  snd (load_state None) = false /\
  pass_saved (check_sites two_sites None two_fetch calm) = Some two_saved /\
  List.In (lit "release") (keys two_saved) /\
  (List.In (lit "release") (keys (fst (load_state None))) \/
   exists j site text,
     nth_error (fst (to_site_configs two_sites)) j = Some site /\
     id site = lit "release" /\ two_fetch j site = Some text).
Proof.
  split; [reflexivity|].
  split; [vm_compute; reflexivity|].
  split; [vm_compute; auto|].
  apply (check_sites_adds_only_fetched two_sites None two_fetch calm
           two_saved).
  - reflexivity.
  - vm_compute. reflexivity.
  - vm_compute. auto.
Defined.

(** X11.  An entry changes only when its site is fetched: if every site of
    the configuration with the id [k] fails to be fetched, the saved
    ledger holds for [k] what the loaded ledger held. *)
Theorem check_sites_untouched (raw_sites : list RawSite) (f : file)
        (fetch : nat -> SiteConfig -> option str) (env : environment)
        (saved : state) (k : str) :
  snd (load_state f) = false ->
  pass_saved (check_sites raw_sites f fetch env) = Some saved ->
  (forall j site,
     nth_error (fst (to_site_configs raw_sites)) j = Some site ->
     id site = k -> fetch j site = None) ->
  get k saved = get k (fst (load_state f)).
Proof.
  intros _ H Hk.
  destruct (RunFacts.pass_saved_loop raw_sites f fetch env saved H)
    as (_ & evs & any & Hl & _).
  exact (RunFacts.check_loop_untouched env fetch _ 0 _ _ _ _ _ k Hl Hk).
Qed.

Definition shop_saved : state :=
  Eval vm_compute in
    match pass_saved (check_sites two_sites two_file shop_fetch calm) with
    | Some saved => saved
    | None => []
    end.

Lemma check_sites_untouched_witness :
  snd (load_state two_file) = false /\
  pass_saved (check_sites two_sites two_file shop_fetch calm)
  = Some shop_saved /\
  get (lit "release") shop_saved
  = get (lit "release") (fst (load_state two_file)).
Proof.
  split; [vm_compute; reflexivity|].
  split; [vm_compute; reflexivity|].
  apply (check_sites_untouched two_sites two_file shop_fetch calm
           shop_saved).
  - vm_compute. reflexivity.
  - vm_compute. reflexivity.
  - intros j site _ Hid. unfold shop_fetch. rewrite Hid. reflexivity.
Defined.

(** X12.  After a pass over sites with distinct ids, the hash stored for
    every site that was fetched is the hash of the value extracted from
    its text. *)
Theorem check_sites_stored_hash (raw_sites : list RawSite) (f : file)
        (fetch : nat -> SiteConfig -> option str) (env : environment)
        (saved : state) (j : nat) (site : SiteConfig) (text : str) :
  snd (load_state f) = false ->
  NoDup (map id (fst (to_site_configs raw_sites))) ->
  pass_saved (check_sites raw_sites f fetch env) = Some saved ->
  nth_error (fst (to_site_configs raw_sites)) j = Some site ->
  fetch j site = Some text ->
  stored saved (id site) HASH
  = Some (compute_hash (extract_value site text)).
Proof.
  intros _ Hnd H Hj Hf.
  destruct (RunFacts.pass_saved_loop raw_sites f fetch env saved H)
    as (_ & evs & any & Hl & _).
  exact (RunFacts.check_loop_stored env fetch _ 0 _ _ _ _ _ j site text
           Hnd Hl Hj Hf).
Qed.

Definition shop_site : SiteConfig :=
  MkSite (lit "shop") (lit "https://shop.example/item") (lit "Item price")
         (Some (lit ".price")) true (lit "price").

Lemma check_sites_stored_hash_witness :
  snd (load_state two_file) = false /\
  NoDup (map id (fst (to_site_configs two_sites))) /\
  pass_saved (check_sites two_sites two_file shop_fetch calm)
  = Some shop_saved /\
  nth_error (fst (to_site_configs two_sites)) 0 = Some shop_site /\
  shop_fetch 0 shop_site = Some (lit "Now only $ 21.50 today") /\
  stored shop_saved (id shop_site) HASH
  = Some (compute_hash
            (extract_value shop_site (lit "Now only $ 21.50 today"))).
Proof.
  assert (Hnd : NoDup (map id (fst (to_site_configs two_sites)))).
  { apply StateFileFacts.distinct_spec. vm_compute. reflexivity. }
  assert (Hr : snd (load_state two_file) = false)
    by (vm_compute; reflexivity).
  split; [exact Hr|].
  split; [exact Hnd|].
  split; [vm_compute; reflexivity|].
  split; [vm_compute; reflexivity|].
  split; [vm_compute; reflexivity|].
  apply (check_sites_stored_hash two_sites two_file shop_fetch calm
           shop_saved 0 shop_site (lit "Now only $ 21.50 today") Hr Hnd);
    vm_compute; reflexivity.
Defined.

(** X13.  A second pass that finds the same texts alerts nobody and
    writes the same file again, byte for byte.  The first pass ran over
    sites with distinct ids and saved a ledger of well-formed strings;
    the lines of the second pass hold what the first has printed. *)
Theorem check_sites_twice (raw_sites : list RawSite) (f : file)
        (fetch : nat -> SiteConfig -> option str) (env : environment)
        (saved : state) :
  snd (load_state f) = false ->
  NoDup (map id (fst (to_site_configs raw_sites))) ->
  pass_saved (check_sites raw_sites f fetch env) = Some saved ->
  ledger_okb saved = true ->
  check_sites raw_sites (pass_file (check_sites raw_sites f fetch env))
              fetch env
  = MkPass (pass_file (check_sites raw_sites f fetch env))
      (map Printed (snd (to_site_configs raw_sites))
       ++ quiet_events fetch 0 (fst (to_site_configs raw_sites))
       ++ [Printed NO_CHANGES])
      (Some (norm_ledger saved)) None.
Proof.
  intros _ Hnd H Hok. apply ledger_okb_spec in Hok.
  destruct (RunFacts.pass_saved_loop raw_sites f fetch env saved H)
    as (Hs & evs & any & Hl & Hpass).
  rewrite Hpass. cbn [pass_file].
  assert (Hload : load_state (Some (Json.dumps saved))
                  = (norm_ledger saved, false)).
  { rewrite <- (load_saved saved Hok). now rewrite save_state_bytes. }
  assert (Hu : all_unchanged env fetch 0 (fst (to_site_configs raw_sites))
                 (fst (load_state (Some (Json.dumps saved)))) = true).
  { rewrite Hload. cbn [fst]. apply RunFacts.all_unchanged_intro.
    intros j site Hj.
    pose proof (RunFacts.check_loop_printed env fetch _ 0 _ _ _ _ _ j site
                  Hl Hj) as Hp.
    cbn [Nat.add] in *.
    destruct (fetch j site) as [text|] eqn:Hf; [|exact Hp].
    split; [|exact Hp]. unfold unchanged_at.
    rewrite (stored_norm_ledger saved (id site) HASH Hok).
    rewrite (RunFacts.check_loop_stored env fetch _ 0 _ _ _ _ _ j site text
               Hnd Hl Hj Hf).
    cbn [option_map]. rewrite HashFacts.lower_hex_pair_free.
    - apply DictFacts.eqb_refl.
    - apply HashFacts.hexdigest_lower. }
  rewrite (RunFacts.loop_pass raw_sites _ fetch env _ _ false Hs
             (RunFacts.check_loop_quiet env fetch _ 0 _ false Hu)).
  rewrite Hload. cbn [fst snd app].
  now rewrite (dumps_norm_ledger saved Hok).
Qed.

Lemma check_sites_twice_witness :
  snd (load_state None) = false /\
  NoDup (map id (fst (to_site_configs two_sites))) /\
  pass_saved (check_sites two_sites None two_fetch calm) = Some two_saved /\
  ledger_okb two_saved = true /\
  check_sites two_sites
              (pass_file (check_sites two_sites None two_fetch calm))
              two_fetch calm
  = MkPass (pass_file (check_sites two_sites None two_fetch calm))
      (map Printed (snd (to_site_configs two_sites))
       ++ quiet_events two_fetch 0 (fst (to_site_configs two_sites))
       ++ [Printed NO_CHANGES])
      (Some (norm_ledger two_saved)) None.
Proof.
  assert (Hnd : NoDup (map id (fst (to_site_configs two_sites)))).
  { apply distinct_spec. vm_compute. reflexivity. }
  split; [reflexivity|].
  split; [exact Hnd|].
  split; [vm_compute; reflexivity|].
  split; [vm_compute; reflexivity|].
  apply (check_sites_twice two_sites None two_fetch calm two_saved
           eq_refl Hnd);
    vm_compute; reflexivity.
Defined.

(** X14.  Two sites that follow one another in the configuration under
    one id share one entry of the ledger: when their values differ,
    every pass that runs to its end sends a change alert and reports
    changes, whatever the ledger held. *)
Theorem check_sites_shared_id (raw_sites : list RawSite) (f : file)
        (fetch : nat -> SiteConfig -> option str) (env : environment)
        (saved : state)
        (pre post : list SiteConfig) (s1 s2 : SiteConfig) (t1 t2 : str) :
  snd (load_state f) = false ->
  pass_saved (check_sites raw_sites f fetch env) = Some saved ->
  fst (to_site_configs raw_sites) = pre ++ s1 :: s2 :: post ->
  id s1 = id s2 ->
  fetch (length pre) s1 = Some t1 ->
  fetch (S (length pre)) s2 = Some t2 ->
  compute_hash (extract_value s1 t1) <> compute_hash (extract_value s2 t2) ->
  exists evs,
    pass_events (check_sites raw_sites f fetch env)
    = evs ++ [Printed CHANGES] /\
    existsb is_change evs = true.
Proof.
  intros _ H Hs Hid Hf1 Hf2 Hne.
  destruct (RunFacts.pass_saved_loop raw_sites f fetch env saved H)
    as (Hnil & evs & any & Hl & Hpass).
  rewrite Hs in Hl.
  destruct (RunFacts.check_loop_pair env fetch pre 0 _ _ _ _ _ _ _ _ _
              Hl Hf1) as (st_j & st1 & c & ev & Ho & R2).
  cbn [Nat.add] in R2.
  pose proof (RunFacts.observe_stored _ _ _ _ _ _ Ho) as Hst.
  destruct (check_loop_alerts _ _ _ _ _ _ _ _ _ Hl) as [[_ Hex] _].
  assert (Hch : existsb is_change evs = true).
  { apply Hex. exists (S (length pre)), s2, st1, t2.
    split; [exact R2|]. split; [exact Hf2|].
    unfold stored in Hst. rewrite Hid in Hst.
    destruct (get (id s2) st1) as [entry|] eqn:G; [|discriminate].
    exists entry, (compute_hash (extract_value s1 t1)). auto. }
  pose proof (check_loop_any _ _ _ _ _ _ _ _ _ Hl) as Hany.
  rewrite Hch in Hany. cbn [orb] in Hany. subst any.
  rewrite Hpass. cbn [pass_events].
  exists (map Printed (snd (to_site_configs raw_sites))
          ++ (if snd (load_state f) then [ReadWarning] else []) ++ evs).
  split; [now rewrite <- !app_assoc|].
  rewrite !existsb_app, Hch. now rewrite !orb_true_r.
Qed.

Definition shared_sites : list RawSite :=
  [ site_entry "status" "https://status.example/" "Status page" None "text";
    site_entry "status" "https://status.example/api" "Status feed" None
               "text" ].

Definition shared_fetch (i : nat) (site : SiteConfig) : option str :=
  match i with
  | 0 => Some (lit "All systems operational")
  | _ => Some (lit "operational")
  end.

Definition shared_saved : state :=
  Eval vm_compute in
    match pass_saved (check_sites shared_sites None shared_fetch calm) with
    | Some saved => saved
    | None => []
    end.

Lemma check_sites_shared_id_witness :
  pass_saved (check_sites shared_sites None shared_fetch calm)
  = Some shared_saved /\
  exists evs,
    pass_events (check_sites shared_sites None shared_fetch calm)
    = evs ++ [Printed CHANGES] /\
    existsb is_change evs = true.
Proof.
  split; [vm_compute; reflexivity|].
  apply (check_sites_shared_id shared_sites None shared_fetch calm
           shared_saved [] []
           (MkSite (lit "status") (lit "https://status.example/")
                   (lit "Status page") None true (lit "text"))
           (MkSite (lit "status") (lit "https://status.example/api")
                   (lit "Status feed") None true (lit "text"))
           (lit "All systems operational") (lit "operational"));
    try reflexivity.
  vm_compute. discriminate.
Defined.

(* ================================================================= *)
(** ** [fetch_content] *)

(** [text.split()]: the maximal runs of characters that are not white
    space.  [word] is the run being read, last character first. *)
Fixpoint split_from (s : str) (word : str) : list str :=
  match s with
  | [] => match word with [] => [] | _ => [rev word] end
  | c :: t =>
      if CharClass.space c then
        match word with
        | [] => split_from t []
        | _ => rev word :: split_from t []
        end
      else split_from t (c :: word)
  end.

Definition split_whitespace (s : str) : list str := split_from s [].

(** [" ".join(text.split())] *)
Definition collapse_whitespace (text : str) : str :=
  Json.join [SPACE] (split_whitespace text).

(** What [requests] and [BeautifulSoup] give for a page: the text of
    its title, if it has one; the texts of the nodes a selector finds,
    or [None] for a selector that [select] rejects; the text of the
    whole document. *)
Record page : Type := MkPage {
  page_title : option str;
  page_select : str -> option (list str);
  page_text : str
}.

(** What [fetch_content] raises: the request failed, [select] rejected
    the selector, or the [RuntimeError] of a selector that finds
    nothing. *)
Inductive fetch_error : Type :=
| RequestFailed
| SelectorRejected (selector : str)
| SelectorFoundNothing (selector : str).

(** [fetch_content].  [now] is [time.time()] as the f-string writes it;
    [response] is the parsed page, or [None] when the request raises. *)
Definition fetch_content (site : SiteConfig) (now : str)
           (response : option page) : fetch_error + str :=
  if PyStr.eqb (url site) LOCAL_TEST then
    inr (lit "local test value at " ++ now)
  else
    match response with
    | None => inl RequestFailed
    | Some soup =>
        let found : fetch_error + str :=
          if PyStr.eqb (value_type site) (lit "title") then
            match page_title soup with
            | Some title => inr title
            | None => inr (description site)
            end
          else
            match css_selector site with
            | Some (c :: sel) =>
                match page_select soup (c :: sel) with
                | None => inl (SelectorRejected (c :: sel))
                | Some [] => inl (SelectorFoundNothing (c :: sel))
                | Some nodes => inr (Json.join [10%N] nodes)
                end
            | _ => inr (page_text soup)
            end in
        match found with
        | inl e => inl e
        | inr text =>
            inr (if normalize_whitespace site
                 then collapse_whitespace text else text)
        end
    end.

(** A text in which white space is single spaces between words. *)
Fixpoint no_double_space (s : str) : bool :=
  match s with
  | a :: ((b :: _) as t) =>
      negb (N.eqb a SPACE && N.eqb b SPACE) && no_double_space t
  | _ => true
  end.

Definition no_space_first (s : str) : bool :=
  match s with
  | c :: _ => negb (N.eqb c SPACE)
  | [] => true
  end.

Fixpoint no_space_last (s : str) : bool :=
  match s with
  | [] => true
  | [c] => negb (N.eqb c SPACE)
  | _ :: t => no_space_last t
  end.

Definition only_plain_spaces (s : str) : bool :=
  forallb (fun c => implb (CharClass.space c) (N.eqb c SPACE)) s.

Definition single_spaced (s : str) : bool :=
  only_plain_spaces s && no_double_space s
  && no_space_first s && no_space_last s.

Example collapse_example :
  collapse_whitespace [32; 97; 9; 10; 98; 160; 8195; 99; 32]%N
  = lit "a b c".
Proof. reflexivity. Qed.

Module FetchFacts.
Import Json.

Definition word (w : str) : Prop :=
  w <> [] /\ forallb (fun c => negb (CharClass.space c)) w = true.

Lemma space_SPACE : CharClass.space SPACE = true.
Proof. reflexivity. Qed.

Lemma not_space_not_SPACE c :
  CharClass.space c = false -> N.eqb c SPACE = false.
Proof.
  intros H. apply N.eqb_neq. intros ->. rewrite space_SPACE in H.
  discriminate.
Qed.

Lemma split_from_words s : forall acc,
  forallb (fun c => negb (CharClass.space c)) acc = true ->
  Forall word (split_from s acc).
Proof.
  assert (Hrev : forall acc,
            acc <> [] ->
            forallb (fun c => negb (CharClass.space c)) acc = true ->
            word (rev acc)).
  { intros acc Hne Hacc. split.
    - intros E. apply Hne. rewrite <- (rev_involutive acc), E. reflexivity.
    - rewrite forallb_forall in *. intros x Hx. apply Hacc.
      now apply in_rev. }
  induction s as [|c t IH]; intros acc Hacc; cbn [split_from].
  - destruct acc as [|a acc]; [constructor|].
    constructor; [|constructor]. apply Hrev; [discriminate|exact Hacc].
  - destruct (CharClass.space c) eqn:E.
    + destruct acc as [|a acc]; [apply IH; reflexivity|].
      constructor; [apply Hrev; [discriminate|exact Hacc]|].
      apply IH. reflexivity.
    + apply IH. cbn [forallb]. now rewrite E, Hacc.
Qed.

Lemma split_from_run w : forall acc rest,
  forallb (fun c => negb (CharClass.space c)) w = true ->
  split_from (w ++ rest) acc = split_from rest (rev w ++ acc).
Proof.
  induction w as [|c w IH]; intros acc rest H; [reflexivity|].
  cbn [forallb] in H. apply andb_true_iff in H. destruct H as [Hc Hw].
  apply negb_true_iff in Hc.
  cbn [app split_from]. rewrite Hc, (IH _ _ Hw).
  cbn [rev]. now rewrite <- app_assoc.
Qed.

Lemma split_join ws :
  Forall word ws -> split_whitespace (join [SPACE] ws) = ws.
Proof.
  unfold split_whitespace. induction 1 as [|w ws [Hne Hw] Hws IH];
    [reflexivity|].
  assert (Hr : rev w ++ [] <> []).
  { rewrite app_nil_r. intros E. apply Hne.
    rewrite <- (rev_involutive w), E. reflexivity. }
  destruct ws as [|w' ws].
  - cbn [join]. rewrite <- (app_nil_r w) at 1.
    rewrite (split_from_run w [] [] Hw). cbn [split_from].
    destruct (rev w ++ []) eqn:E; [congruence|].
    rewrite <- E, app_nil_r, rev_involutive. reflexivity.
  - change (join [SPACE] (w :: w' :: ws))
      with (w ++ [SPACE] ++ join [SPACE] (w' :: ws)).
    rewrite (split_from_run w [] _ Hw). cbn [app split_from].
    rewrite space_SPACE.
    destruct (rev w ++ []) eqn:E; [congruence|].
    rewrite <- E, app_nil_r, rev_involutive, IH. reflexivity.
Qed.

Lemma collapse_twice text :
  collapse_whitespace (collapse_whitespace text) = collapse_whitespace text.
Proof.
  unfold collapse_whitespace at 1. unfold collapse_whitespace at 1.
  rewrite split_join; [reflexivity|].
  apply split_from_words. reflexivity.
Qed.

(** *** The shape of a collapsed text *)

Lemma no_double_space_run w r :
  forallb (fun c => negb (CharClass.space c)) w = true ->
  no_double_space (w ++ r) = no_double_space r.
Proof.
  induction w as [|c w IH]; intros H; [reflexivity|].
  cbn [forallb] in H. apply andb_true_iff in H. destruct H as [Hc Hw].
  apply negb_true_iff, not_space_not_SPACE in Hc.
  cbn [app]. destruct (w ++ r) as [|b t] eqn:E.
  - destruct w; [|discriminate]. cbn [app] in E. now subst r.
  - change (no_double_space (c :: b :: t))
      with (negb (N.eqb c SPACE && N.eqb b SPACE)
            && no_double_space (b :: t)).
    rewrite Hc. cbn [andb negb]. apply IH, Hw.
Qed.

Lemma no_space_last_app a r :
  r <> [] -> no_space_last (a ++ r) = no_space_last r.
Proof.
  intros Hr. induction a as [|c a IH]; [reflexivity|].
  cbn [app]. destruct (a ++ r) as [|b t] eqn:E.
  - destruct a; [cbn [app] in E; congruence|discriminate].
  - exact IH.
Qed.

Lemma no_space_last_word w : word w -> no_space_last w = true.
Proof.
  intros [Hne Hw]. induction w as [|c w IH]; [congruence|].
  cbn [forallb] in Hw. apply andb_true_iff in Hw. destruct Hw as [Hc Hw].
  destruct w as [|b t].
  - cbn [no_space_last]. apply negb_true_iff, not_space_not_SPACE in Hc.
    now rewrite Hc.
  - apply IH; [discriminate|exact Hw].
Qed.

Lemma join_nonempty ws :
  Forall word ws -> ws <> [] -> join [SPACE] ws <> [] /\
  no_space_first (join [SPACE] ws) = true.
Proof.
  intros H Hne. destruct H as [|w ws [Hw Hf] Hws]; [congruence|].
  assert (Hhead : exists c t, w = c :: t /\ N.eqb c SPACE = false).
  { destruct w as [|c t]; [congruence|]. exists c, t. split; auto.
    cbn [forallb] in Hf. apply andb_true_iff in Hf.
    apply not_space_not_SPACE, negb_true_iff, (proj1 Hf). }
  destruct Hhead as (c & t & -> & Hc).
  destruct ws as [|w' ws]; cbn [join app no_space_first]; rewrite Hc;
    split; (discriminate || reflexivity).
Qed.

Lemma join_single_spaced ws :
  Forall word ws -> single_spaced (join [SPACE] ws) = true.
Proof.
  intros H. unfold single_spaced.
  assert (Hfirst : no_space_first (join [SPACE] ws) = true).
  { destruct ws as [|w ws]; [reflexivity|].
    apply (join_nonempty _ H). discriminate. }
  rewrite Hfirst, andb_true_r.
  induction H as [|w ws Hw Hws IH]; [reflexivity|].
  assert (Hplain : only_plain_spaces w = true).
  { destruct Hw as [_ Hf]. unfold only_plain_spaces.
    rewrite forallb_forall in *. intros x Hx.
    specialize (Hf x Hx). apply negb_true_iff in Hf. now rewrite Hf. }
  destruct ws as [|w' ws].
  - cbn [join]. rewrite Hplain.
    rewrite <- (app_nil_r w) at 1.
    rewrite (no_double_space_run w [] (proj2 Hw)).
    now rewrite (no_space_last_word w Hw).
  - change (join [SPACE] (w :: w' :: ws))
      with (w ++ [SPACE] ++ join [SPACE] (w' :: ws)).
    destruct (join_nonempty (w' :: ws) Hws ltac:(discriminate))
      as [Hne Hf'].
    assert (IH' := IH (proj2 (join_nonempty (w' :: ws) Hws
                                ltac:(discriminate)))).
    apply andb_true_iff in IH'. destruct IH' as [IH' Hl].
    apply andb_true_iff in IH'. destruct IH' as [Hp Hd].
    set (r := join [SPACE] (w' :: ws)) in *.
    unfold only_plain_spaces in *. rewrite !forallb_app, Hplain, Hp.
    cbn [forallb implb andb]. rewrite space_SPACE, N.eqb_refl.
    cbn [implb andb].
    rewrite (no_double_space_run w _ (proj2 Hw)).
    rewrite no_space_last_app by (destruct r; discriminate).
    destruct r as [|b t]; [congruence|].
    cbn [app]. cbn [no_space_first] in Hf'.
    change (no_double_space (SPACE :: b :: t))
      with (negb (N.eqb SPACE SPACE && N.eqb b SPACE)
            && no_double_space (b :: t)).
    apply negb_true_iff in Hf'. rewrite Hf', andb_false_r, Hd.
    cbn [negb andb].
    change (no_space_last (SPACE :: b :: t)) with (no_space_last (b :: t)).
    exact Hl.
Qed.

Lemma collapse_single_spaced text :
  single_spaced (collapse_whitespace text) = true.
Proof.
  apply join_single_spaced, split_from_words. reflexivity.
Qed.

(** *** A text that is left as it is *)

Lemma join_split_from s : forall acc,
  forallb (fun c => negb (CharClass.space c)) acc = true ->
  only_plain_spaces s = true -> no_double_space s = true ->
  no_space_last s = true ->
  (acc = [] -> no_space_first s = true) ->
  join [SPACE] (split_from s acc) = rev acc ++ s.
Proof.
  induction s as [|c t IH]; intros acc Hacc Hp Hd Hl Hf.
  - cbn [split_from]. destruct acc as [|a acc]; [reflexivity|].
    cbn [join]. now rewrite app_nil_r.
  - cbn [only_plain_spaces forallb] in Hp.
    apply andb_true_iff in Hp. destruct Hp as [Hc Hp].
    assert (Hd' : no_double_space t = true).
    { destruct t as [|b t']; [reflexivity|].
      change (no_double_space (c :: b :: t'))
        with (negb (N.eqb c SPACE && N.eqb b SPACE)
              && no_double_space (b :: t')) in Hd.
      apply andb_true_iff in Hd. apply Hd. }
    assert (Hl' : no_space_last t = true).
    { destruct t as [|b t']; [reflexivity|exact Hl]. }
    cbn [split_from]. destruct (CharClass.space c) eqn:E.
    + cbn [implb] in Hc. apply N.eqb_eq in Hc. subst c.
      destruct acc as [|a acc];
        [specialize (Hf eq_refl); discriminate|].
      destruct t as [|b t']; [discriminate|].
      assert (Hb : no_space_first (b :: t') = true).
      { change (no_double_space (SPACE :: b :: t'))
          with (negb (N.eqb SPACE SPACE && N.eqb b SPACE)
                && no_double_space (b :: t')) in Hd.
        apply andb_true_iff in Hd. destruct Hd as [Hd _].
        rewrite N.eqb_refl in Hd. exact Hd. }
      specialize (IH [] eq_refl Hp Hd' Hl' (fun _ => Hb)).
      cbn [rev app] in IH.
      destruct (split_from (b :: t') []) as [|w ws] eqn:Es;
        [discriminate|].
      change (join [SPACE] (rev (a :: acc) :: w :: ws))
        with (rev (a :: acc) ++ [SPACE] ++ join [SPACE] (w :: ws)).
      now rewrite IH.
    + rewrite (IH (c :: acc)); auto.
      * cbn [rev]. now rewrite <- app_assoc.
      * cbn [forallb]. now rewrite E, Hacc.
      * discriminate.
Qed.

Lemma single_spaced_fixed s :
  single_spaced s = true -> collapse_whitespace s = s.
Proof.
  unfold single_spaced. rewrite !andb_true_iff.
  intros [[[Hp Hd] Hf] Hl].
  apply (join_split_from s [] eq_refl Hp Hd Hl (fun _ => Hf)).
Qed.

(** *** The characters that are kept *)

Lemma filter_join ws :
  Forall word ws ->
  filter (fun c => negb (CharClass.space c)) (join [SPACE] ws)
  = concat ws.
Proof.
  assert (Hw : forall w, word w ->
             filter (fun c => negb (CharClass.space c)) w = w).
  { intros w [_ H]. induction w as [|c w IH]; [reflexivity|].
    cbn [forallb] in H. apply andb_true_iff in H. destruct H as [Hc H].
    cbn [filter]. rewrite Hc. f_equal. apply IH, H. }
  induction 1 as [|w ws Hword Hws IH]; [reflexivity|].
  destruct ws as [|w' ws].
  - cbn [join concat]. now rewrite app_nil_r, Hw.
  - change (join [SPACE] (w :: w' :: ws))
      with (w ++ [SPACE] ++ join [SPACE] (w' :: ws)).
    rewrite !filter_app, Hw, IH by assumption.
    cbn [filter]. rewrite space_SPACE. reflexivity.
Qed.

Lemma concat_split_from s : forall acc,
  concat (split_from s acc)
  = rev acc ++ filter (fun c => negb (CharClass.space c)) s.
Proof.
  induction s as [|c t IH]; intros acc; cbn [split_from filter].
  - destruct acc; cbn [concat]; now rewrite ?app_nil_r.
  - destruct (CharClass.space c); cbn [negb].
    + destruct acc as [|a acc]; [apply IH|].
      cbn [concat]. now rewrite IH.
    + rewrite IH. cbn [rev]. now rewrite <- app_assoc.
Qed.

(** *** What [fetch_content] returns for a site that asks for it *)

Lemma fetch_content_collapsed site now response text :
  PyStr.eqb (url site) LOCAL_TEST = false ->
  normalize_whitespace site = true ->
  fetch_content site now response = inr text ->
  exists found, text = collapse_whitespace found.
Proof.
  unfold fetch_content. intros -> -> H.
  destruct response as [soup|]; [|discriminate].
  destruct (PyStr.eqb (value_type site) (lit "title")).
  - destruct (page_title soup); injection H as <-; eauto.
  - destruct (css_selector site) as [[|c sel]|];
      try (injection H as <-; eauto).
    destruct (page_select soup (c :: sel)) as [[|n nodes]|];
      try discriminate.
    injection H as <-. eauto.
Qed.

Lemma only_plain_spaces_firstn n s :
  only_plain_spaces s = true -> only_plain_spaces (firstn n s) = true.
Proof.
  unfold only_plain_spaces. rewrite !forallb_forall.
  intros H x Hx. apply H. rewrite <- (firstn_skipn n s).
  apply in_or_app. auto.
Qed.

Lemma no_double_space_firstn n : forall s,
  no_double_space s = true -> no_double_space (firstn n s) = true.
Proof.
  induction n as [|n IH]; intros s H; [reflexivity|].
  destruct s as [|a [|b t]]; [reflexivity|destruct n; reflexivity|].
  change (no_double_space (a :: b :: t))
    with (negb (N.eqb a SPACE && N.eqb b SPACE)
          && no_double_space (b :: t)) in H.
  apply andb_true_iff in H. destruct H as [Hab Ht].
  specialize (IH (b :: t) Ht).
  destruct n as [|n]; [reflexivity|].
  change (firstn (S (S n)) (a :: b :: t))
    with (a :: b :: firstn n t).
  change (firstn (S n) (b :: t)) with (b :: firstn n t) in IH.
  change (no_double_space (a :: b :: firstn n t))
    with (negb (N.eqb a SPACE && N.eqb b SPACE)
          && no_double_space (b :: firstn n t)).
  now rewrite Hab, IH.
Qed.

Lemma no_space_first_firstn n s :
  no_space_first s = true -> no_space_first (firstn n s) = true.
Proof. destruct n, s; auto. Qed.

End FetchFacts.

(** X15.  Collapsing white space leaves single spaces between words and none
    at either end, keeps every other character in its place, and does
    nothing more when applied again. *)
Theorem collapse_whitespace_normal (text : str) :
  single_spaced (collapse_whitespace text) = true /\
  filter (fun c => negb (CharClass.space c)) (collapse_whitespace text)
  = filter (fun c => negb (CharClass.space c)) text /\
  collapse_whitespace (collapse_whitespace text) = collapse_whitespace text.
Proof.
  split; [apply FetchFacts.collapse_single_spaced|].
  split; [|apply FetchFacts.collapse_twice].
  unfold collapse_whitespace, split_whitespace.
  rewrite FetchFacts.filter_join
    by (apply FetchFacts.split_from_words; reflexivity).
  apply FetchFacts.concat_split_from.
Qed.

(** X16.  A text whose only white space is single spaces between its words is
    left as it is. *)
Theorem collapse_whitespace_fixed (text : str) :
  single_spaced text = true -> collapse_whitespace text = text.
Proof. apply FetchFacts.single_spaced_fixed. Qed.

Lemma collapse_whitespace_fixed_witness :
  single_spaced (lit "Python 3.12.1 is out") = true /\
  collapse_whitespace (lit "Python 3.12.1 is out")
  = lit "Python 3.12.1 is out".
Proof.
  split; [reflexivity|].
  apply (collapse_whitespace_fixed (lit "Python 3.12.1 is out")).
  reflexivity.
Defined.

(** X17.  A site that asks for it gets its text with the white space
    collapsed, whichever part of the page the text comes from; the
    built-in test page is the one exception. *)
Theorem fetch_content_single_spaced (site : SiteConfig) (now : str)
        (response : option page) (text : str) :
  PyStr.eqb (url site) LOCAL_TEST = false ->
  normalize_whitespace site = true ->
  fetch_content site now response = inr text ->
  single_spaced text = true.
Proof.
  intros Hu Hn H.
  destruct (FetchFacts.fetch_content_collapsed site now response text
              Hu Hn H) as (found & ->).
  apply FetchFacts.collapse_single_spaced.
Qed.

Definition blog_site : SiteConfig :=
  MkSite (lit "blog") (lit "https://blog.example/") (lit "Latest post")
         (Some (lit "h2.title")) true (lit "text").

Definition blog_page : page :=
  MkPage (Some (lit "The  blog"))
         (fun _ => Some
            [ [32; 78; 101; 119; 9; 112; 111; 115; 116]%N;
              [116; 119; 111; 160; 160; 108; 105; 110; 101; 115]%N ])
         (lit "all the text").

Lemma fetch_content_single_spaced_witness :
  PyStr.eqb (url blog_site) LOCAL_TEST = false /\
  normalize_whitespace blog_site = true /\
  fetch_content blog_site [] (Some blog_page)
  = inr (lit "New post two lines") /\
  single_spaced (lit "New post two lines") = true.
Proof.
  split; [reflexivity|]. split; [reflexivity|]. split; [reflexivity|].
  apply (fetch_content_single_spaced blog_site [] (Some blog_page)
           (lit "New post two lines")); reflexivity.
Defined.

(* ================================================================= *)
(** ** [describe_difference] and [extract_value], further *)

Definition has_digit (value : str) : bool :=
  existsb CharClass.ascii_digit value.

Module ValueFacts.
Import PatternFacts CharClass.

Lemma Matches_NUMBER_head m :
  Matches NUMBER m -> exists d t, m = d :: t /\ ascii_digit d = true.
Proof.
  intros M. unfold NUMBER in M.
  inversion M as [| |r1 r2 s1 s2 Ma Mb| | | |]; subst.
  inversion Ma as [|f' c Hc| | | | |]; subst.
  exists c, s2. auto.
Qed.

Lemma Matches_NUMBER_digit d :
  ascii_digit d = true -> Matches NUMBER [d].
Proof.
  intros Hd. unfold NUMBER.
  change [d] with ([d] ++ [] ++ []).
  apply M_Cat; [apply M_In, Hd|].
  apply M_Cat; [|apply M_Opt_skip].
  apply M_Repeat; [constructor|simpl; lia|discriminate].
Qed.

Lemma no_occurrence_NUMBER value :
  no_occurrence NUMBER value <-> has_digit value = false.
Proof.
  unfold has_digit. split.
  - intros Hno. destruct (existsb ascii_digit value) eqn:E; [|reflexivity].
    apply existsb_exists in E. destruct E as (d & Hin & Hd).
    apply in_split in Hin. destruct Hin as (pre & post & ->).
    exfalso. apply (Hno (length pre) [d]).
    exists pre, post. split; [reflexivity|]. split; [reflexivity|].
    apply Matches_NUMBER_digit, Hd.
  - intros E j m (pre & post & -> & _ & M).
    destruct (Matches_NUMBER_head m M) as (d & t & -> & Hd).
    assert (H : existsb ascii_digit (pre ++ (d :: t) ++ post) = true).
    { apply existsb_exists. exists d. split; [|exact Hd].
      apply in_or_app. right. left. reflexivity. }
    congruence.
Qed.

Lemma parse_number_None value :
  parse_number_from_value value = None <-> has_digit value = false.
Proof.
  rewrite <- no_occurrence_NUMBER.
  pose proof (parse_number_from_value_spec value) as H.
  destruct (parse_number_from_value value) as [x|].
  - destruct H as (j & tok & [Hocc _] & _). split; [discriminate|].
    intros Hno. exfalso. exact (Hno _ _ Hocc).
  - split; auto.
Qed.

Lemma sub_diag (x : PyFloat.float) :
  PyFloat.sub x x = S754_zero false \/ PyFloat.sub x x = S754_nan.
Proof.
  destruct x as [[|]|[|]| |s m e]; auto.
  left. unfold PyFloat.sub, SFsub.
  rewrite Z.sub_diag. reflexivity.
Qed.


(** *** The three extractions, one by one *)

Definition price_value (text : str) : str :=
  match search PRICE_PATTERN text with
  | Some m => char_at text (m_start m) :: remove_char SPACE (group m 1)
  | None => slice_to 160 text
  end.

Definition stock_value (text : str) : str :=
  match search STOCK_PREV_CLOSE_PATTERN text with
  | Some m => DOLLAR :: remove_char SPACE (group m 1)
  | None => price_value text
  end.

Definition version_value (text : str) : str :=
  match search PYTHON_VERSION_PATTERN text with
  | Some m => group m 0
  | None => slice_to 160 text
  end.

Lemma extract_value_cases site text :
  extract_value site text
  = if PyStr.eqb (value_type site) (lit "stock_price") then stock_value text
    else if PyStr.eqb (value_type site) (lit "price") then price_value text
    else if PyStr.eqb (value_type site) (lit "version")
         then version_value text
    else slice_to 160 text.
Proof. reflexivity. Qed.

Definition value_char (c : N) : bool := digit_or_comma c || dot c.

Lemma Matches_NUMBER_chars num :
  Matches NUMBER num -> Forall (fun c => value_char c = true) num.
Proof.
  intros M. unfold NUMBER in M.
  inversion M as [| |r1 r2 s1 s2 Ma Mb| | | |]; subst.
  inversion Ma as [|f' c Hc| | | | |]; subst.
  inversion Mb as [| |r1 r2 s3 s4 Mc Md| | | |]; subst.
  inversion Mc as [| | |lo hi f s Hs _ _| | |]; subst.
  assert (Hdigit : forall l, Forall (fun c => ascii_digit c = true) l ->
                             Forall (fun c => value_char c = true) l).
  { intros l Hl. eapply Forall_impl; [|exact Hl].
    intros a Ha. unfold value_char, digit_or_comma. now rewrite Ha. }
  cbn [app]. constructor.
  - unfold value_char, digit_or_comma. now rewrite Hc.
  - apply Forall_app. split.
    + eapply Forall_impl; [|exact Hs].
      intros a Ha. unfold value_char. now rewrite Ha.
    + inversion Md as [| | | |r|r s Me|]; subst; [constructor|].
      inversion Me as [| |r1 r2 s5 s6 Mf Mg| | | |]; subst.
      inversion Mf as [|f'' d Hd| | | | |]; subst.
      inversion Mg as [| | |lo hi f s Hs' _ _| | |]; subst.
      cbn [app]. constructor.
      * unfold value_char. rewrite Hd. apply orb_true_r.
      * apply Hdigit, Hs'.
Qed.

Lemma occurs_at_prefix r n text j m :
  occurs_at r (firstn n text) j m -> occurs_at r text j m.
Proof.
  intros (pre & post & Ht & Hl & M).
  exists pre, (post ++ skipn n text). split; [|auto].
  rewrite <- (firstn_skipn n text) at 1. rewrite Ht.
  now rewrite <- !app_assoc.
Qed.

Lemma no_occurrence_prefix r n text :
  no_occurrence r text -> no_occurrence r (firstn n text).
Proof. intros H j m Hocc. exact (H j m (occurs_at_prefix _ _ _ _ _ Hocc)). Qed.

Lemma no_occurrence_slice r n text :
  no_occurrence r text -> no_occurrence r (slice_to n text).
Proof. apply no_occurrence_prefix. Qed.

Lemma whole_first_longest r text :
  Matches r text -> first_longest r text 0 text.
Proof.
  intros M. split.
  - exists [], []. rewrite app_nil_r. auto.
  - intros j' m' (pre & post & Ht & Hl & _). split; [lia|].
    intros _. rewrite Ht. rewrite !length_app. lia.
Qed.

Lemma slice_twice n text : slice_to n (slice_to n text) = slice_to n text.
Proof. unfold slice_to. rewrite firstn_firstn. now rewrite Nat.min_id. Qed.

Lemma slice_length n text : length (slice_to n text) <= length text.
Proof. unfold slice_to. rewrite length_firstn. lia. Qed.

(** *** Prices *)

Lemma price_value_shape text :
  (exists sym ws num pre post,
      text = pre ++ (sym :: ws ++ num) ++ post /\
      currency sym = true /\ Matches NUMBER num /\
      price_value text = sym :: num) \/
  (no_occurrence PRICE_PATTERN text /\
   price_value text = slice_to 160 text).
Proof.
  unfold price_value. pose proof (search_PRICE_spec text) as S.
  destruct (search PRICE_PATTERN text) as [m|]; [left|right; auto].
  destruct S as (sym & ws & num & [Hocc _] & Hsym & _ & Hnum & Hc & Hr).
  destruct Hocc as (pre & post & Ht & _ & _).
  exists sym, ws, num, pre, post. rewrite Hc, Hr. auto.
Qed.

Lemma Matches_PRICE sym num :
  currency sym = true -> Matches NUMBER num ->
  Matches PRICE_PATTERN (sym :: num).
Proof.
  intros Hs Hn. unfold PRICE_PATTERN.
  change (sym :: num) with ([sym] ++ [] ++ num).
  apply M_Cat; [apply M_In, Hs|].
  apply M_Cat; [|apply M_Group, Hn].
  apply M_Repeat; [constructor|simpl; lia|discriminate].
Qed.

Lemma price_value_fixed sym num :
  currency sym = true -> Matches NUMBER num ->
  price_value (sym :: num) = sym :: num.
Proof.
  intros Hs Hn. unfold price_value.
  pose proof (search_PRICE_spec (sym :: num)) as S.
  pose proof (whole_first_longest _ _ (Matches_PRICE sym num Hs Hn)) as W.
  destruct (search PRICE_PATTERN (sym :: num)) as [m|].
  - destruct S as (sym' & ws & num' & FL & _ & Hws & Hnum & Hc & Hr).
    destruct (first_longest_unique FL W) as [_ E].
    rewrite Hc, Hr. injection E as -> E. f_equal.
    destruct ws as [|w ws]; [exact E|]. exfalso.
    destruct (Matches_NUMBER_head num Hn) as (d & t & -> & Hd).
    cbn [app] in E. injection E as -> _.
    inversion Hws as [|? ? Hw _]; subst.
    rewrite (digit_not_space _ Hw) in Hd. discriminate.
  - exfalso. destruct W as [Hocc _]. exact (S _ _ Hocc).
Qed.

Lemma price_value_twice text :
  price_value (price_value text) = price_value text.
Proof.
  destruct (price_value_shape text)
    as [(sym & ws & num & pre & post & _ & Hs & Hn & ->)|[Hno ->]].
  - apply price_value_fixed; auto.
  - unfold price_value at 1.
    rewrite (no_occurrence_search
               (no_occurrence_slice _ 160 _ Hno)).
    apply slice_twice.
Qed.

Lemma price_value_length text : length (price_value text) <= length text.
Proof.
  destruct (price_value_shape text)
    as [(sym & ws & num & pre & post & Ht & _ & _ & ->)|[_ ->]].
  - rewrite Ht. rewrite !length_app. cbn [length].
    rewrite length_app. lia.
  - apply slice_length.
Qed.

(** *** Previous close *)

Lemma ignorecase_P c : ignorecase 80 c = true -> c = 80%N \/ c = 112%N.
Proof.
  change (ignorecase 80 c) with
    (N.eqb c 112 || N.eqb c 80 || (false && (N.eqb c 304 || N.eqb c 305))
     || (false && N.eqb c 383) || (false && N.eqb c 8490)).
  cbn [andb]. rewrite !orb_false_r, orb_true_iff, !N.eqb_eq. tauto.
Qed.

Lemma STOCK_starts_P m :
  Matches STOCK_PREV_CLOSE_PATTERN m ->
  exists x t, m = x :: t /\ (x = 80%N \/ x = 112%N).
Proof.
  intros M.
  destruct (@starts_outside_literal true 80 (lit "revious") _
              (fun c => negb (ignorecase 80 c))
              (fun c H => eq_trans (f_equal negb H) eq_refl) m M)
    as (x & t & -> & Hx).
  exists x, t. split; [reflexivity|].
  apply ignorecase_P. now apply negb_false_iff.
Qed.

Lemma STOCK_FRONT_nonempty fr : Matches STOCK_FRONT fr -> fr <> [].
Proof.
  intros M.
  destruct (@starts_outside_literal true 80 (lit "revious") _
              (fun c => negb (ignorecase 80 c))
              (fun c H => eq_trans (f_equal negb H) eq_refl) fr M)
    as (x & t & -> & _).
  discriminate.
Qed.

Lemma stock_absent v :
  Forall (fun c => c <> 80%N /\ c <> 112%N) v ->
  search STOCK_PREV_CLOSE_PATTERN v = None.
Proof.
  intros Hv. apply no_occurrence_search.
  intros j m (pre & post & -> & _ & M).
  destruct (STOCK_starts_P m M) as (x & t & -> & Hx).
  apply Forall_app in Hv. destruct Hv as [_ Hv].
  apply Forall_app in Hv. destruct Hv as [Hv _].
  inversion Hv as [|? ? [H1 H2] _]; subst. tauto.
Qed.

Lemma value_not_P sym num :
  currency sym = true -> Matches NUMBER num ->
  Forall (fun c => c <> 80%N /\ c <> 112%N) (sym :: num).
Proof.
  intros Hs Hn. constructor.
  - unfold currency in Hs. rewrite !orb_true_iff, !N.eqb_eq in Hs. lia.
  - eapply Forall_impl; [|exact (Matches_NUMBER_chars num Hn)].
    intros c Hc. unfold value_char, digit_or_comma, ascii_digit, dot,
                   in_range in Hc.
    rewrite !orb_true_iff, andb_true_iff, !N.leb_le, !N.eqb_eq in Hc. lia.
Qed.

Lemma stock_value_shape text :
  (exists fr num pre post,
      text = pre ++ (fr ++ num) ++ post /\ fr <> [] /\
      Matches NUMBER num /\ stock_value text = DOLLAR :: num) \/
  (no_occurrence STOCK_PREV_CLOSE_PATTERN text /\
   stock_value text = price_value text).
Proof.
  unfold stock_value. pose proof (search_STOCK_spec text) as S.
  destruct (search STOCK_PREV_CLOSE_PATTERN text) as [m|];
    [left|right; auto].
  destruct S as (fr & num & [Hocc _] & Hfr & Hnum & Hr).
  destruct Hocc as (pre & post & Ht & _ & _).
  exists fr, num, pre, post. rewrite Hr.
  split; [exact Ht|]. split; [apply STOCK_FRONT_nonempty, Hfr|auto].
Qed.

Lemma stock_value_fixed sym num :
  currency sym = true -> Matches NUMBER num ->
  stock_value (sym :: num) = sym :: num.
Proof.
  intros Hs Hn. unfold stock_value.
  rewrite (stock_absent _ (value_not_P sym num Hs Hn)).
  apply price_value_fixed; auto.
Qed.

Lemma stock_value_twice text :
  stock_value (stock_value text) = stock_value text.
Proof.
  destruct (stock_value_shape text)
    as [(fr & num & pre & post & _ & _ & Hn & ->)|[Hno ->]].
  - apply stock_value_fixed; [reflexivity|exact Hn].
  - destruct (price_value_shape text)
      as [(sym & ws & num & pre & post & _ & Hs & Hn & ->)|[Hnp ->]].
    + apply stock_value_fixed; auto.
    + unfold stock_value.
      rewrite (no_occurrence_search
                 (no_occurrence_slice _ 160 _ Hno)).
      unfold price_value.
      rewrite (no_occurrence_search
                 (no_occurrence_slice _ 160 _ Hnp)).
      apply slice_twice.
Qed.

Lemma stock_value_length text : length (stock_value text) <= length text.
Proof.
  destruct (stock_value_shape text)
    as [(fr & num & pre & post & Ht & Hfr & _ & ->)|[_ ->]].
  - rewrite Ht. rewrite !length_app. cbn [length].
    destruct fr; [congruence|]. cbn [length]. lia.
  - apply price_value_length.
Qed.

(** *** Versions *)

Lemma version_value_shape text :
  (exists pre post,
      text = pre ++ version_value text ++ post /\
      Matches PYTHON_VERSION_PATTERN (version_value text)) \/
  (no_occurrence PYTHON_VERSION_PATTERN text /\
   version_value text = slice_to 160 text).
Proof.
  unfold version_value. pose proof (search_VERSION_spec text) as S.
  destruct (search PYTHON_VERSION_PATTERN text) as [m|];
    [left|right; auto].
  destruct S as [(pre & post & Ht & _ & M) _]. exists pre, post. auto.
Qed.

Lemma version_value_fixed v :
  Matches PYTHON_VERSION_PATTERN v -> version_value v = v.
Proof.
  intros M. unfold version_value.
  pose proof (search_VERSION_spec v) as S.
  pose proof (whole_first_longest _ _ M) as W.
  destruct (search PYTHON_VERSION_PATTERN v) as [m|].
  - exact (proj2 (first_longest_unique S W)).
  - exfalso. destruct W as [Hocc _]. exact (S _ _ Hocc).
Qed.

Lemma version_value_twice text :
  version_value (version_value text) = version_value text.
Proof.
  destruct (version_value_shape text) as [(pre & post & _ & M)|[Hno E]].
  - apply version_value_fixed, M.
  - rewrite E. unfold version_value at 1.
    rewrite (no_occurrence_search
               (no_occurrence_slice _ 160 _ Hno)).
    apply slice_twice.
Qed.

Lemma version_value_length text :
  length (version_value text) <= length text.
Proof.
  destruct (version_value_shape text) as [(pre & post & Ht & _)|[_ ->]].
  - rewrite Ht at 2. rewrite !length_app. lia.
  - apply slice_length.
Qed.

End ValueFacts.

(** X18.  The change line is left out exactly when one of the two values
    holds no ASCII digit: a number is always read from a value that
    holds one. *)
Theorem describe_difference_empty (old_value new_value : str) :
  describe_difference old_value new_value = [] <->
  has_digit old_value = false \/ has_digit new_value = false.
Proof.
  rewrite <- !ValueFacts.parse_number_None. unfold describe_difference.
  destruct (parse_number_from_value old_value) as [a|];
    [|split; auto].
  destruct (parse_number_from_value new_value) as [b|];
    [|split; auto].
  split; [|intros [H|H]; discriminate].
  destruct (PyFloat.ltb PyFloat.zero (PyFloat.sub b a));
    [discriminate|].
  destruct (PyFloat.ltb (PyFloat.sub b a) PyFloat.zero); discriminate.
Qed.

(** X19.  A value compared with itself never shows a rise or a fall: there is
    no change line, or the flat arrow with [+0.00], or, for a number too
    large for a float, the flat arrow with [+nan]. *)
Theorem describe_difference_same (value : str) :
  describe_difference value value = [] \/
  describe_difference value value = ARROW_FLAT ++ lit " +0.00" \/
  describe_difference value value = ARROW_FLAT ++ lit " +nan".
Proof.
  unfold describe_difference.
  destruct (parse_number_from_value value) as [x|]; [|auto].
  right. destruct (ValueFacts.sub_diag x) as [-> | ->]; [left|right];
    reflexivity.
Qed.

(** A number too large for a float is read as infinity, and the
    difference of two such numbers is not a number. *)
Example describe_difference_huge :
  describe_difference (49%N :: repeat 48%N 400) (50%N :: repeat 48%N 400)
  = ARROW_FLAT ++ lit " +nan".
Proof. vm_compute. reflexivity. Qed.

(** X20.  Extraction is idempotent: the value drawn from a text is the value
    drawn from that value, for every kind of site.  A stored value can
    be extracted again without a change being seen. *)
Theorem extract_value_idempotent (site : SiteConfig) (text : str) :
  extract_value site (extract_value site text) = extract_value site text.
Proof.
  rewrite !ValueFacts.extract_value_cases.
  destruct (PyStr.eqb (value_type site) (lit "stock_price"));
    [apply ValueFacts.stock_value_twice|].
  destruct (PyStr.eqb (value_type site) (lit "price"));
    [apply ValueFacts.price_value_twice|].
  destruct (PyStr.eqb (value_type site) (lit "version"));
    [apply ValueFacts.version_value_twice|].
  apply ValueFacts.slice_twice.
Qed.

(** X21.  The value is never longer than the text it is drawn from. *)
Theorem extract_value_length (site : SiteConfig) (text : str) :
  length (extract_value site text) <= length text.
Proof.
  rewrite ValueFacts.extract_value_cases.
  destruct (PyStr.eqb (value_type site) (lit "stock_price"));
    [apply ValueFacts.stock_value_length|].
  destruct (PyStr.eqb (value_type site) (lit "price"));
    [apply ValueFacts.price_value_length|].
  destruct (PyStr.eqb (value_type site) (lit "version"));
    [apply ValueFacts.version_value_length|].
  apply ValueFacts.slice_length.
Qed.

(* ================================================================= *)
(** ** From the page to the value *)

(** X22.  The value of a site of kind text or title, fetched with the white
    space collapsed: at most 160 characters, no white space but single
    spaces, none at the start.  (A space can end it, where the cut
    falls after a word.) *)
Theorem fetched_text_value (site : SiteConfig) (now : str)
        (response : option page) (text : str) :
  PyStr.eqb (url site) LOCAL_TEST = false ->
  normalize_whitespace site = true ->
  PyStr.eqb (value_type site) (lit "stock_price")
  || PyStr.eqb (value_type site) (lit "price")
  || PyStr.eqb (value_type site) (lit "version") = false ->
  fetch_content site now response = inr text ->
  length (extract_value site text) <= 160 /\
  only_plain_spaces (extract_value site text) = true /\
  no_double_space (extract_value site text) = true /\
  no_space_first (extract_value site text) = true.
Proof.
  intros Hu Hn Hk H.
  apply orb_false_iff in Hk. destruct Hk as [Hk Hv].
  apply orb_false_iff in Hk. destruct Hk as [Hs Hp].
  rewrite ValueFacts.extract_value_cases, Hs, Hp, Hv.
  destruct (FetchFacts.fetch_content_collapsed site now response text
              Hu Hn H) as (found & ->).
  pose proof (FetchFacts.collapse_single_spaced found) as S.
  unfold single_spaced in S. rewrite !andb_true_iff in S.
  destruct S as [[[S1 S2] S3] _]. unfold slice_to.
  split; [rewrite length_firstn; lia|].
  split; [apply FetchFacts.only_plain_spaces_firstn, S1|].
  split; [apply FetchFacts.no_double_space_firstn, S2|].
  apply FetchFacts.no_space_first_firstn, S3.
Qed.

Lemma fetched_text_value_witness :
  length (extract_value blog_site (lit "New post two lines")) <= 160 /\
  only_plain_spaces (extract_value blog_site (lit "New post two lines"))
  = true /\
  no_double_space (extract_value blog_site (lit "New post two lines"))
  = true /\
  no_space_first (extract_value blog_site (lit "New post two lines"))
  = true.
Proof.
  apply (fetched_text_value blog_site [] (Some blog_page)
           (lit "New post two lines")); reflexivity.
Defined.
